(** * ez-guitar-hero: the game reducer, the note scheduler and the PRNG

    A shallow embedding of [src/main.ts] (reducer and scheduler) and of
    [util.ts] (class [RNG]), with the properties the specification states
    about them.

    Numbers.  A JavaScript [number] is an IEEE-754 double.  The embedding
    uses
    - [Z] for the numbers the program keeps integral ([id], [column],
      [pitch], [volume], [tickCount], [notesPlayed], [randomSeed] and
      [points], which is only ever written through [~~]);
    - [Q] for the others: positions and times ([yPos], the tail extents,
      [startTime], [endTime]) and the intermediate score.  A double is a
      rational number, and [JS.round64] gives the double nearest to a
      rational, as an arithmetic operation on doubles does with its exact
      result.
    The machine arithmetic is written out where the result of the program
    depends on it: the 32-bit conversion of [~~] ([JS.toInt32]); the
    rounding of the large integer product of [RNG.hash] to 53 significant
    bits ([JS.round53]); the score, where the literal [0.2], the
    multiplier, and every sum and difference of the two folds are rounded
    ([pressMultiplier], [activationStatus], [releaseMultiplier],
    [releasePoints]); and the duration and the tail of an arriving note
    ([noteWithTail]).  The additions of [INCREMENT] to the positions are
    taken exactly: in binary64 they are exact for the whole numbers the
    notes are at, and for the start of a tail as long as it is below zero.
    The other operations are taken exactly: the differences of start
    times in [delayNotes$], [RNG.scale] and the products of the draws, and
    the arguments of the sampler calls.
    [JS.round64] is checked against the division of the binary64 numbers of
    the kernel ([round64_agrees_with_binary64]), and so is the model at the
    inputs of the counterexamples ([round53_agrees_with_binary64],
    [scale_agrees_with_binary64], [score_agrees_with_binary64],
    [duration_agrees_with_binary64]).

    The file has three parts: the program; the definitions the statements
    need; the lemmas, claim by claim. *)

From Stdlib Require Import ZArith QArith Qround List Bool String Lia.
From Stdlib Require Import Permutation Lqa Qpower.
From Stdlib Require PrimFloat FloatOps SpecFloat Uint63.
Import ListNotations.

Local Open Scope Z_scope.

(** ** JavaScript arithmetic used by the program *)

Module JS.

(** [x < y] on numbers. *)
Definition ltb (x y : Q) : bool :=
  match Qcompare x y with Lt => true | _ => false end.

(** [Math.floor]. *)
Definition floor (x : Q) : Z := Qfloor x.

(** Truncation toward zero, the first step of [ToInt32]. *)
Definition trunc (x : Q) : Z := Z.quot (Qnum x) (Zpos (Qden x)).

(** Reduction modulo 2^32 into the signed range, the second step. *)
Definition wrap32 (z : Z) : Z := (z + 2147483648) mod 4294967296 - 2147483648.

(** [~~x]: two bitwise complements, that is [ToInt32 x]. *)
Definition toInt32 (x : Q) : Z := wrap32 (trunc x).

(** The signed 32-bit integers, the values [~~] can return. *)
Definition int32 (z : Z) : Prop := -2147483648 <= z < 2147483648.

(** The double nearest to the integer [x] (ties to even).  Integers of
    magnitude below 2^53 are doubles; a larger one keeps its 53 leading
    bits.  (Magnitudes of 2^1024 and more, which overflow, are outside
    the model.) *)
Definition round53 (x : Z) : Z :=
  let a := Z.abs x in
  let e := Z.log2 a - 52 in
  if e <=? 0 then x
  else
    let q := a / 2 ^ e in
    let r := a mod 2 ^ e in
    let half := 2 ^ (e - 1) in
    let q' := if (half <? r) || ((r =? half) && Z.odd q) then q + 1 else q in
    Z.sgn x * (q' * 2 ^ e).

(** The integer nearest to [x], the even one of two. *)
Definition rne (x : Q) : Z :=
  let k := Qfloor x in
  match Qcompare (x - inject_Z k) (1 # 2) with
  | Lt => k
  | Gt => k + 1
  | Eq => if Z.even k then k else k + 1
  end.

(** The binary exponent of a positive number: [2^e <= x < 2^(e+1)]. *)
Definition ilog2 (x : Q) : Z :=
  if Qle_bool 1 x then Z.log2 (Qfloor x) else - Z.log2_up (Qceiling (/ x)).

(** The double nearest to a positive number: its 53 leading bits, rounded
    to nearest, ties to even. *)
Definition round64_pos (x : Q) : Q :=
  let s := ilog2 x - 52 in (inject_Z (rne (x / 2 ^ s)) * 2 ^ s)%Q.

(** The double nearest to [x]: what an arithmetic operation returns whose
    exact result is [x].  (Results of magnitude 2^1024 and more, which
    overflow, and below 2^-1022, which lose bits, are outside the model.) *)
Definition round64 (x : Q) : Q :=
  match Qcompare x 0 with
  | Eq => 0%Q
  | Gt => round64_pos x
  | Lt => (- round64_pos (- x))%Q
  end.

End JS.

(** ** util.ts: the linear congruential generator *)

Module RNG.

Definition modulus : Z := 2147483648.
Definition multiplier : Z := 1103515245.
Definition increment : Z := 12345.

(** [(RNG.multiplier * seed + RNG.increment) % RNG.modulus] on a seed that
    is an integer (and a double, as every seed of the game is: the first is
    the hash of 3847589, the others are hashes of hashes).  The product and
    the sum are doubles, so each is rounded; [%] is exact and takes the sign
    of the dividend ([Z.rem]). *)
Definition hash (seed : Z) : Z :=
  Z.rem (JS.round53 (JS.round53 (multiplier * seed) + increment)) modulus.

(** [((2 * hash) / (RNG.modulus - 1) - 1 + 1) / 2]. *)
Definition scale (hash : Z) : Q :=
  (((2 * inject_Z hash) / inject_Z (modulus - 1) - 1 + 1) / 2)%Q.

End RNG.

(** ** Constants *)

Module GameSettings.
Definition INCREMENT : Q := 1%Q.
Definition RATE : Q := 7%Q.
Definition THRESHOLD : Q := 40%Q.
Definition LAST_ROW : Q := 350%Q.
End GameSettings.

(** ** Data model *)

(** [inactive] is [None] for the tail object [AddNextNote] creates, which
    has no such property ([undefined], falsy); [advanceTick] runs in the same
    action and gives it a boolean. *)
Record TailInfo : Type := mkTail {
  start : Q;
  end_ : Q;
  inactive : option bool
}.

Record MusicalNote : Type := mkNote {
  id : Z;
  visible : bool;
  yPos : Q;
  column : Z;
  instrument : string;
  volume : Z;
  pitch : Z;
  startTime : Q;
  endTime : Q;
  tail : option TailInfo
}.

(** The object literal [incorrectNote] of [PressButton] has five of the ten
    properties and is cast to [MusicalNote]; [samples[i]] is [undefined]
    when [i] is past the array. *)
Record IncorrectNote : Type := mkIncorrect {
  i_instrument : option string;
  i_volume : Z;
  i_pitch : Z;
  i_startTime : Q;
  i_endTime : Q
}.

(** What [readyNotes] holds: notes emitted by [advanceTick], and the
    filler objects of wrong presses. *)
Inductive ReadyNote : Type :=
| Sound (note : MusicalNote)
| Filler (note : IncorrectNote).

Record GameState : Type := mkState {
  isGameOver : bool;
  allNotesFinished : bool;
  tickCount : Z;
  randomSeed : Z;
  notesPlayed : Z;
  points : Z;
  activeNotes : list MusicalNote;
  expiredNotes : list MusicalNote;
  readyNotes : list ReadyNote
}.

Definition defaultState : GameState :=
  {| isGameOver := false;
     allNotesFinished := false;
     tickCount := 0;
     randomSeed := RNG.hash 3847589;
     notesPlayed := 0;
     points := 0;
     activeNotes := [];
     expiredNotes := [];
     readyNotes := [] |}.

(** Object spread with one property replaced. *)
Definition with_yPos (note : MusicalNote) (y : Q) : MusicalNote :=
  mkNote (id note) (visible note) y (column note) (instrument note)
         (volume note) (pitch note) (startTime note) (endTime note) (tail note).

Definition with_visible (note : MusicalNote) (v : bool) : MusicalNote :=
  mkNote (id note) v (yPos note) (column note) (instrument note)
         (volume note) (pitch note) (startTime note) (endTime note) (tail note).

Definition with_tail (note : MusicalNote) (t : option TailInfo) : MusicalNote :=
  mkNote (id note) (visible note) (yPos note) (column note) (instrument note)
         (volume note) (pitch note) (startTime note) (endTime note) t.

Definition with_inactive (t : TailInfo) (b : option bool) : TailInfo :=
  mkTail (start t) (end_ t) b.

(** JavaScript truthiness of [tail.inactive]. *)
Definition truthy (b : option bool) : bool :=
  match b with Some true => true | _ => false end.

(** ** advanceTick *)

Definition NoteAndSound : Type := (option MusicalNote * option MusicalNote)%type.

Definition adjustTail (increment bottom : Q) (tail : TailInfo) (visible : bool)
  : TailInfo :=
  let newStart := (start tail + increment)%Q in
  let newEnd := if visible then (end_ tail + increment)%Q else bottom in
  let inactive' := if visible then Some false else inactive tail in
  mkTail newStart newEnd inactive'.

Definition updateNoteYPos (increment bottom : Q) (note : MusicalNote)
  : NoteAndSound :=
  let newY := (yPos note + increment)%Q in
  match tail note with
  | Some t =>
      let updatedTail := adjustTail increment bottom t (visible note) in
      let updatedNote := with_tail (with_yPos note newY) (Some updatedTail) in
      if visible note then
        if Qeq_bool (end_ updatedTail) bottom then
          if JS.ltb (start updatedTail) bottom
          then (Some (with_tail (with_visible updatedNote false)
                                (Some (with_inactive updatedTail (Some true)))),
                None)
          else (None, None)
        else
          if JS.ltb (start updatedTail) bottom
          then (Some updatedNote, None)
          else (None, None)
      else
        if Qeq_bool newY bottom then (Some updatedNote, Some updatedNote)
        else
          if JS.ltb (start updatedTail) bottom
          then (Some updatedNote, None)
          else (None, None)
  | None =>
      if Qle_bool newY bottom then
        if visible note then
          if JS.ltb newY bottom then (Some (with_yPos note newY), None)
          else if Qeq_bool newY bottom then (None, None)
          else (None, None)
        else
          if JS.ltb newY bottom then (Some (with_yPos note newY), None)
          else if Qeq_bool newY bottom then (None, Some (with_yPos note newY))
          else (None, None)
      else (None, None)
  end.

Definition calcPositionForGame : MusicalNote -> NoteAndSound :=
  updateNoteYPos GameSettings.INCREMENT GameSettings.LAST_ROW.

Record AccumulatedNotes : Type := mkAcc {
  newActiveNotes : list MusicalNote;
  newReadyNotes : list MusicalNote
}.

Definition initialAccumulatedNotes : AccumulatedNotes := mkAcc [] [].

(** The callback of [state.activeNotes.reduce]. *)
Definition accumulate (acc : AccumulatedNotes) (note : MusicalNote)
  : AccumulatedNotes :=
  let '(updatedNote, readyNote) := calcPositionForGame note in
  mkAcc
    (match updatedNote with
     | Some u => newActiveNotes acc ++ [u]
     | None => newActiveNotes acc
     end)
    (match readyNote with
     | Some r => newReadyNotes acc ++ [r]
     | None => newReadyNotes acc
     end).

Definition isNoteAtBottom (note : MusicalNote) : bool :=
  Qeq_bool (yPos note + 1)%Q GameSettings.LAST_ROW && visible note.

Definition isEmpty {A : Type} (l : list A) : bool := (List.length l =? 0)%nat.

Definition advanceTick (state : GameState) : GameState :=
  let acc := fold_left accumulate (activeNotes state) initialAccumulatedNotes in
  {| isGameOver :=
       allNotesFinished state
       && isEmpty (newActiveNotes acc)
       && isEmpty (newReadyNotes acc)
       && isEmpty (expiredNotes state);
     allNotesFinished := allNotesFinished state;
     tickCount := tickCount state;
     randomSeed := randomSeed state;
     notesPlayed :=
       if isEmpty (filter isNoteAtBottom (newActiveNotes acc))
       then notesPlayed state
       else notesPlayed state;
     points := points state;
     activeNotes := newActiveNotes acc;
     expiredNotes := activeNotes state;
     readyNotes := map Sound (newReadyNotes acc) |}.

(** ** The five actions *)

Inductive GameAction : Type :=
| ReleaseButton (column : Z)
| PressButton (column : Z)
| GameTick
| EndGame
| AddNextNote (activeNotes : list MusicalNote).

(** *** ReleaseButton *)

(** [1 + 0.2 * Math.floor(state.notesPlayed / 10)]: the literal [0.2] is
    the double nearest to one fifth, and the quotient, the product and the
    sum are rounded. *)
Definition releaseMultiplier (state : GameState) : Q :=
  JS.round64
    (1 + JS.round64
           (JS.round64 (1 # 5)
            * inject_Z (JS.floor (JS.round64 (inject_Z (notesPlayed state) / 10))))).

(** The test both callbacks of [ReleaseButton.execute] make:
    [note.tail !== undefined && note.column === this.column &&
     !note.visible && !note.tail.inactive]. *)
Definition heldTail (c : Z) (note : MusicalNote) : bool :=
  match tail note with
  | Some t => (column note =? c) && negb (visible note) && negb (truthy (inactive t))
  | None => false
  end.

Definition releasePoints (c : Z) (state : GameState) : Q :=
  fold_left
    (fun (acc : Q) (note : MusicalNote) =>
       if heldTail c note then JS.round64 (acc - releaseMultiplier state) else acc)
    (activeNotes state) (inject_Z (points state)).

Definition releaseNote (c : Z) (note : MusicalNote) : MusicalNote :=
  match tail note with
  | Some t =>
      if heldTail c note
      then with_tail note (Some (with_inactive t (Some true)))
      else note
  | None => note
  end.

Definition ReleaseButton_execute (c : Z) (state : GameState) : GameState :=
  let updatedPoints := releasePoints c state in
  let updatedActiveNotes := map (releaseNote c) (activeNotes state) in
  {| isGameOver := isGameOver state;
     allNotesFinished := allNotesFinished state;
     tickCount := tickCount state;
     randomSeed := randomSeed state;
     notesPlayed := notesPlayed state;
     points := JS.toInt32 updatedPoints;
     activeNotes := updatedActiveNotes;
     expiredNotes := activeNotes state;
     readyNotes := readyNotes state |}.

(** *** PressButton *)

Record ActionAccumulator : Type := mkAction {
  activated : bool;
  acc_points : Q
}.

(** [1 + 0.2 * ~~(state.notesPlayed / 10)], rounded as in
    [releaseMultiplier]. *)
Definition pressMultiplier (state : GameState) : Q :=
  JS.round64
    (1 + JS.round64
           (JS.round64 (1 # 5)
            * inject_Z (JS.toInt32 (JS.round64 (inject_Z (notesPlayed state) / 10))))).

(** The test both callbacks of [PressButton.execute] make: the note is in
    the hit window, in this column, and visible. *)
Definition inHitWindow (c : Z) (note : MusicalNote) : bool :=
  Qle_bool (GameSettings.LAST_ROW - GameSettings.THRESHOLD)%Q (yPos note)
  && JS.ltb (yPos note) GameSettings.LAST_ROW
  && (column note =? c)
  && visible note.

Definition activationStatus (c : Z) (state : GameState) : ActionAccumulator :=
  fold_left
    (fun (acc : ActionAccumulator) (note : MusicalNote) =>
       if inHitWindow c note
       then mkAction true (JS.round64 (acc_points acc + pressMultiplier state))
       else acc)
    (activeNotes state) (mkAction false (inject_Z (points state))).

Definition pressNote (c : Z) (note : MusicalNote) : MusicalNote :=
  if inHitWindow c note then with_visible note false else note.

Definition samples : list string :=
  ["piano"; "violin"; "flute"; "saxophone"; "trumpet"; "bass-electric"]%string.

(** [samples[i]]. *)
Definition sampleAt (i : Z) : option string :=
  if i <? 0 then None else nth_error samples (Z.to_nat i).

(** The four properties are four calls of [RNG.scale(state.randomSeed)]. *)
Definition incorrectNote (state : GameState) : IncorrectNote :=
  {| i_instrument :=
       sampleAt (JS.toInt32 (RNG.scale (randomSeed state)
                             * inject_Z (Z.of_nat (List.length samples)))%Q);
     i_volume := JS.toInt32 (RNG.scale (randomSeed state) * 90)%Q;
     i_pitch := JS.toInt32 (RNG.scale (randomSeed state) * 70)%Q;
     i_startTime := 0%Q;
     i_endTime := inject_Z (JS.toInt32 (RNG.scale (randomSeed state) * 500)%Q) |}.

Definition hasTail (note : MusicalNote) : bool :=
  match tail note with Some _ => true | None => false end.

Definition checkWrongPress (c : Z) (state : GameState) : bool :=
  negb (activated (activationStatus c state))
  && isEmpty
       (filter (fun note => (column note =? c) && negb (visible note) && hasTail note)
               (map (pressNote c) (activeNotes state))).

Definition PressButton_execute (c : Z) (state : GameState) : GameState :=
  let status := activationStatus c state in
  let updatedActiveNotes := map (pressNote c) (activeNotes state) in
  {| isGameOver := isGameOver state;
     allNotesFinished := allNotesFinished state;
     tickCount := tickCount state;
     randomSeed := RNG.hash (randomSeed state);
     notesPlayed :=
       if activated status then notesPlayed state + 1 else notesPlayed state;
     points := JS.toInt32 (acc_points status);
     activeNotes := updatedActiveNotes;
     expiredNotes := activeNotes state;
     readyNotes :=
       if checkWrongPress c state
       then readyNotes state ++ [Filler (incorrectNote state)]
       else readyNotes state |}.

(** *** GameTick, EndGame, AddNextNote *)

Definition with_tickCount (state : GameState) (t : Z) : GameState :=
  mkState (isGameOver state) (allNotesFinished state) t (randomSeed state)
          (notesPlayed state) (points state) (activeNotes state)
          (expiredNotes state) (readyNotes state).

Definition with_allNotesFinished (state : GameState) (b : bool) : GameState :=
  mkState (isGameOver state) b (tickCount state) (randomSeed state)
          (notesPlayed state) (points state) (activeNotes state)
          (expiredNotes state) (readyNotes state).

Definition with_seed_and_active (state : GameState) (seed : Z)
           (notes : list MusicalNote) : GameState :=
  mkState (isGameOver state) (allNotesFinished state) (tickCount state) seed
          (notesPlayed state) (points state) notes
          (expiredNotes state) (readyNotes state).

Definition GameTick_execute (state : GameState) : GameState :=
  let newState := advanceTick state in
  with_tickCount newState (tickCount state + 1).

Definition EndGame_execute (state : GameState) : GameState :=
  advanceTick (with_allNotesFinished state true).

(** The callback of [this.activeNotes.map] in [AddNextNote.execute]; the
    difference, the quotient and the start of the tail are rounded. *)
Definition noteWithTail (note : MusicalNote) : MusicalNote :=
  let duration := JS.round64 (endTime note - startTime note) in
  if visible note && JS.ltb 1000 duration then
    let tailLength := JS.round64 (duration / GameSettings.RATE) in
    with_tail note
              (Some (mkTail (JS.round64 (yPos note - tailLength)) (yPos note) None))
  else with_tail note None.

Definition AddNextNote_execute (group : list MusicalNote) (state : GameState)
  : GameState :=
  let notesWithTail := map noteWithTail group in
  advanceTick
    (with_seed_and_active state (RNG.hash (randomSeed state))
                          (activeNotes state ++ notesWithTail)).

Definition execute (action : GameAction) (state : GameState) : GameState :=
  match action with
  | ReleaseButton c => ReleaseButton_execute c state
  | PressButton c => PressButton_execute c state
  | GameTick => GameTick_execute state
  | EndGame => EndGame_execute state
  | AddNextNote group => AddNextNote_execute group state
  end.

Definition applyGameAction (state : GameState) (action : GameAction) : GameState :=
  execute action state.

(** [scan(applyGameAction, defaultState)]: the state after a list of actions. *)
Definition run (state : GameState) (actions : list GameAction) : GameState :=
  fold_left applyGameAction actions state.

(** The states the game can be in. *)
Inductive reachable : GameState -> Prop :=
| reach_default : reachable defaultState
| reach_step state action :
    reachable state -> reachable (execute action state).

(** ** The note scheduler *)

Module ScheduledNotes.
Record t : Type := mk {
  delay : Q;
  startTime : option Q;
  group : list MusicalNote
}.
End ScheduledNotes.

(** A [Record<number, MusicalNote[]>]: the own properties in creation
    order.  The property key of a number is its string, and two numbers have
    the same string exactly when they are equal. *)
Definition Groups : Type := list (Q * list MusicalNote).

(** [groups[k]]. *)
Fixpoint lookup (k : Q) (groups : Groups) : option (list MusicalNote) :=
  match groups with
  | [] => None
  | (k', v) :: rest => if Qeq_bool k k' then Some v else lookup k rest
  end.

(** [{...groups, [k]: v}]: an existing property keeps its place, a new one
    comes last. *)
Fixpoint assign (k : Q) (v : list MusicalNote) (groups : Groups) : Groups :=
  match groups with
  | [] => [(k, v)]
  | (k', v') :: rest =>
      if Qeq_bool k k' then (k', v) :: rest else (k', v') :: assign k v rest
  end.

(** The keys that are array indices: the integers from 0 to 2^32 - 2. *)
Definition isArrayIndex (k : Q) : bool :=
  (Zpos (Qden (Qred k)) =? 1) && Qle_bool 0 k && Qle_bool k 4294967294.

Fixpoint insertByKey (e : Q * list MusicalNote) (l : Groups) : Groups :=
  match l with
  | [] => [e]
  | e' :: rest =>
      if Qle_bool (fst e) (fst e') then e :: l else e' :: insertByKey e rest
  end.

Definition sortByKey (l : Groups) : Groups := fold_right insertByKey [] l.

(** [Object.values]: the properties whose keys are array indices first, in
    ascending order, then the others in creation order. *)
Definition Object_values (groups : Groups) : list (list MusicalNote) :=
  map snd (sortByKey (filter (fun e => isArrayIndex (fst e)) groups)
           ++ filter (fun e => negb (isArrayIndex (fst e))) groups).

(** The callback of [notes.reduce] in [scheduleNotes]. *)
Definition addToGroup (groups : Groups) (note : MusicalNote) : Groups :=
  let startTime := startTime note in
  assign startTime
         (match lookup startTime groups with Some g => g | None => [] end
          ++ [note])
         groups.

Definition scheduleNotes (notes : list MusicalNote) : list (list MusicalNote) :=
  Object_values (fold_left addToGroup notes []).

(** The accumulator of the [scan] in [delayNotes$].  [currentNote[0]] of an
    empty group is [undefined] and reading its [startTime] throws: [None]. *)
Definition delayStep (stored : ScheduledNotes.t) (currentNote : list MusicalNote)
  : option ScheduledNotes.t :=
  match currentNote with
  | [] => None
  | first :: _ =>
      Some (ScheduledNotes.mk
              (match ScheduledNotes.startTime stored with
               | None => 0%Q
               | Some s => (startTime first - s)%Q
               end)
              (Some (startTime first))
              currentNote)
  end.

Fixpoint scanDelays (stored : ScheduledNotes.t) (groups : list (list MusicalNote))
  : option (list ScheduledNotes.t) :=
  match groups with
  | [] => Some []
  | g :: rest =>
      match delayStep stored g with
      | None => None
      | Some s => option_map (cons s) (scanDelays s rest)
      end
  end.

(** The values [delayNotes$(notes$)(initialStartTime)] emits, in order (each
    one [delay] milliseconds after the one before); [None] when the scan
    throws. *)
Definition delayNotes (groups : list (list MusicalNote))
           (initialStartTime : option Q) : option (list ScheduledNotes.t) :=
  scanDelays (ScheduledNotes.mk 0%Q initialStartTime []) groups.

(** ** The rest of the pipeline *)


(** [scheduleNotes$], the scheduler the game runs: [groupBy] opens a group
    for each start time in the order of first appearance (its groups are
    kept in a [Map], here the same list of properties in creation order),
    [toArray] collects each group, and when the source completes the groups
    complete, and [mergeMap] emits their arrays, in the order of creation. *)
Definition scheduleNotes_stream (notes : list MusicalNote)
  : list (list MusicalNote) :=
  map snd (fold_left addToGroup notes []).

(** *** Sound: what the subscription asks of the samplers *)

(** The calls [executeNotes] and [muteNotes] make on
    [samples[note.instrument]], in order.  The sampler is named by its
    instrument; the frequency [Tone.Frequency(pitch, "midi").toNote()] by
    the pitch.  [releaseLater] is the [setTimeout] of [executeNotes], which
    calls [triggerRelease] after [delay] milliseconds. *)
Inductive SamplerCall : Type :=
| triggerAttack (instrument : option string) (pitch : Z) (velocity : Q)
| releaseLater (instrument : option string) (pitch : Z) (delay : Q)
| triggerAttackRelease (instrument : option string) (pitch : Z)
                       (duration : Q) (velocity : Q)
| triggerRelease (instrument : option string) (pitch : Z).

(** The body of the [forEach] of [executeNotes], for the two shapes of a
    ready note; the filler has no [tail] property. *)
Definition executeNote (ready : ReadyNote) : list SamplerCall :=
  match ready with
  | Sound note =>
      match tail note with
      | Some _ =>
          [triggerAttack (Some (instrument note)) (pitch note)
                         (inject_Z (volume note) / 127)%Q;
           releaseLater (Some (instrument note)) (pitch note)
                        (endTime note - startTime note)%Q]
      | None =>
          [triggerAttackRelease (Some (instrument note)) (pitch note)
                                ((endTime note - startTime note) / 1000)%Q
                                (inject_Z (volume note) / 127)%Q]
      end
  | Filler note =>
      [triggerAttackRelease (i_instrument note) (i_pitch note)
                            ((i_endTime note - i_startTime note) / 1000)%Q
                            (inject_Z (i_volume note) / 127)%Q]
  end.

Definition executeNotes (state : GameState) : list SamplerCall :=
  if (0 <? List.length (readyNotes state))%nat
  then flat_map executeNote (readyNotes state)
  else [].

(** The filter of [muteNotes]:
    [!note.visible && note.tail !== undefined && note.tail.inactive]. *)
Definition muted (note : MusicalNote) : bool :=
  negb (visible note)
  && match tail note with
     | Some t => truthy (inactive t)
     | None => false
     end.

Definition muteNotes (state : GameState) : list SamplerCall :=
  map (fun note => triggerRelease (Some (instrument note)) (pitch note))
      (filter muted (activeNotes state)).

(** [ColorColumn], and the columns the eight key streams of [main] send. *)
Module ColorColumn.
End ColorColumn.


(** * Definitions for the statements

    What the properties below are stated with: the notes an action keeps,
    the readings of the specification that turn out to fail, and the sample
    notes and plays of the concrete statements. *)

(** ** What one transition does to the list of active notes *)

(** The elements [f] keeps, in order. *)
Fixpoint collect {A B : Type} (f : A -> option B) (l : list A) : list B :=
  match l with
  | [] => []
  | x :: rest =>
      match f x with
      | Some y => y :: collect f rest
      | None => collect f rest
      end
  end.

(** The two components of [calcPositionForGame]: where the note goes on, and
    what it sounds. *)
Definition keep (note : MusicalNote) : option MusicalNote :=
  fst (calcPositionForGame note).

Definition sound (note : MusicalNote) : option MusicalNote :=
  snd (calcPositionForGame note).

(** The notes an action brings in. *)
Definition arrivals (action : GameAction) : list MusicalNote :=
  match action with
  | AddNextNote group => map noteWithTail group
  | _ => []
  end.

(** What an action makes of one note that is on the board: the callbacks
    the action maps over [activeNotes]. *)
Definition successor (action : GameAction) (note : MusicalNote)
  : option MusicalNote :=
  match action with
  | ReleaseButton c => Some (releaseNote c note)
  | PressButton c => Some (pressNote c note)
  | GameTick | EndGame | AddNextNote _ => keep note
  end.

(** ** Sample notes and plays, for the concrete statements below *)

(** A parsed row: a short note of column 0, as [parseCSV] makes it
    ([yPos] is 0 and there is no [tail] property). *)
Definition shortNote : MusicalNote :=
  mkNote 1 true 0%Q 0 "piano"%string 100 60 0%Q 200%Q None.

(** A long note of column 0: 1400 ms, so a tail of 200 position units. *)
Definition longNote : MusicalNote :=
  mkNote 1 true 0%Q 0 "violin"%string 100 60 0%Q 1400%Q None.

(** The short note arrives and falls to the last row without being played. *)
Definition missedPlay : list GameAction :=
  AddNextNote [shortNote] :: repeat GameTick 349.

(** The long note arrives, is hit in the window, held for a tick and let go. *)
Definition heldPlay : list GameAction :=
  AddNextNote [longNote] :: repeat GameTick 320
  ++ [PressButton 0; GameTick; ReleaseButton 0].

(** ** C1: when the game is over *)

(** The claim at one state and one action. *)
Definition gameOver_iff_all_empty (state : GameState) (action : GameAction)
  : Prop :=
  let state' := execute action state in
  isGameOver state' = true
  <-> (allNotesFinished state' = true
       /\ activeNotes state' = []
       /\ readyNotes state' = []
       /\ expiredNotes state' = []).

(** ** C4: how far a note falls *)


(** ** C5 and C10: the life of a tail *)

(** The note a note on the board has become after a list of actions, if it
    is still on the board. *)
Fixpoint descendant (actions : list GameAction) (note : MusicalNote)
  : option MusicalNote :=
  match actions with
  | [] => Some note
  | action :: rest =>
      match successor action note with
      | Some next => descendant rest next
      | None => None
      end
  end.

(** The tail of the note is marked inactive. *)
Definition inactiveTail (note : MusicalNote) : bool :=
  match tail note with
  | Some t => truthy (inactive t)
  | None => false
  end.

(** A note whose tail is inactive has been resolved. *)
Definition settled (note : MusicalNote) : Prop :=
  inactiveTail note = true -> visible note = false.

(** The long note of [heldPlay] once it has been let go: resolved, its tail
    inactive. *)
Definition releasedNote : MusicalNote :=
  Eval vm_compute in hd longNote (activeNotes (run defaultState heldPlay)).

(** Some further actions, and what they make of the released note. *)
Definition afterRelease : list GameAction :=
  [GameTick; PressButton 0; ReleaseButton 0; AddNextNote [longNote]; GameTick].

Definition releasedNoteLater : MusicalNote :=
  Eval vm_compute in
    match descendant afterRelease releasedNote with
    | Some note => note
    | None => releasedNote
    end.

(** A visible note from 0.1 ms to 1000.1 ms: its times are the doubles
    nearest to these two numbers. *)
Definition nearlyLongNote : MusicalNote :=
  mkNote 1 true 0%Q 0 "piano"%string 100 60
         (JS.round64 (1 # 10)) (JS.round64 (10001 # 10)) None.


(** ** C2: a press that hits *)

(** A second short note of column 0 (pitch 64), arriving with the first. *)
Definition shortNote2 : MusicalNote :=
  mkNote 2 true 0%Q 0 "piano"%string 100 64 0%Q 200%Q None.

(** Two notes of column 0 arrive together and fall into the hit window. *)
Definition chordPlay : list GameAction :=
  AddNextNote [shortNote; shortNote2] :: repeat GameTick 320.

(** The short note arrives and falls into the hit window. *)
Definition windowPlay : list GameAction :=
  AddNextNote [shortNote] :: repeat GameTick 320.

(** A short note of column [c], numbered [i]. *)
Definition shortAt (c i : Z) : MusicalNote :=
  mkNote i true 0%Q c "piano"%string 100 62 0%Q 200%Q None.

(** Ten short notes of column 2 arrive one after the other, then five of
    column 0 together; each of the ten is hit as it enters the hit window,
    and then the five are in the window. *)
Definition tenHitsPlay : list GameAction :=
  map (fun i => AddNextNote [shortAt 2 i]) [1; 2; 3; 4; 5; 6; 7; 8; 9; 10]
  ++ [AddNextNote (map (shortAt 0) [11; 12; 13; 14; 15])]
  ++ repeat GameTick 299
  ++ List.concat (repeat [PressButton 2; GameTick] 10).

(** The claim at one state and one column. *)
Definition press_scores_one_multiplier (state : GameState) (c : Z) : Prop :=
  (exists note, In note (activeNotes state) /\ inHitWindow c note = true) ->
  let state' := execute (PressButton c) state in
  activeNotes state'
  = map (fun note => if inHitWindow c note then with_visible note false else note)
        (activeNotes state)
  /\ notesPlayed state' = notesPlayed state + 1
  /\ points state'
     = points state
       + JS.floor (1 + (1 # 5) * inject_Z (JS.floor (inject_Z (notesPlayed state) / 10))).

(** ** C6: letting go of a held tail *)

(** The long note of [heldPlay] while it is held: hit, its tail active. *)
Definition heldNote : MusicalNote :=
  Eval vm_compute in
    hd longNote
       (activeNotes
          (run defaultState
               (AddNextNote [longNote] :: repeat GameTick 320
                ++ [PressButton 0; GameTick]))).

(** A long note of column [c], numbered [i]. *)
Definition longAt (c i : Z) : MusicalNote :=
  mkNote i true 0%Q c "violin"%string 100 60 0%Q 1400%Q None.

(** Four short notes of column 2 and five long notes of column 1 arrive one
    after the other, then five long notes of column 0 together.  Each of
    the nine is hit as it enters the hit window, and each of the long ones
    is let go at once; then the five are hit together and held. *)
Definition heldChordPlay : list GameAction :=
  map (fun i => AddNextNote [shortAt 2 i]) [1; 2; 3; 4]
  ++ map (fun i => AddNextNote [longAt 1 i]) [5; 6; 7; 8; 9]
  ++ [AddNextNote (map (longAt 0) [10; 11; 12; 13; 14])]
  ++ repeat GameTick 300
  ++ List.concat (repeat [PressButton 2; GameTick] 4)
  ++ List.concat (repeat [PressButton 1; ReleaseButton 1; GameTick] 5)
  ++ [PressButton 0].

(** The claim at one state and one column, following its words: the score
    written back is the truncation of the score less
    [1 + 0.2 * floor(notesPlayed / 10)] for each held tail. *)
Definition release_truncates (state : GameState) (c : Z) : Prop :=
  points (execute (ReleaseButton c) state)
  = JS.trunc (inject_Z (points state)
              - inject_Z (Z.of_nat (List.length
                                      (filter (heldTail c) (activeNotes state))))
                * (1 + (1 # 5)
                       * inject_Z (JS.floor (inject_Z (notesPlayed state) / 10)))).

(** ** C7: a wrong press *)

(** Following the specification's words: the four properties of the filler
    come from successive draws, the seed being advanced after each. *)
Definition incorrectNote_successive (state : GameState) : IncorrectNote :=
  let seed0 := randomSeed state in
  let seed1 := RNG.hash seed0 in
  let seed2 := RNG.hash seed1 in
  let seed3 := RNG.hash seed2 in
  {| i_instrument := sampleAt (JS.toInt32 (RNG.scale seed0 * 6)%Q);
     i_volume := JS.toInt32 (RNG.scale seed1 * 90)%Q;
     i_pitch := JS.toInt32 (RNG.scale seed2 * 70)%Q;
     i_startTime := 0%Q;
     i_endTime := inject_Z (JS.toInt32 (RNG.scale seed3 * 500)%Q) |}.

(** ** C9: the generator *)


(** The arithmetic of the program in the binary64 numbers of the kernel,
    to check the model against at the inputs of the counterexamples.  An
    integer (below 2^63) as a double: *)
Definition double_of (z : Z) : PrimFloat.float :=
  PrimFloat.of_uint63 (Uint63.of_Z z).

(** The integer a double stands for, when it is one. *)
Definition integer_of (f : PrimFloat.float) : option Z :=
  match FloatOps.Prim2SF f with
  | SpecFloat.S754_zero _ => Some 0
  | SpecFloat.S754_finite s m e =>
      let sign := if s then -1 else 1 in
      if 0 <=? e then Some (sign * (Zpos m * 2 ^ e))
      else if Zpos m mod 2 ^ (- e) =? 0 then Some (sign * (Zpos m / 2 ^ (- e)))
      else None
  | _ => None
  end.

(** [multiplier * seed + increment] in doubles. *)
Definition double_sum (seed : Z) : option Z :=
  integer_of
    (PrimFloat.add (PrimFloat.mul (double_of RNG.multiplier) (double_of seed))
                   (double_of RNG.increment)).

(** [RNG.scale] in doubles, operation by operation. *)
Definition scale_double (h : Z) : PrimFloat.float :=
  PrimFloat.div
    (PrimFloat.add
       (PrimFloat.sub
          (PrimFloat.div (PrimFloat.mul (double_of 2) (double_of h))
                         (double_of (RNG.modulus - 1)))
          (double_of 1))
       (double_of 1))
    (double_of 2).

(** The integer part of a double, toward zero. *)
Definition double_trunc (f : PrimFloat.float) : option Z :=
  match FloatOps.Prim2SF f with
  | SpecFloat.S754_zero _ => Some 0
  | SpecFloat.S754_finite s m e =>
      let sign := if s then -1 else 1 in
      if 0 <=? e then Some (sign * (Zpos m * 2 ^ e))
      else Some (sign * (Zpos m / 2 ^ (- e)))
  | _ => None
  end.

(** The rational number a double stands for. *)
Definition rational_of (f : PrimFloat.float) : option Q :=
  match FloatOps.Prim2SF f with
  | SpecFloat.S754_zero _ => Some 0%Q
  | SpecFloat.S754_finite s m e =>
      Some (Qred ((if s then -1 else 1) * (inject_Z (Zpos m) * 2 ^ e)))
  | _ => None
  end.

(** [1 + 0.2 * q] in doubles; the literal [0.2] is the double nearest to
    one fifth, which is what the division returns. *)
Definition multiplier_double (q : Z) : PrimFloat.float :=
  PrimFloat.add (double_of 1)
                (PrimFloat.mul (PrimFloat.div (double_of 1) (double_of 5))
                               (double_of q)).

(** The two folds in doubles: [m] times the multiplier for [q] added to,
    or taken off, the score [p]. *)
Definition press_double (p q : Z) (m : nat) : PrimFloat.float :=
  Nat.iter m (fun sum => PrimFloat.add sum (multiplier_double q)) (double_of p).

Definition release_double (p q : Z) (m : nat) : PrimFloat.float :=
  Nat.iter m (fun sum => PrimFloat.sub sum (multiplier_double q)) (double_of p).

(** The same in the model. *)
Definition multiplier_model (q : Z) : Q :=
  JS.round64 (1 + JS.round64 (JS.round64 (1 # 5) * inject_Z q)).

Definition press_model (p q : Z) (m : nat) : Q :=
  Nat.iter m (fun sum => JS.round64 (sum + multiplier_model q)) (inject_Z p).

Definition release_model (p q : Z) (m : nat) : Q :=
  Nat.iter m (fun sum => JS.round64 (sum - multiplier_model q)) (inject_Z p).

(** [n / d] in doubles, for the times of [nearlyLongNote]. *)
Definition quotient_double (n d : Z) : PrimFloat.float :=
  PrimFloat.div (double_of n) (double_of d).

(** The quotient of two whole numbers (below 2^53), and its opposite: the
    double the kernel computes is the one the model gives. *)
Definition quotient_agrees (nd : Z * Z) : bool :=
  let '(n, d) := nd in
  match rational_of (quotient_double n d),
        rational_of (PrimFloat.opp (quotient_double n d)) with
  | Some q, Some q' =>
      Qeq_bool q (JS.round64 (inject_Z n / inject_Z d))
      && Qeq_bool q' (JS.round64 (- (inject_Z n / inject_Z d)))
  | _, _ => false
  end.

(** Quotients to try: small and large, below and above 1, exact ones, and
    ties. *)
Definition sampleQuotients : list (Z * Z) :=
  [(1, 3); (2, 3); (1, 5); (1, 10); (7, 5); (6, 5); (10, 3); (22, 7);
   (1400, 7); (2000, 7); (1001, 7); (10001, 10); (1000001, 1000);
   (1, 1024); (3, 4096); (123456789, 1000); (9007199254740991, 2);
   (9007199254740989, 4); (9007199254740991, 8); (4503599627370497, 2);
   (1, 9007199254740991); (9007199254740991, 3); (1, 1); (0, 7);
   (100, 127); (89, 127); (499, 1000); (2147483646, 2147483647)].

(** ** C8: the schedule *)

(** The note [shortNote] half a second later. *)
Definition lateNote : MusicalNote :=
  mkNote 3 true 0%Q 0 "piano"%string 100 60 500%Q 700%Q None.


(** *** The groups in general *)

(** The note starts at [k]. *)
Definition sameStart (k : Q) (note : MusicalNote) : bool :=
  Qeq_bool (startTime note) k.

(** No two of the keys are equal. *)
Fixpoint distinct (keys : list Q) : Prop :=
  match keys with
  | [] => True
  | k :: rest => (forall k', In k' rest -> ~ (k' == k)%Q) /\ distinct rest
  end.

(** The record [scheduleNotes] builds: the keys are distinct, each value is
    the list of all notes that start at its key, none is empty, and every
    note has its key there. *)
Definition grouped (notes : list MusicalNote) (groups : Groups) : Prop :=
  distinct (map fst groups)
  /\ (forall k v, In (k, v) groups -> v = filter (sameStart k) notes /\ v <> [])
  /\ (forall note, In note notes ->
                   exists e, In e groups /\ (startTime note == fst e)%Q).

(** *** Sorted input: a group is a run *)

(** The notes come in the order of their start times. *)
Fixpoint chronological (notes : list MusicalNote) : Prop :=
  match notes with
  | [] => True
  | note :: rest =>
      (forall later, In later rest -> (startTime note <= startTime later)%Q)
      /\ chronological rest
  end.

(** ** Further properties of the program *)

(** The note is resolved and one step above the last row. *)
Definition landing (note : MusicalNote) : bool :=
  negb (visible note)
  && Qeq_bool (yPos note + GameSettings.INCREMENT) GameSettings.LAST_ROW.

(** The actions that advance the board by one step. *)
Definition advancesBoard (action : GameAction) : bool :=
  match action with
  | GameTick | EndGame | AddNextNote _ => true
  | PressButton _ | ReleaseButton _ => false
  end.

Definition isGameTick (action : GameAction) : bool :=
  match action with GameTick => true | _ => false end.

Definition isEndGame (action : GameAction) : bool :=
  match action with EndGame => true | _ => false end.

Definition isPress (action : GameAction) : bool :=
  match action with PressButton _ => true | _ => false end.

(** The actions that re-hash the seed. *)
Definition advancesSeed (action : GameAction) : bool :=
  match action with
  | PressButton _ | AddNextNote _ => true
  | _ => false
  end.

(** How many of the actions satisfy [p]. *)
Definition count (p : GameAction -> bool) (actions : list GameAction) : nat :=
  List.length (filter p actions).

(** The keys grow strictly. *)
Fixpoint ascending (keys : list Q) : Prop :=
  match keys with
  | [] => True
  | k :: rest => (forall k', In k' rest -> (k < k')%Q) /\ ascending rest
  end.



(** A filler the samplers can play: a loaded instrument, and a volume, a
    pitch and a duration within the ranges the four draws are scaled to. *)
Definition playable (f : IncorrectNote) : Prop :=
  (exists name, i_instrument f = Some name /\ In name samples)
  /\ 0 <= i_volume f < 90
  /\ 0 <= i_pitch f < 70
  /\ i_startTime f = 0%Q
  /\ exists d, i_endTime f = inject_Z d /\ 0 <= d < 500.

Definition isAddNextNote (action : GameAction) : bool :=
  match action with AddNextNote _ => true | _ => false end.

(** The upper edge of a note: the start of its tail, or the note itself. *)
Definition upperEdge (note : MusicalNote) : Q :=
  match tail note with
  | Some t => start t
  | None => yPos note
  end.

(** A number of steps after which the note has left the board. *)
Definition stepsLeft (note : MusicalNote) : nat :=
  (Z.to_nat (Qceiling (GameSettings.LAST_ROW - upperEdge note)) + 2)%nat.

(** The same for a board. *)
Definition stepsToClear (notes : list MusicalNote) : nat :=
  fold_right (fun note k => Nat.max (stepsLeft note) k) 0%nat notes.

(** The long note one step above the last row, never played. *)
Definition unplayedNote : MusicalNote :=
  Eval vm_compute in
    hd longNote
       (activeNotes
          (run defaultState (AddNextNote [longNote] :: repeat GameTick 348))).

Definition isReleaseOf (c : Z) (action : GameAction) : bool :=
  match action with ReleaseButton c' => c' =? c | _ => false end.

(** * Properties *)

(** ** Tactics *)

(** Split a conjunction into its parts (and nothing else). *)
Ltac split_all := repeat match goal with |- _ /\ _ => split end.

(** Split a conjunction of closed equations and evaluate each. *)
Ltac by_computation := intros; split_all; vm_compute; reflexivity.

(** Unfold the record updates and projections, and nothing of the arithmetic. *)
Ltac note_simpl :=
  cbn [tail yPos visible column with_tail with_yPos with_visible with_inactive
       start end_ inactive adjustTail truthy fst snd] in *.

(** Take every conditional of the goal apart. *)
Ltac split_ifs :=
  repeat match goal with
    | |- context [if ?b then _ else _] =>
        match type of b with bool => destruct b eqn:? end
    end.

(** ** The double nearest to a rational number *)

Lemma pow2_pos (s : Z) : (0 < 2 ^ s)%Q.
Proof. apply Qpower_0_lt. reflexivity. Qed.

Lemma pow2_neq (s : Z) : ~ (2 ^ s == 0)%Q.
Proof. pose proof (pow2_pos s). lra. Qed.

Lemma pow2_Z (n : Z) : 0 <= n -> (2 ^ n == inject_Z (2 ^ n))%Q.
Proof. intros H. now rewrite Zpower_Qpower. Qed.

Lemma pow2_le (a b : Z) : a <= b -> (2 ^ a <= 2 ^ b)%Q.
Proof. intros H. apply Qpower_le_compat_l; [exact H | discriminate]. Qed.

Lemma pow2_plus (a b : Z) : (2 ^ (a + b) == 2 ^ a * 2 ^ b)%Q.
Proof. apply Qpower_plus. discriminate. Qed.


(** *** The nearest integer *)

Lemma rne_bounds (x : Q) : Qfloor x <= JS.rne x <= Qfloor x + 1.
Proof.
  unfold JS.rne. destruct (Qcompare _ _); [destruct (Z.even _)| |]; lia.
Qed.

Lemma rne_Z (z : Z) : JS.rne (inject_Z z) = z.
Proof.
  unfold JS.rne. rewrite Qfloor_Z.
  assert (E : (inject_Z z - inject_Z z ?= 1 # 2)%Q = Lt).
  { apply Qlt_alt. setoid_replace (inject_Z z - inject_Z z)%Q with 0%Q by ring.
    reflexivity. }
  now rewrite E.
Qed.

Lemma rne_comp (x y : Q) : (x == y)%Q -> JS.rne x = JS.rne y.
Proof.
  intros H. unfold JS.rne. rewrite (Qfloor_comp x y H).
  assert (E : (x - inject_Z (Qfloor y) == y - inject_Z (Qfloor y))%Q)
    by (rewrite H; reflexivity).
  now rewrite (Qcompare_comp _ _ E _ _ (Qeq_refl (1 # 2))).
Qed.

Lemma rne_mono (x y : Q) : (x <= y)%Q -> JS.rne x <= JS.rne y.
Proof.
  intros H. pose proof (Qfloor_resp_le x y H) as Hf.
  destruct (Z.eq_dec (Qfloor x) (Qfloor y)) as [E|E].
  - unfold JS.rne. rewrite E.
    destruct (Qcompare_spec (x - inject_Z (Qfloor y)) (1 # 2)) as [Hx|Hx|Hx];
      destruct (Qcompare_spec (y - inject_Z (Qfloor y)) (1 # 2)) as [Hy|Hy|Hy];
      try destruct (Z.even (Qfloor y)); try lia; exfalso; lra.
  - pose proof (rne_bounds x). pose proof (rne_bounds y). lia.
Qed.

(** *** The binary exponent *)

Lemma ilog2_spec (x : Q) :
  (0 < x)%Q -> (2 ^ JS.ilog2 x <= x < 2 ^ (JS.ilog2 x + 1))%Q.
Proof.
  intros Hx. unfold JS.ilog2. destruct (Qle_bool 1 x) eqn:E.
  - apply Qle_bool_iff in E.
    assert (Hk : 0 < Qfloor x).
    { pose proof (Qfloor_resp_le 1 x E) as H. change (Qfloor 1%Q) with 1%Z in H. lia. }
    pose proof (Z.log2_spec _ Hk) as [H1 H2].
    pose proof (Z.log2_nonneg (Qfloor x)) as H0.
    rewrite !pow2_Z by lia. split.
    + apply Qle_trans with (inject_Z (Qfloor x)); [|apply Qfloor_le].
      now rewrite <- Zle_Qle.
    + apply Qlt_le_trans with (inject_Z (Qfloor x + 1)); [apply Qlt_floor|].
      rewrite <- Zle_Qle. unfold Z.succ in H2. lia.
  - assert (Hlt : (x < 1)%Q).
    { destruct (Qlt_le_dec x 1) as [H|H]; [exact H|].
      apply Qle_bool_iff in H. congruence. }
    assert (Hinv : (1 < / x)%Q).
    { apply Qlt_shift_inv_l; [exact Hx | lra]. }
    set (c := Qceiling (/ x)).
    assert (Hc : 1 < c).
    { pose proof (Qle_ceiling (/ x)) as H. fold c in H.
      assert (H' : (inject_Z 1 < inject_Z c)%Q)
        by (change (inject_Z 1) with 1%Q; lra).
      now rewrite <- Zlt_Qlt in H'. }
    pose proof (Z.log2_up_spec c Hc) as [H1 H2].
    set (u := Z.log2_up c) in *.
    assert (Hu : 0 < u) by (apply Z.log2_up_pos; exact Hc).
    assert (Hxinv : (x == / / x)%Q) by (now rewrite Qinv_involutive).
    assert (Hpos : (0 < / x)%Q) by lra.
    assert (Hle : (/ x <= 2 ^ u)%Q).
    { rewrite pow2_Z by lia.
      apply Qle_trans with (inject_Z c); [apply Qle_ceiling|].
      now rewrite <- Zle_Qle. }
    assert (Hgt : (2 ^ (u - 1) < / x)%Q).
    { rewrite pow2_Z by lia.
      apply Qle_lt_trans with (inject_Z (c - 1)); [|apply Qceiling_lt].
      rewrite <- Zle_Qle. replace (u - 1) with (Z.pred u) by lia. lia. }
    assert (Hxy : (x * / x == 1)%Q).
    { apply Qmult_inv_r. intros E0. rewrite E0 in Hx.
      exact (Qlt_irrefl 0 Hx). }
    split.
    + rewrite Qpower_opp.
      apply Qle_shift_inv_r; [apply pow2_pos|].
      rewrite <- Hxy. now apply Qmult_le_l.
    + replace (- u + 1) with (- (u - 1)) by lia.
      rewrite Qpower_opp.
      apply Qlt_shift_inv_l; [apply pow2_pos|].
      rewrite <- Hxy. now apply Qmult_lt_l.
Qed.

Lemma ilog2_unique (x : Q) (e : Z) :
  (2 ^ e <= x < 2 ^ (e + 1))%Q -> JS.ilog2 x = e.
Proof.
  intros [H1 H2].
  assert (Hx : (0 < x)%Q) by (pose proof (pow2_pos e); lra).
  destruct (ilog2_spec x Hx) as [K1 K2].
  assert (A : (2 ^ e < 2 ^ (JS.ilog2 x + 1))%Q) by lra.
  assert (B : (2 ^ JS.ilog2 x < 2 ^ (e + 1))%Q) by lra.
  apply Qpower_lt_compat_l_inv in A; [|reflexivity].
  apply Qpower_lt_compat_l_inv in B; [|reflexivity].
  lia.
Qed.

Lemma ilog2_comp (x y : Q) : (x == y)%Q -> JS.ilog2 x = JS.ilog2 y.
Proof.
  intros H. unfold JS.ilog2.
  assert (E : Qle_bool 1 x = Qle_bool 1 y).
  { destruct (Qle_bool 1 x) eqn:Ex, (Qle_bool 1 y) eqn:Ey; trivial.
    - apply Qle_bool_iff in Ex. rewrite H in Ex. apply Qle_bool_iff in Ex.
      congruence.
    - apply Qle_bool_iff in Ey. rewrite <- H in Ey. apply Qle_bool_iff in Ey.
      congruence. }
  rewrite E, (Qfloor_comp x y H).
  assert (Hi : (/ x == / y)%Q) by now rewrite H.
  now rewrite (Qceiling_comp _ _ Hi).
Qed.

Lemma ilog2_mono (x y : Q) : (0 < x)%Q -> (x <= y)%Q -> JS.ilog2 x <= JS.ilog2 y.
Proof.
  intros Hx Hxy.
  destruct (ilog2_spec x Hx) as [K1 _].
  destruct (ilog2_spec y ltac:(lra)) as [_ K2].
  assert (A : (2 ^ JS.ilog2 x < 2 ^ (JS.ilog2 y + 1))%Q) by lra.
  apply Qpower_lt_compat_l_inv in A; [|reflexivity]. lia.
Qed.

(** *** Rounding a positive number *)

Lemma round64_pos_comp (x y : Q) :
  (x == y)%Q -> (JS.round64_pos x == JS.round64_pos y)%Q.
Proof.
  intros H. unfold JS.round64_pos. rewrite (ilog2_comp x y H).
  assert (E : (x / 2 ^ (JS.ilog2 y - 52) == y / 2 ^ (JS.ilog2 y - 52))%Q)
    by now rewrite H.
  now rewrite (rne_comp _ _ E).
Qed.

Lemma round64_comp (x y : Q) : (x == y)%Q -> (JS.round64 x == JS.round64 y)%Q.
Proof.
  intros H. unfold JS.round64.
  rewrite (Qcompare_comp x y H 0 0 (Qeq_refl 0))%Q.
  destruct (y ?= 0)%Q; [reflexivity | |now apply round64_pos_comp].
  apply Qopp_comp, round64_pos_comp. now rewrite H.
Qed.

(** The scaled number lies between 2^52 and 2^53. *)
Lemma scaled_bounds (x : Q) :
  (0 < x)%Q ->
  (inject_Z (2 ^ 52) <= x / 2 ^ (JS.ilog2 x - 52) < inject_Z (2 ^ 53))%Q.
Proof.
  intros Hx. destruct (ilog2_spec x Hx) as [K1 K2].
  set (e := JS.ilog2 x) in *.
  pose proof (pow2_pos (e - 52)) as Hs.
  rewrite <- !pow2_Z by lia.
  assert (E1 : (2 ^ e == 2 ^ 52 * 2 ^ (e - 52))%Q).
  { rewrite <- pow2_plus. now replace (52 + (e - 52)) with e by lia. }
  assert (E2 : (2 ^ (e + 1) == 2 ^ 53 * 2 ^ (e - 52))%Q).
  { rewrite <- pow2_plus. now replace (53 + (e - 52)) with (e + 1) by lia. }
  split.
  - apply Qle_shift_div_l; [exact Hs|]. now rewrite <- E1.
  - apply Qlt_shift_div_r; [exact Hs|]. now rewrite <- E2.
Qed.

Lemma round64_pos_bounds (x : Q) :
  (0 < x)%Q ->
  (2 ^ JS.ilog2 x <= JS.round64_pos x <= 2 ^ (JS.ilog2 x + 1))%Q.
Proof.
  intros Hx. destruct (scaled_bounds x Hx) as [K1 K2].
  unfold JS.round64_pos.
  set (e := JS.ilog2 x) in *. set (m := (x / 2 ^ (e - 52))%Q) in *.
  pose proof (pow2_pos (e - 52)) as Hs.
  assert (H1 : 2 ^ 52 <= JS.rne m).
  { rewrite <- (rne_Z (2 ^ 52)). now apply rne_mono. }
  assert (H2 : JS.rne m <= 2 ^ 53).
  { rewrite <- (rne_Z (2 ^ 53)). apply rne_mono. lra. }
  assert (E1 : (2 ^ e == inject_Z (2 ^ 52) * 2 ^ (e - 52))%Q).
  { rewrite <- pow2_Z by lia. rewrite <- pow2_plus.
    now replace (52 + (e - 52)) with e by lia. }
  assert (E2 : (2 ^ (e + 1) == inject_Z (2 ^ 53) * 2 ^ (e - 52))%Q).
  { rewrite <- pow2_Z by lia. rewrite <- pow2_plus.
    now replace (53 + (e - 52)) with (e + 1) by lia. }
  rewrite E1, E2. split; apply Qmult_le_r; try exact Hs; now rewrite <- Zle_Qle.
Qed.

Lemma round64_pos_mono (x y : Q) :
  (0 < x)%Q -> (x <= y)%Q -> (JS.round64_pos x <= JS.round64_pos y)%Q.
Proof.
  intros Hx Hxy.
  assert (Hy : (0 < y)%Q) by lra.
  pose proof (ilog2_mono x y Hx Hxy) as He.
  destruct (Z.eq_dec (JS.ilog2 x) (JS.ilog2 y)) as [E|E].
  - unfold JS.round64_pos. rewrite E.
    pose proof (pow2_pos (JS.ilog2 y - 52)) as Hs.
    apply Qmult_le_r; [exact Hs|]. rewrite <- Zle_Qle. apply rne_mono.
    unfold Qdiv. apply Qmult_le_r; [|exact Hxy].
    apply Qinv_lt_0_compat, Hs.
  - destruct (round64_pos_bounds x Hx) as [_ K1].
    destruct (round64_pos_bounds y Hy) as [K2 _].
    assert (Hp : (2 ^ (JS.ilog2 x + 1) <= 2 ^ JS.ilog2 y)%Q)
      by (apply pow2_le; lia).
    lra.
Qed.

(** A number with at most 53 significant bits is a double. *)
Lemma round64_pos_exact (z j : Z) :
  0 < z < 2 ^ 53 ->
  (JS.round64_pos (inject_Z z * 2 ^ j) == inject_Z z * 2 ^ j)%Q.
Proof.
  intros Hz.
  pose proof (pow2_pos j) as Hj.
  assert (Hx : (0 < inject_Z z * 2 ^ j)%Q).
  { apply Qmult_lt_0_compat; [|exact Hj].
    change 0%Q with (inject_Z 0). rewrite <- Zlt_Qlt. lia. }
  destruct (ilog2_spec _ Hx) as [K1 _].
  unfold JS.round64_pos.
  set (e := JS.ilog2 (inject_Z z * 2 ^ j)) in *.
  assert (He : e - 52 <= j).
  { assert (A : (2 ^ e < 2 ^ (53 + j))%Q).
    { apply Qle_lt_trans with (inject_Z z * 2 ^ j)%Q; [exact K1|].
      rewrite pow2_plus. apply Qmult_lt_r; [exact Hj|].
      rewrite pow2_Z by lia. rewrite <- Zlt_Qlt. lia. }
    apply Qpower_lt_compat_l_inv in A; [|reflexivity]. lia. }
  set (s := e - 52) in *.
  assert (Ej : (2 ^ j == inject_Z (2 ^ (j - s)) * 2 ^ s)%Q).
  { rewrite <- pow2_Z by lia. rewrite <- pow2_plus.
    now replace (j - s + s) with j by lia. }
  assert (Em : (inject_Z z * 2 ^ j / 2 ^ s == inject_Z (z * 2 ^ (j - s)))%Q).
  { rewrite Ej, inject_Z_mult. field. apply pow2_neq. }
  rewrite (rne_comp _ _ Em), rne_Z, inject_Z_mult, Ej. ring.
Qed.

(** *** Rounding *)

Lemma round64_pos_positive (x : Q) : (0 < x)%Q -> (0 < JS.round64_pos x)%Q.
Proof.
  intros Hx. destruct (round64_pos_bounds x Hx) as [H _].
  pose proof (pow2_pos (JS.ilog2 x)). lra.
Qed.

Lemma round64_of_pos (x : Q) : (0 < x)%Q -> JS.round64 x = JS.round64_pos x.
Proof.
  intros H. unfold JS.round64.
  destruct (Qcompare_spec x 0); [exfalso; lra | exfalso; lra | reflexivity].
Qed.

Lemma round64_of_neg (x : Q) :
  (x < 0)%Q -> JS.round64 x = (- JS.round64_pos (- x))%Q.
Proof.
  intros H. unfold JS.round64.
  destruct (Qcompare_spec x 0); [exfalso; lra | reflexivity | exfalso; lra].
Qed.

Lemma round64_of_zero (x : Q) : (x == 0)%Q -> JS.round64 x = 0%Q.
Proof.
  intros H. unfold JS.round64.
  destruct (Qcompare_spec x 0); [reflexivity | exfalso; lra | exfalso; lra].
Qed.

Lemma round64_opp (x : Q) : (JS.round64 (- x) == - JS.round64 x)%Q.
Proof.
  destruct (Qcompare_spec x 0) as [H|H|H].
  - rewrite (round64_of_zero x H), (round64_of_zero (- x)) by (rewrite H; reflexivity).
    reflexivity.
  - rewrite (round64_of_neg x H), (round64_of_pos (- x)) by lra. ring.
  - rewrite (round64_of_pos x H), (round64_of_neg (- x)) by lra.
    apply Qopp_comp, round64_pos_comp. ring.
Qed.

(** Rounding keeps the order. *)
Lemma round64_mono (x y : Q) :
  (x <= y)%Q -> (JS.round64 x <= JS.round64 y)%Q.
Proof.
  intros Hxy.
  destruct (Qcompare_spec x 0) as [Hx|Hx|Hx];
    destruct (Qcompare_spec y 0) as [Hy|Hy|Hy]; try (exfalso; lra).
  - rewrite (round64_of_zero x Hx), (round64_of_zero y Hy). lra.
  - rewrite (round64_of_zero x Hx), (round64_of_pos y Hy).
    pose proof (round64_pos_positive y Hy). lra.
  - rewrite (round64_of_neg x Hx), (round64_of_zero y Hy).
    pose proof (round64_pos_positive (- x) ltac:(lra)). lra.
  - rewrite (round64_of_neg x Hx), (round64_of_neg y Hy).
    pose proof (round64_pos_mono (- y) (- x) ltac:(lra) ltac:(lra)). lra.
  - rewrite (round64_of_neg x Hx), (round64_of_pos y Hy).
    pose proof (round64_pos_positive (- x) ltac:(lra)).
    pose proof (round64_pos_positive y Hy). lra.
  - rewrite (round64_of_pos x Hx), (round64_of_pos y Hy).
    now apply round64_pos_mono.
Qed.

(** A number with at most 53 significant bits is a double. *)
Lemma round64_exact (z j : Z) :
  - 2 ^ 53 < z < 2 ^ 53 ->
  (JS.round64 (inject_Z z * 2 ^ j) == inject_Z z * 2 ^ j)%Q.
Proof.
  intros Hz. pose proof (pow2_pos j) as Hj.
  destruct (Z.lt_total z 0) as [Hneg|[Hzero|Hpos]].
  - assert (E : (inject_Z z * 2 ^ j == - (inject_Z (- z) * 2 ^ j))%Q)
      by (rewrite inject_Z_opp; ring).
    rewrite (round64_comp _ _ E), round64_opp.
    assert (Hx : (0 < inject_Z (- z) * 2 ^ j)%Q).
    { apply Qmult_lt_0_compat; [|exact Hj].
      change 0%Q with (inject_Z 0). rewrite <- Zlt_Qlt. lia. }
    rewrite (round64_of_pos _ Hx), round64_pos_exact by lia.
    rewrite inject_Z_opp. ring.
  - subst z. rewrite round64_of_zero; ring.
  - assert (Hx : (0 < inject_Z z * 2 ^ j)%Q).
    { apply Qmult_lt_0_compat; [|exact Hj].
      change 0%Q with (inject_Z 0). rewrite <- Zlt_Qlt. lia. }
    rewrite (round64_of_pos _ Hx). apply round64_pos_exact. lia.
Qed.

(** Integers of magnitude below 2^53 are doubles. *)
Lemma round64_Z (z : Z) :
  - 2 ^ 53 < z < 2 ^ 53 -> (JS.round64 (inject_Z z) == inject_Z z)%Q.
Proof.
  intros Hz.
  assert (E : (inject_Z z == inject_Z z * 2 ^ 0)%Q)
    by (change (2 ^ 0)%Q with 1%Q; ring).
  rewrite (round64_comp _ _ E), round64_exact by exact Hz. symmetry. exact E.
Qed.

(** Rounding does not leave the unit interval above an integer, fifteen
    sixteenths of it to be exact. *)
Lemma round64_floor (x : Q) (k : Z) :
  - 2 ^ 48 < k < 2 ^ 48 ->
  (inject_Z k <= x <= inject_Z k + (15 # 16))%Q ->
  (inject_Z k <= JS.round64 x <= inject_Z k + (15 # 16))%Q.
Proof.
  intros Hk [H1 H2]. split.
  - rewrite <- (round64_Z k) by lia. now apply round64_mono.
  - assert (E : (inject_Z k + (15 # 16) == inject_Z (16 * k + 15) * 2 ^ (-4))%Q).
    { rewrite inject_Z_plus, inject_Z_mult.
      change (2 ^ (-4))%Q with (1 # 16)%Q.
      change (inject_Z 16) with 16%Q. change (inject_Z 15) with 15%Q. field. }
    rewrite E in *. rewrite <- (round64_exact (16 * k + 15) (-4)) by lia.
    now apply round64_mono.
Qed.


#[global] Instance round64_Proper : Proper (Qeq ==> Qeq) JS.round64.
Proof. intros x y H. now apply round64_comp. Qed.

(** The model against the division of the kernel's binary64 numbers. *)
Lemma round64_agrees_with_binary64 :
  forallb quotient_agrees sampleQuotients = true.
Proof. vm_compute. reflexivity. Qed.

(** ** What one transition does to the list of active notes *)

Lemma collect_app {A B : Type} (f : A -> option B) (l1 l2 : list A) :
  collect f (l1 ++ l2) = collect f l1 ++ collect f l2.
Proof.
  induction l1 as [|x l1 IH]; simpl; [reflexivity|].
  destruct (f x); simpl; now rewrite IH.
Qed.

Lemma in_collect {A B : Type} (f : A -> option B) (l : list A) (y : B) :
  In y (collect f l) <-> exists x, In x l /\ f x = Some y.
Proof.
  induction l as [|a l IH]; simpl.
  - split; [tauto | intros (x & [] & _)].
  - destruct (f a) as [b|] eqn:E; simpl; rewrite IH; split.
    + intros [Hb | (x & Hx & Hf)]; [exists a; subst; auto | eauto].
    + intros (x & [Hx | Hx] & Hf); [left; subst; congruence | eauto].
    + intros (x & Hx & Hf); eauto.
    + intros (x & [Hx | Hx] & Hf); [subst; congruence | eauto].
Qed.

Lemma accumulate_fold (l : list MusicalNote) (acc : AccumulatedNotes) :
  fold_left accumulate l acc
  = mkAcc (newActiveNotes acc ++ collect keep l) (newReadyNotes acc ++ collect sound l).
Proof.
  revert acc.
  induction l as [|note l IH]; intros [act rdy]; simpl.
  - now rewrite !app_nil_r.
  - rewrite IH. unfold accumulate, keep, sound.
    destruct (calcPositionForGame note) as [[u|] [r|]]; simpl;
      rewrite <- ?app_assoc; reflexivity.
Qed.

Lemma advanceTick_activeNotes (state : GameState) :
  activeNotes (advanceTick state) = collect keep (activeNotes state).
Proof. unfold advanceTick; simpl. now rewrite accumulate_fold. Qed.

Lemma advanceTick_readyNotes (state : GameState) :
  readyNotes (advanceTick state) = map Sound (collect sound (activeNotes state)).
Proof. unfold advanceTick; simpl. now rewrite accumulate_fold. Qed.

Lemma isEmpty_nil {A : Type} (l : list A) : isEmpty l = true <-> l = [].
Proof. unfold isEmpty. destruct l; simpl; split; intros H; congruence. Qed.

Lemma collect_Some {A B : Type} (f : A -> B) (l : list A) :
  collect (fun x => Some (f x)) l = map f l.
Proof. induction l; simpl; congruence. Qed.

Lemma execute_activeNotes (action : GameAction) (state : GameState) :
  activeNotes (execute action state)
  = collect (successor action) (activeNotes state ++ arrivals action).
Proof.
  destruct action as [c|c| | |group]; cbn [execute arrivals];
    rewrite ?app_nil_r.
  - symmetry. apply (collect_Some (releaseNote c)).
  - symmetry. apply (collect_Some (pressNote c)).
  - apply (advanceTick_activeNotes state).
  - apply (advanceTick_activeNotes (with_allNotesFinished state true)).
  - unfold AddNextNote_execute. now rewrite advanceTick_activeNotes.
Qed.

Lemma execute_expiredNotes (action : GameAction) (state : GameState) :
  expiredNotes (execute action state) = activeNotes state ++ arrivals action.
Proof. destruct action; simpl; rewrite ?app_nil_r; reflexivity. Qed.

Lemma reachable_run (state : GameState) (actions : list GameAction) :
  reachable state -> reachable (run state actions).
Proof.
  revert state.
  induction actions as [|a actions IH]; intros state H; simpl; [exact H|].
  apply IH. now constructor.
Qed.

(** In a reachable state the board is empty whenever [expiredNotes] is: the
    active notes of a state all come from its expired ones. *)
Lemma expired_nil_active_nil (state : GameState) :
  reachable state -> expiredNotes state = [] -> activeNotes state = [].
Proof.
  intros [|s a _]; [reflexivity|].
  rewrite execute_expiredNotes, execute_activeNotes.
  now intros ->.
Qed.

(** ** The end-to-end test *)

(** The end-to-end test of the specification: one short note of column 0
    arrives, falls into the hit window and is hit; one note is played, one
    point scored, the note resolved; 29 ticks later it is on the last row
    and sounds, and the board is empty. *)
Lemma end_to_end :
  let hit := run defaultState
                 (AddNextNote [shortNote] :: repeat GameTick 320
                  ++ [PressButton 0]) in
  let landed := run hit (repeat GameTick 29) in
  notesPlayed hit = 1
  /\ points hit = 1
  /\ map visible (activeNotes hit) = [false]
  /\ activeNotes landed = []
  /\ map (fun r => match r with Sound note => Some (id note) | Filler _ => None end)
         (readyNotes landed) = [Some 1].
Proof. by_computation. Qed.

(** ** C1: when the game is over *)

(** C1, counterexample: once the only note of a song has dropped off the
    board, [EndGame] leaves a state with [allNotesFinished] set and the
    three collections empty, and [isGameOver] still false: the flag is
    computed from the [expiredNotes] of the state before, which hold the
    dropped note. *)
Lemma gameOver_lags_behind :
  reachable (run defaultState missedPlay)
  /\ ~ gameOver_iff_all_empty (run defaultState missedPlay) EndGame.
Proof.
  split.
  - apply reachable_run. constructor.
  - unfold gameOver_iff_all_empty. intros [_ H].
    assert (E : isGameOver (execute EndGame (run defaultState missedPlay)) = false)
      by (vm_compute; reflexivity).
    rewrite H in E; [discriminate|].
    vm_compute. repeat split; reflexivity.
Qed.

Lemma map_Sound_nil (l : list MusicalNote) : map Sound l = [] <-> l = [].
Proof. destruct l; simpl; split; congruence. Qed.

Lemma advanceTick_isGameOver (state : GameState) :
  isGameOver (advanceTick state) = true
  <-> (allNotesFinished state = true
       /\ activeNotes (advanceTick state) = []
       /\ readyNotes (advanceTick state) = []
       /\ expiredNotes state = []).
Proof.
  rewrite advanceTick_activeNotes, advanceTick_readyNotes, map_Sound_nil.
  unfold advanceTick; simpl. rewrite accumulate_fold; simpl.
  rewrite !andb_true_iff, !isEmpty_nil. tauto.
Qed.

(** C1, as the code has it: the three actions that advance the board set
    [isGameOver] exactly when [allNotesFinished] holds, no note stays active,
    none is ready, and the [expiredNotes] of the state BEFORE the transition
    are empty; a press and a release copy the flag.  In a reachable state,
    after [GameTick] or [EndGame], a set flag does imply that the three
    collections of the new state are empty.  The flag comes late but it
    comes: two ticks after the song has finished and the board is empty it
    is set. *)
Theorem isGameOver_after_transition (state : GameState) (action : GameAction) :
  let state' := execute action state in
  match action with
  | GameTick | EndGame | AddNextNote _ =>
      isGameOver state' = true
      <-> (allNotesFinished state' = true
           /\ activeNotes state' = []
           /\ readyNotes state' = []
           /\ expiredNotes state = [])
  | PressButton _ | ReleaseButton _ => isGameOver state' = isGameOver state
  end
  /\ (reachable state ->
      action = GameTick \/ action = EndGame ->
      isGameOver state' = true ->
      allNotesFinished state' = true
      /\ activeNotes state' = []
      /\ readyNotes state' = []
      /\ expiredNotes state' = [])
  /\ (allNotesFinished state = true ->
      activeNotes state = [] ->
      isGameOver (execute GameTick (execute GameTick state)) = true).
Proof.
  intros state'. split; [|split].
  - subst state'. destruct action as [c|c| | |group]; try reflexivity.
    + apply (advanceTick_isGameOver state).
    + apply (advanceTick_isGameOver (with_allNotesFinished state true)).
    + apply (advanceTick_isGameOver
               (with_seed_and_active state (RNG.hash (randomSeed state))
                  (activeNotes state ++ map noteWithTail group))).
  - intros Hreach Hact Hover.
    assert (Hpre : allNotesFinished state' = true /\ activeNotes state' = []
                   /\ readyNotes state' = [] /\ expiredNotes state = []).
    { subst state'. destruct Hact as [-> | ->].
      - now apply (advanceTick_isGameOver state).
      - now apply (advanceTick_isGameOver (with_allNotesFinished state true)). }
    destruct Hpre as (Hf & Ha & Hr & He). repeat split; trivial.
    subst state'. rewrite execute_expiredNotes.
    rewrite (expired_nil_active_nil state Hreach He).
    destruct Hact as [-> | ->]; reflexivity.
  - intros Hfin Hnone.
    apply (advanceTick_isGameOver (execute GameTick state)).
    rewrite advanceTick_activeNotes, advanceTick_readyNotes.
    rewrite execute_activeNotes, execute_expiredNotes, Hnone.
    now split.
Qed.

Lemma isGameOver_after_transition_witness :
  let state := run defaultState (missedPlay ++ [EndGame]) in
  allNotesFinished (execute GameTick state) = true
  /\ activeNotes (execute GameTick state) = []
  /\ readyNotes (execute GameTick state) = []
  /\ expiredNotes (execute GameTick state) = [].
Proof.
  intros state.
  apply (proj1 (proj2 (isGameOver_after_transition state GameTick))).
  - apply reachable_run. constructor.
  - left. reflexivity.
  - vm_compute. reflexivity.
Defined.

(** ** C3: the expired notes *)

(** C3, counterexample: in the first state of a song the board is empty,
    and after [AddNextNote] the expired notes hold the note that has just
    arrived. *)
Lemma expiredNotes_hold_arrivals :
  expiredNotes (execute (AddNextNote [shortNote]) defaultState)
  <> activeNotes defaultState.
Proof. vm_compute. discriminate. Qed.

(** C3, as the code has it: after [GameTick], [PressButton],
    [ReleaseButton] and [EndGame] the expired notes are the active notes of
    the state before; after [AddNextNote] they are those followed by the
    arriving notes, with their tails decided and not yet moved. *)
Theorem expiredNotes_after_transition (state : GameState) (action : GameAction) :
  expiredNotes (execute action state)
  = match action with
    | AddNextNote group => activeNotes state ++ map noteWithTail group
    | _ => activeNotes state
    end.
Proof.
  rewrite execute_expiredNotes.
  destruct action; simpl; auto using app_nil_r.
Qed.

(** ** C4: how far a note falls *)

Lemma ltb_true_iff (x y : Q) : JS.ltb x y = true <-> (x < y)%Q.
Proof.
  unfold JS.ltb. rewrite Qlt_alt.
  destruct (x ?= y)%Q; split; congruence.
Qed.





(** ** C5 and C10: the life of a tail *)

Lemma successor_in_execute (action : GameAction) (state : GameState)
      (note next : MusicalNote) :
  In note (activeNotes state) ->
  successor action note = Some next ->
  In next (activeNotes (execute action state)).
Proof.
  intros Hin Hs. rewrite execute_activeNotes, collect_app.
  apply in_or_app. left. apply in_collect. eauto.
Qed.

Lemma descendant_in_run (actions : list GameAction) :
  forall (state : GameState) (note note' : MusicalNote),
    In note (activeNotes state) ->
    descendant actions note = Some note' ->
    In note' (activeNotes (run state actions)).
Proof.
  induction actions as [|action rest IH]; simpl; intros state note note' Hin.
  - now intros [= <-].
  - destruct (successor action note) as [next|] eqn:Hs; [|discriminate].
    apply IH. eapply successor_in_execute; eassumption.
Qed.

Lemma noteWithTail_inactiveTail (note : MusicalNote) :
  inactiveTail (noteWithTail note) = false.
Proof. unfold noteWithTail, inactiveTail. now split_ifs. Qed.

Lemma keep_step (note next : MusicalNote) :
  keep note = Some next ->
  settled note ->
  settled next
  /\ (inactiveTail note = true -> inactiveTail next = true)
  /\ hasTail next = hasTail note.
Proof.
  unfold keep, calcPositionForGame, updateNoteYPos, settled, inactiveTail, hasTail.
  destruct (tail note) as [t|] eqn:Et.
  - destruct (visible note) eqn:Ev; split_ifs; note_simpl;
      intros [= <-]; note_simpl; rewrite ?Ev; intros Hs;
      repeat split; auto; intros H; try (specialize (Hs H)); congruence.
  - split_ifs; note_simpl; intros [= <-]; note_simpl; rewrite Et;
      intros Hs; repeat split; auto; discriminate.
Qed.

Lemma pressNote_step (c : Z) (note : MusicalNote) :
  settled note ->
  settled (pressNote c note)
  /\ (inactiveTail note = true -> inactiveTail (pressNote c note) = true)
  /\ hasTail (pressNote c note) = hasTail note.
Proof.
  unfold pressNote, settled, inactiveTail, hasTail.
  destruct (inHitWindow c note); note_simpl; auto.
Qed.

Lemma releaseNote_step (c : Z) (note : MusicalNote) :
  settled note ->
  settled (releaseNote c note)
  /\ (inactiveTail note = true -> inactiveTail (releaseNote c note) = true)
  /\ hasTail (releaseNote c note) = hasTail note.
Proof.
  unfold releaseNote, heldTail, settled, inactiveTail, hasTail.
  destruct (tail note) as [t|] eqn:Et; [|rewrite Et; auto].
  destruct (column note =? c), (visible note) eqn:Ev,
           (truthy (inactive t)) eqn:Ei;
    cbn [andb negb]; note_simpl; rewrite ?Et, ?Ev, ?Ei; intuition congruence.
Qed.

Lemma successor_step (action : GameAction) (note next : MusicalNote) :
  successor action note = Some next ->
  settled note ->
  settled next
  /\ (inactiveTail note = true -> inactiveTail next = true)
  /\ hasTail next = hasTail note.
Proof.
  destruct action as [c|c| | |group]; cbn [successor];
    try apply keep_step; intros [= <-].
  - apply releaseNote_step.
  - apply pressNote_step.
Qed.

Lemma descendant_step (actions : list GameAction) :
  forall note note' : MusicalNote,
    descendant actions note = Some note' ->
    settled note ->
    settled note'
    /\ (inactiveTail note = true -> inactiveTail note' = true)
    /\ hasTail note' = hasTail note.
Proof.
  induction actions as [|action rest IH]; simpl; intros note note'.
  - intros [= <-]. auto.
  - destruct (successor action note) as [next|] eqn:Hs; [|discriminate].
    intros Hd Hset.
    destruct (successor_step action note next Hs Hset) as (H1 & H2 & H3).
    destruct (IH next note' Hd H1) as (K1 & K2 & K3).
    repeat split; auto. congruence.
Qed.

(** Every note on the board of a reachable state is settled. *)
Lemma reachable_settled (state : GameState) :
  reachable state -> forall note, In note (activeNotes state) -> settled note.
Proof.
  induction 1 as [|state action _ IH]; [intros note []|].
  intros next. rewrite execute_activeNotes, in_collect.
  intros (note & Hin & Hs).
  apply (successor_step action note next Hs).
  apply in_app_or in Hin. destruct Hin as [Hin | Hin]; [now apply IH|].
  destruct action; simpl in Hin; try contradiction.
  apply in_map_iff in Hin. destruct Hin as (raw & <- & _).
  unfold settled. now rewrite noteWithTail_inactiveTail.
Qed.

Lemma inactiveTail_true (note : MusicalNote) :
  inactiveTail note = true
  <-> exists t, tail note = Some t /\ inactive t = Some true.
Proof.
  unfold inactiveTail. destruct (tail note) as [t|].
  - split.
    + intros H. exists t. split; [reflexivity|].
      destruct (inactive t) as [[|]|]; simpl in H; congruence.
    + intros (t' & [= <-] & H). now rewrite H.
  - split; [discriminate | intros (t & H & _); discriminate].
Qed.

Lemma hasTail_false (note : MusicalNote) :
  hasTail note = false <-> tail note = None.
Proof. unfold hasTail. destruct (tail note); split; congruence. Qed.

(** C5: in a reachable state, whatever actions follow, a note on the board
    whose tail is inactive keeps an inactive tail for as long as it stays on
    the board, and a note has a tail afterwards exactly if it has one now
    (the tail is decided when [AddNextNote] puts the note on the board). *)
Theorem inactive_tail_is_permanent (state : GameState) (note : MusicalNote)
        (actions : list GameAction) (note' : MusicalNote) :
  reachable state ->
  In note (activeNotes state) ->
  descendant actions note = Some note' ->
  In note' (activeNotes (run state actions))
  /\ (forall t, tail note = Some t -> inactive t = Some true ->
      exists t', tail note' = Some t' /\ inactive t' = Some true)
  /\ (tail note' = None <-> tail note = None).
Proof.
  intros Hreach Hin Hdesc.
  pose proof (reachable_settled state Hreach note Hin) as Hset.
  destruct (descendant_step actions note note' Hdesc Hset) as (_ & Hperm & Htail).
  split; [|split].
  - eapply descendant_in_run; eassumption.
  - intros t Ht Hi. apply inactiveTail_true, Hperm, inactiveTail_true. eauto.
  - rewrite <- !hasTail_false. now rewrite Htail.
Qed.

Lemma inactive_tail_is_permanent_witness :
  In releasedNoteLater
     (activeNotes (run (run defaultState heldPlay) afterRelease))
  /\ (forall t, tail releasedNote = Some t -> inactive t = Some true ->
      exists t', tail releasedNoteLater = Some t' /\ inactive t' = Some true)
  /\ (tail releasedNoteLater = None <-> tail releasedNote = None).
Proof.
  apply (inactive_tail_is_permanent (run defaultState heldPlay) releasedNote
           afterRelease releasedNoteLater).
  - apply reachable_run. constructor.
  - vm_compute. left. reflexivity.
  - vm_compute. reflexivity.
Defined.



(** The times of [nearlyLongNote], their difference and a tail length in
    the binary64 numbers of the kernel: the model gives the same doubles. *)
Lemma duration_agrees_with_binary64 :
  rational_of (quotient_double 1 10) = Some (Qred (startTime nearlyLongNote))
  /\ rational_of (quotient_double 10001 10)
     = Some (Qred (endTime nearlyLongNote))
  /\ rational_of (PrimFloat.sub (quotient_double 10001 10) (quotient_double 1 10))
     = Some (Qred (JS.round64 (endTime nearlyLongNote
                               - startTime nearlyLongNote)))
  /\ integer_of (PrimFloat.sub (quotient_double 10001 10) (quotient_double 1 10))
     = Some 1000
  /\ rational_of (quotient_double 2000 7) = Some (Qred (JS.round64 (2000 / 7))).
Proof. by_computation. Qed.



(** ** Arithmetic of the score *)

Lemma wrap32_int32 (z : Z) : JS.int32 z -> JS.wrap32 z = z.
Proof.
  unfold JS.int32, JS.wrap32. intros H.
  rewrite Z.mod_small; lia.
Qed.

Lemma wrap32_range (z : Z) : JS.int32 (JS.wrap32 z).
Proof.
  unfold JS.int32, JS.wrap32.
  pose proof (Z.mod_pos_bound (z + 2147483648) 4294967296 eq_refl). lia.
Qed.

(** In a reachable state the score is a signed 32-bit integer, having been
    written through [~~], and the count of played notes is not negative. *)
Lemma reachable_score (state : GameState) :
  reachable state -> JS.int32 (points state) /\ 0 <= notesPlayed state.
Proof.
  induction 1 as [|state action _ [IHp IHn]].
  - split; [unfold JS.int32; simpl; lia | simpl; lia].
  - destruct action as [c|c| | |group]; cbn [execute].
    + split; [apply wrap32_range | exact IHn].
    + split; [apply wrap32_range|].
      cbn [PressButton_execute notesPlayed].
      destruct (activated (activationStatus c state)); lia.
    + split; [exact IHp|].
      unfold GameTick_execute, advanceTick, with_tickCount. cbn [notesPlayed].
      now destruct (isEmpty _).
    + split; [exact IHp|].
      unfold EndGame_execute, advanceTick. cbn [notesPlayed].
      now destruct (isEmpty _).
    + split; [exact IHp|].
      unfold AddNextNote_execute, advanceTick. cbn [notesPlayed].
      now destruct (isEmpty _).
Qed.

(** Truncation is the floor of a number that is not negative, and the
    ceiling of a negative one. *)
Lemma trunc_floor (x : Q) :
  JS.trunc x = if Qle_bool 0 x then Qfloor x else - Qfloor (- x).
Proof.
  destruct x as [n d]. unfold JS.trunc, Qle_bool, Qfloor, Qopp. simpl.
  rewrite Z.mul_1_r.
  destruct (0 <=? n) eqn:E.
  - apply Z.leb_le in E. apply Z.quot_div_nonneg; lia.
  - apply Z.leb_gt in E.
    rewrite <- (Z.opp_involutive n) at 1.
    rewrite Z.quot_opp_l by lia. f_equal.
    apply Z.quot_div_nonneg; lia.
Qed.

Lemma trunc_comp (x y : Q) : (x == y)%Q -> JS.trunc x = JS.trunc y.
Proof.
  intros H. rewrite !trunc_floor.
  assert (E : Qle_bool 0 x = Qle_bool 0 y).
  { destruct (Qle_bool 0 x) eqn:Ex, (Qle_bool 0 y) eqn:Ey; trivial.
    - apply Qle_bool_iff in Ex. rewrite H in Ex. apply Qle_bool_iff in Ex.
      congruence.
    - apply Qle_bool_iff in Ey. rewrite <- H in Ey. apply Qle_bool_iff in Ey.
      congruence. }
  rewrite E. destruct (Qle_bool 0 y); now rewrite H.
Qed.

Lemma toInt32_comp (x y : Q) : (x == y)%Q -> JS.toInt32 x = JS.toInt32 y.
Proof. intros H. unfold JS.toInt32. now rewrite (trunc_comp x y H). Qed.

Lemma trunc_inject_Z (z : Z) : JS.trunc (inject_Z z) = z.
Proof. unfold JS.trunc. simpl. apply Z.quot_1_r. Qed.

(** [Math.floor(n / 10)] of an integer. *)
Lemma floor_tenth (n : Z) : JS.floor (inject_Z n / 10) = n / 10.
Proof.
  assert (E : (inject_Z n / 10 == n # 10)%Q)
    by (unfold Qeq, Qdiv, Qmult, Qinv, inject_Z; cbn [Qnum Qden]; lia).
  unfold JS.floor. now rewrite (Qfloor_comp _ _ E).
Qed.

(** [1 + 0.2 * k] for an integer [k]. *)
Lemma multiplier_fraction (k : Z) : (1 + (1 # 5) * inject_Z k == (k + 5) # 5)%Q.
Proof. unfold Qeq, Qplus, Qmult, inject_Z; cbn [Qnum Qden]; lia. Qed.

Lemma floor_multiplier (k : Z) :
  JS.floor (1 + (1 # 5) * inject_Z k) = 1 + k / 5.
Proof.
  unfold JS.floor. rewrite (Qfloor_comp _ _ (multiplier_fraction k)).
  unfold Qfloor. cbn [Qnum Qden].
  replace (k + 5) with (k + 1 * 5) by lia.
  rewrite Z.div_add by lia. lia.
Qed.

Lemma shift_between (P M d : Q) :
  (M <= d)%Q -> (d <= M + (15 # 16))%Q ->
  (P + M <= P + d <= P + M + (15 # 16))%Q.
Proof. intros H1 H2. split; lra. Qed.

(** The integer part of a number that lies in the unit interval above an
    integer. *)
Lemma Qfloor_between (y : Q) (k : Z) :
  (inject_Z k <= y < inject_Z k + 1)%Q -> Qfloor y = k.
Proof.
  intros [H1 H2].
  pose proof (Qfloor_resp_le _ _ H1) as Hlo. rewrite Qfloor_Z in Hlo.
  assert (Hhi : (inject_Z (Qfloor y) < inject_Z (k + 1))%Q).
  { apply Qle_lt_trans with y; [apply Qfloor_le|].
    rewrite inject_Z_plus. exact H2. }
  rewrite <- Zlt_Qlt in Hhi. lia.
Qed.

Lemma trunc_between (y : Q) (k : Z) :
  0 <= k -> (inject_Z k <= y < inject_Z k + 1)%Q -> JS.trunc y = k.
Proof.
  intros Hk H. rewrite trunc_floor.
  assert (E : Qle_bool 0 y = true).
  { apply Qle_bool_iff. apply Qle_trans with (inject_Z k); [|apply H].
    change 0%Q with (inject_Z 0). now rewrite <- Zle_Qle. }
  rewrite E. now apply Qfloor_between.
Qed.

(** [n / 10] in doubles: the quotient is rounded, and its integer part is
    that of the exact quotient. *)
Lemma tenth_rounded (n : Z) :
  0 <= n < 21474836480 ->
  (inject_Z (n / 10) <= JS.round64 (inject_Z n / 10)
   <= inject_Z (n / 10) + (15 # 16))%Q.
Proof.
  intros Hn.
  pose proof (Z.div_mod n 10 ltac:(lia)) as Hdm.
  pose proof (Z.mod_pos_bound n 10 ltac:(lia)) as Hr.
  assert (Hk : 0 <= n / 10 < 2147483648).
  { split; [apply Z.div_pos; lia | apply Z.div_lt_upper_bound; lia]. }
  apply round64_floor; [lia|].
  assert (En : (inject_Z n == 10 * inject_Z (n / 10) + inject_Z (n mod 10))%Q).
  { change 10%Q with (inject_Z 10).
    rewrite <- inject_Z_mult, <- inject_Z_plus. now rewrite <- Hdm. }
  assert (H0 : (0 <= inject_Z (n mod 10))%Q)
    by (change 0%Q with (inject_Z 0); rewrite <- Zle_Qle; lia).
  assert (H9 : (inject_Z (n mod 10) <= 9)%Q)
    by (change 9%Q with (inject_Z 9); rewrite <- Zle_Qle; lia).
  rewrite En.
  generalize dependent (inject_Z (n mod 10)).
  generalize (inject_Z (n / 10)). intros K R _ H0 H9.
  split.
  - apply Qle_shift_div_l; [reflexivity | lra].
  - apply Qle_shift_div_r; [reflexivity | lra].
Qed.

Lemma floor_tenth_rounded (n : Z) :
  0 <= n < 21474836480 -> JS.floor (JS.round64 (inject_Z n / 10)) = n / 10.
Proof.
  intros Hn. destruct (tenth_rounded n Hn) as [H1 H2].
  unfold JS.floor. apply Qfloor_between. split; [exact H1 | lra].
Qed.

Lemma toInt32_tenth_rounded (n : Z) :
  0 <= n < 21474836480 -> JS.toInt32 (JS.round64 (inject_Z n / 10)) = n / 10.
Proof.
  intros Hn. destruct (tenth_rounded n Hn) as [H1 H2].
  assert (Hk : 0 <= n / 10 < 2147483648).
  { split; [apply Z.div_pos; lia | apply Z.div_lt_upper_bound; lia]. }
  unfold JS.toInt32. rewrite (trunc_between _ (n / 10)); [|lia|split; [exact H1 | lra]].
  apply wrap32_int32. unfold JS.int32. lia.
Qed.

(** The literal [0.2]. *)
Lemma fifth_double :
  (JS.round64 (1 # 5) == 3602879701896397 # 18014398509481984)%Q.
Proof. vm_compute. reflexivity. Qed.

(** [1 + 0.2 * q] in doubles: the integer part is that of the exact
    number. *)
Lemma multiplier_rounded (q : Z) :
  0 <= q < 2147483648 ->
  (inject_Z (1 + q / 5)
   <= JS.round64 (1 + JS.round64 (JS.round64 (1 # 5) * inject_Z q))
   <= inject_Z (1 + q / 5) + (15 # 16))%Q.
Proof.
  intros Hq.
  pose proof (Z.div_mod q 5 ltac:(lia)) as Hdm.
  pose proof (Z.mod_pos_bound q 5 ltac:(lia)) as Hr.
  assert (Hj : 0 <= q / 5 < 2147483648).
  { split; [apply Z.div_pos; lia | apply Z.div_lt_upper_bound; lia]. }
  assert (Hprod : (inject_Z (q / 5)
                   <= JS.round64 (JS.round64 (1 # 5) * inject_Z q)
                   <= inject_Z (q / 5) + (15 # 16))%Q).
  { apply round64_floor; [lia|]. rewrite fifth_double.
    assert (Eq : (inject_Z q == 5 * inject_Z (q / 5) + inject_Z (q mod 5))%Q).
    { change 5%Q with (inject_Z 5).
      rewrite <- inject_Z_mult, <- inject_Z_plus. now rewrite <- Hdm. }
    assert (H0 : (0 <= inject_Z (q mod 5))%Q)
      by (change 0%Q with (inject_Z 0); rewrite <- Zle_Qle; lia).
    assert (H4 : (inject_Z (q mod 5) <= 4)%Q)
      by (change 4%Q with (inject_Z 4); rewrite <- Zle_Qle; lia).
    assert (HJ0 : (0 <= inject_Z (q / 5))%Q)
      by (change 0%Q with (inject_Z 0); rewrite <- Zle_Qle; lia).
    assert (HJ : (inject_Z (q / 5) <= 2147483648)%Q)
      by (change 2147483648%Q with (inject_Z 2147483648);
          rewrite <- Zle_Qle; lia).
    rewrite Eq.
    generalize dependent (inject_Z (q mod 5)).
    generalize dependent (inject_Z (q / 5)). intros J HJ0 HJ R _ H0 H4.
    split; lra. }
  apply round64_floor; [lia|].
  rewrite inject_Z_plus. change (inject_Z 1) with 1%Q.
  generalize dependent (JS.round64 (JS.round64 (1 # 5) * inject_Z q)).
  generalize (inject_Z (q / 5)). intros J r Hr'. lra.
Qed.

(** Up to the tenth note the multiplier is 1. *)
Lemma multiplier_one :
  (JS.round64 (1 + JS.round64 (JS.round64 (1 # 5) * inject_Z 0)) == 1)%Q.
Proof. vm_compute. reflexivity. Qed.

Lemma pressMultiplier_rounded (state : GameState) :
  0 <= notesPlayed state < 21474836480 ->
  (inject_Z (1 + notesPlayed state / 10 / 5) <= pressMultiplier state
   <= inject_Z (1 + notesPlayed state / 10 / 5) + (15 # 16))%Q.
Proof.
  intros Hn. unfold pressMultiplier. rewrite toInt32_tenth_rounded by exact Hn.
  apply multiplier_rounded.
  split; [apply Z.div_pos; lia | apply Z.div_lt_upper_bound; lia].
Qed.

Lemma releaseMultiplier_rounded (state : GameState) :
  0 <= notesPlayed state < 21474836480 ->
  (inject_Z (1 + notesPlayed state / 10 / 5) <= releaseMultiplier state
   <= inject_Z (1 + notesPlayed state / 10 / 5) + (15 # 16))%Q.
Proof.
  intros Hn. unfold releaseMultiplier. rewrite floor_tenth_rounded by exact Hn.
  apply multiplier_rounded.
  split; [apply Z.div_pos; lia | apply Z.div_lt_upper_bound; lia].
Qed.

Lemma pressMultiplier_one (state : GameState) :
  0 <= notesPlayed state < 10 -> (pressMultiplier state == 1)%Q.
Proof.
  intros Hn. unfold pressMultiplier. rewrite toInt32_tenth_rounded by lia.
  rewrite Z.div_small by exact Hn. exact multiplier_one.
Qed.

Lemma releaseMultiplier_one (state : GameState) :
  0 <= notesPlayed state < 10 -> (releaseMultiplier state == 1)%Q.
Proof.
  intros Hn. unfold releaseMultiplier. rewrite floor_tenth_rounded by lia.
  rewrite Z.div_small by exact Hn. exact multiplier_one.
Qed.

(** Whole numbers are added and taken off exactly. *)
Lemma iter_add_one (d : Q) (p : Z) (m : nat) :
  (d == 1)%Q ->
  - 2 ^ 52 < p -> p + Z.of_nat m < 2 ^ 52 ->
  (Nat.iter m (fun sum => JS.round64 (sum + d)) (inject_Z p)
   == inject_Z (p + Z.of_nat m))%Q.
Proof.
  intros Hd Hp. induction m as [|m IH]; intros Hm.
  - change (Z.of_nat 0) with 0. now rewrite Z.add_0_r.
  - rewrite Nat.iter_succ. specialize (IH ltac:(lia)). rewrite IH, Hd.
    assert (E : (inject_Z (p + Z.of_nat m) + 1 == inject_Z (p + Z.of_nat (S m)))%Q).
    { rewrite Nat2Z.inj_succ. unfold Z.succ.
      rewrite Z.add_assoc, (inject_Z_plus _ 1). reflexivity. }
    rewrite E. apply round64_Z. lia.
Qed.

Lemma iter_sub_one (d : Q) (p : Z) (m : nat) :
  (d == 1)%Q ->
  p < 2 ^ 52 -> - 2 ^ 52 < p - Z.of_nat m ->
  (Nat.iter m (fun rest => JS.round64 (rest - d)) (inject_Z p)
   == inject_Z (p - Z.of_nat m))%Q.
Proof.
  intros Hd Hp. induction m as [|m IH]; intros Hm.
  - change (Z.of_nat 0) with 0. now rewrite Z.sub_0_r.
  - rewrite Nat.iter_succ. specialize (IH ltac:(lia)). rewrite IH, Hd.
    assert (E : (inject_Z (p - Z.of_nat m) - 1 == inject_Z (p - Z.of_nat (S m)))%Q).
    { rewrite Nat2Z.inj_succ. unfold Z.succ.
      replace (p - (Z.of_nat m + 1)) with (p - Z.of_nat m + - (1)) by lia.
      rewrite (inject_Z_plus _ (- (1))). reflexivity. }
    rewrite E. apply round64_Z. lia.
Qed.

Section ScoreFolds.

Variable p : MusicalNote -> bool.
Variable step : Q -> Q.

(** The fold of [ReleaseButton.execute]: the step, once for each note that
    passes the test. *)
Lemma release_fold (l : list MusicalNote) :
  forall acc : Q,
    fold_left (fun (a : Q) (note : MusicalNote) => if p note then step a else a)
              l acc
    = Nat.iter (List.length (filter p l)) step acc.
Proof.
  induction l as [|note l IH]; intros acc; cbn [fold_left filter].
  - reflexivity.
  - rewrite IH. destruct (p note); [|reflexivity].
    cbn [List.length]. now rewrite Nat.iter_succ_r.
Qed.

(** The fold of [PressButton.execute]. *)
Lemma press_fold (l : list MusicalNote) :
  forall acc : ActionAccumulator,
    let r := fold_left
               (fun (a : ActionAccumulator) (note : MusicalNote) =>
                  if p note then mkAction true (step (acc_points a)) else a)
               l acc in
    activated r = activated acc || negb (isEmpty (filter p l))
    /\ acc_points r = Nat.iter (List.length (filter p l)) step (acc_points acc).
Proof.
  induction l as [|note l IH]; intros acc; cbn [fold_left filter].
  - split; [now rewrite orb_false_r | reflexivity].
  - destruct (IH (if p note then mkAction true (step (acc_points acc)) else acc))
      as [Ha Hp].
    cbv zeta. rewrite Ha, Hp. destruct (p note); cbn [activated acc_points].
    + split; [now rewrite orb_true_r|].
      cbn [List.length]. now rewrite Nat.iter_succ_r.
    + split; reflexivity.
Qed.

End ScoreFolds.

(** ** C2: a press that hits *)

(** C2, counterexample: with two notes of column 0 in the hit window and no
    note played so far, one press of column 0 takes the score from 0 to 2:
    the multiplier is added once for each matching note. *)
Lemma press_scores_every_matching_note :
  let state := run defaultState chordPlay in
  reachable state
  /\ points state = 0
  /\ notesPlayed state = 0
  /\ points (execute (PressButton 0) state) = 2
  /\ ~ press_scores_one_multiplier state 0.
Proof.
  intros state.
  assert (Hp : points (execute (PressButton 0) state) = 2)
    by (vm_compute; reflexivity).
  split; [apply reachable_run; constructor|].
  split_all; try (vm_compute; reflexivity).
  intros H. destruct H as (_ & _ & H).
  - vm_compute. eexists. split; [left; reflexivity | reflexivity].
  - rewrite Hp in H. vm_compute in H. discriminate H.
Qed.

Lemma filter_nil_forall {A : Type} (p : A -> bool) (l : list A) :
  filter p l = [] <-> forall x, In x l -> p x = false.
Proof.
  induction l as [|a l IH]; simpl.
  - split; [intros _ x [] | reflexivity].
  - destruct (p a) eqn:E; split.
    + discriminate.
    + intros H. specialize (H a (or_introl eq_refl)). congruence.
    + intros H x [<- | Hx]; [assumption | now apply IH].
    + intros H. apply IH. intros x Hx. apply H. now right.
Qed.

Lemma activationStatus_spec (c : Z) (state : GameState) :
  let hits := filter (inHitWindow c) (activeNotes state) in
  activated (activationStatus c state) = negb (isEmpty hits)
  /\ acc_points (activationStatus c state)
     = Nat.iter (List.length hits)
                (fun sum => JS.round64 (sum + pressMultiplier state))
                (inject_Z (points state)).
Proof.
  exact (press_fold (inHitWindow c)
                    (fun sum => JS.round64 (sum + pressMultiplier state))
                    (activeNotes state)
                    (mkAction false (inject_Z (points state)))).
Qed.

(** The arithmetic of the two folds agrees with the binary64 numbers of the
    kernel where the rounding shows: the multiplier for the tenth to the
    nineteenth note is the double nearest to 1.2; added five times to 10 it
    gives a double just below 16, and taken five times off 9 a double just
    below 3. *)
Lemma score_agrees_with_binary64 :
  rational_of (multiplier_double 1) = Some (Qred (multiplier_model 1))
  /\ rational_of (press_double 10 1 5) = Some (Qred (press_model 10 1 5))
  /\ double_trunc (press_double 10 1 5) = Some 15
  /\ JS.trunc (press_model 10 1 5) = 15
  /\ rational_of (release_double 9 1 5) = Some (Qred (release_model 9 1 5))
  /\ double_trunc (release_double 9 1 5) = Some 2
  /\ JS.trunc (release_model 9 1 5) = 2.
Proof. by_computation. Qed.

(** The sums are rounded one by one: with ten notes played and a score of
    10, a press that hits five notes writes 15, where five times 1.2 more
    than 10 is 16. *)
Lemma press_rounds_every_sum :
  let state := run defaultState tenHitsPlay in
  reachable state
  /\ points state = 10
  /\ notesPlayed state = 10
  /\ List.length (filter (inHitWindow 0) (activeNotes state)) = 5%nat
  /\ Qred (acc_points (activationStatus 0 state)) = Qred (press_model 10 1 5)
  /\ points (execute (PressButton 0) state) = 15
  /\ JS.trunc (10 + 5 * (1 + (1 # 5) * 1)) = 16.
Proof.
  intros state.
  split; [apply reachable_run; constructor|].
  split_all; vm_compute; reflexivity.
Qed.

(** C2, as the code has it: a press of column [c] with at least one visible
    note of that column in the hit window makes exactly the matching notes
    invisible, adds 1 to [notesPlayed], and adds the multiplier
    [1 + 0.2 * ~~(notesPlayed / 10)] once for EACH matching note, every sum
    being rounded to a double, before the result is written back through
    [~~].  The multiplier is a double whose integer part is
    [1 + floor(floor(notesPlayed / 10) / 5)]; up to the tenth note it is 1,
    and the score grows by the number of matching notes.  With one matching
    note, a score and a count that are not negative, and a result in the
    32-bit range, the score grows by
    [floor(1 + 0.2 * floor(notesPlayed / 10))]. *)
Theorem press_hit (state : GameState) (c : Z) :
  let state' := execute (PressButton c) state in
  let hits := filter (inHitWindow c) (activeNotes state) in
  hits <> [] ->
  activeNotes state' = map (pressNote c) (activeNotes state)
  /\ (forall note, inHitWindow c note = true ->
                   pressNote c note = with_visible note false)
  /\ (forall note, inHitWindow c note = false -> pressNote c note = note)
  /\ notesPlayed state' = notesPlayed state + 1
  /\ points state'
     = JS.toInt32 (Nat.iter (List.length hits)
                            (fun sum => JS.round64 (sum + pressMultiplier state))
                            (inject_Z (points state)))
  /\ (0 <= notesPlayed state < 21474836480 ->
      (inject_Z (1 + notesPlayed state / 10 / 5) <= pressMultiplier state
       <= inject_Z (1 + notesPlayed state / 10 / 5) + (15 # 16))%Q)
  /\ (0 <= notesPlayed state < 10 ->
      JS.int32 (points state) ->
      Z.of_nat (List.length hits) < 2147483648 ->
      points state' = JS.wrap32 (points state + Z.of_nat (List.length hits)))
  /\ (List.length hits = 1%nat ->
      0 <= points state ->
      0 <= notesPlayed state < 21474836480 ->
      points state + (1 + notesPlayed state / 10 / 5) < 2147483648 ->
      points state'
      = points state
        + JS.floor (1 + (1 # 5)
                        * inject_Z (JS.floor (inject_Z (notesPlayed state) / 10)))).
Proof.
  intros state' hits Hhits.
  destruct (activationStatus_spec c state) as [Hact Hpts].
  fold hits in Hact, Hpts.
  assert (Hpoints : points state'
                    = JS.toInt32
                        (Nat.iter (List.length hits)
                                  (fun sum => JS.round64 (sum + pressMultiplier state))
                                  (inject_Z (points state)))).
  { subst state'. cbn [execute PressButton_execute points]. now rewrite Hpts. }
  split; [reflexivity|].
  split; [intros note H; unfold pressNote; now rewrite H|].
  split; [intros note H; unfold pressNote; now rewrite H|].
  split.
  { subst state'. cbn [execute PressButton_execute notesPlayed].
    rewrite Hact. destruct hits; [contradiction | reflexivity]. }
  split; [exact Hpoints|].
  split; [exact (pressMultiplier_rounded state)|].
  split.
  - intros Hn Hrange Hm. rewrite Hpoints. unfold JS.int32 in Hrange.
    rewrite (toInt32_comp _ _ (iter_add_one (pressMultiplier state) (points state)
                                 (List.length hits)
                                 (pressMultiplier_one state Hn)
                                 ltac:(lia) ltac:(lia))).
    unfold JS.toInt32. now rewrite trunc_inject_Z.
  - intros Hone Hp Hn Hsmall. rewrite Hpoints, Hone.
    rewrite floor_tenth, floor_multiplier.
    assert (Hk : 0 <= notesPlayed state / 10) by (apply Z.div_pos; lia).
    assert (Hk5 : 0 <= notesPlayed state / 10 / 5) by (apply Z.div_pos; lia).
    destruct (pressMultiplier_rounded state Hn) as [H1 H2].
    set (k := points state + (1 + notesPlayed state / 10 / 5)) in *.
    assert (Hsum : (inject_Z k
                    <= JS.round64 (inject_Z (points state) + pressMultiplier state)
                    <= inject_Z k + (15 # 16))%Q).
    { apply round64_floor; [lia|]. subst k. rewrite inject_Z_plus.
      now apply shift_between. }
    change (Nat.iter 1 (fun sum => JS.round64 (sum + pressMultiplier state))
                     (inject_Z (points state)))
      with (JS.round64 (inject_Z (points state) + pressMultiplier state)).
    unfold JS.toInt32.
    destruct Hsum as [S1 S2].
    rewrite (trunc_between _ k); [|lia|].
    2:{ split; [exact S1|].
        apply Qle_lt_trans with (inject_Z k + (15 # 16))%Q; [exact S2|].
        apply Qplus_lt_r. reflexivity. }
    apply wrap32_int32. unfold JS.int32. lia.
Qed.

Lemma press_hit_witness :
  let state := run defaultState windowPlay in
  points (execute (PressButton 0) state)
  = points state
    + JS.floor (1 + (1 # 5)
                    * inject_Z (JS.floor (inject_Z (notesPlayed state) / 10))).
Proof.
  intros state.
  assert (Hhits : filter (inHitWindow 0) (activeNotes state) <> [])
    by (vm_compute; discriminate).
  destruct (press_hit state 0 Hhits) as (_ & _ & _ & _ & _ & _ & _ & H).
  apply H.
  - vm_compute. reflexivity.
  - vm_compute. discriminate.
  - split; vm_compute; [discriminate | reflexivity].
  - vm_compute. reflexivity.
Defined.

(** ** C6: letting go of a held tail *)

(** C6, counterexample: the differences are rounded one by one.  In the
    state after [heldChordPlay], which has a score of 9, ten notes played
    and five held tails in column 0, each tail costs the double nearest to
    1.2, and a release of the column writes 2, where 9 less five times 1.2
    is 3. *)
Lemma release_rounds_every_difference :
  let state := run defaultState heldChordPlay in
  reachable state
  /\ points state = 9
  /\ notesPlayed state = 10
  /\ List.length (filter (heldTail 0) (activeNotes state)) = 5%nat
  /\ Qred (releasePoints 0 state) = Qred (release_model 9 1 5)
  /\ points (execute (ReleaseButton 0) state) = 2
  /\ JS.trunc (9 - 5 * (1 + (1 # 5) * 1)) = 3
  /\ ~ release_truncates state 0.
Proof.
  intros state.
  assert (Hp : points (execute (ReleaseButton 0) state) = 2)
    by (vm_compute; reflexivity).
  split; [apply reachable_run; constructor|].
  split_all; try (vm_compute; reflexivity).
  unfold release_truncates. rewrite Hp. vm_compute. discriminate.
Qed.

Lemma releasePoints_spec (c : Z) (state : GameState) :
  releasePoints c state
  = Nat.iter (List.length (filter (heldTail c) (activeNotes state)))
             (fun rest => JS.round64 (rest - releaseMultiplier state))
             (inject_Z (points state)).
Proof.
  exact (release_fold (heldTail c)
                      (fun rest => JS.round64 (rest - releaseMultiplier state))
                      (activeNotes state) (inject_Z (points state))).
Qed.

Lemma map_unchanged {A : Type} (f : A -> A) (l : list A) :
  (forall x, In x l -> f x = x) -> map f l = l.
Proof.
  induction l as [|a l IH]; simpl; intros H; [reflexivity|].
  rewrite H by now left. rewrite IH; [reflexivity|].
  intros x Hx. apply H. now right.
Qed.

Lemma releaseNote_not_held (c : Z) (note : MusicalNote) :
  heldTail c note = false -> releaseNote c note = note.
Proof.
  unfold releaseNote. intros H. destruct (tail note); [now rewrite H | reflexivity].
Qed.

(** C6, as the code has it: a release of column [c] leaves [notesPlayed]
    alone, takes the multiplier [1 + 0.2 * floor(notesPlayed / 10)] off the
    score once for each active note of the column that is resolved and has
    a tail not yet inactive, every difference being rounded to a double,
    marks each of these tails inactive and leaves the other notes as they
    are; the result is written back through [~~], which truncates toward
    zero when the result is in the 32-bit range.  The multiplier is a
    double whose integer part is [1 + floor(floor(notesPlayed / 10) / 5)];
    up to the tenth note it is 1, and the score falls by the number of such
    notes.  With no such note the board is unchanged, and so is a score in
    the 32-bit range, as the score of every reachable state is. *)
Theorem release_penalty (state : GameState) (c : Z) :
  let state' := execute (ReleaseButton c) state in
  let held := filter (heldTail c) (activeNotes state) in
  let result := Nat.iter (List.length held)
                         (fun rest => JS.round64 (rest - releaseMultiplier state))
                         (inject_Z (points state)) in
  notesPlayed state' = notesPlayed state
  /\ (0 <= notesPlayed state < 21474836480 ->
      (inject_Z (1 + notesPlayed state / 10 / 5) <= releaseMultiplier state
       <= inject_Z (1 + notesPlayed state / 10 / 5) + (15 # 16))%Q)
  /\ activeNotes state' = map (releaseNote c) (activeNotes state)
  /\ (forall note t, heldTail c note = true -> tail note = Some t ->
                     releaseNote c note
                     = with_tail note (Some (with_inactive t (Some true))))
  /\ (forall note, heldTail c note = false -> releaseNote c note = note)
  /\ points state' = JS.toInt32 result
  /\ (JS.int32 (JS.trunc result) -> points state' = JS.trunc result)
  /\ (0 <= notesPlayed state < 10 ->
      JS.int32 (points state) ->
      Z.of_nat (List.length held) < 2147483648 ->
      points state' = JS.wrap32 (points state - Z.of_nat (List.length held)))
  /\ (held = [] -> activeNotes state' = activeNotes state)
  /\ (held = [] -> JS.int32 (points state) -> points state' = points state)
  /\ (held = [] -> reachable state -> points state' = points state).
Proof.
  intros state' held result.
  assert (Hpoints : points state' = JS.toInt32 result).
  { subst state'. cbn [execute ReleaseButton_execute points].
    now rewrite releasePoints_spec. }
  assert (Hsame : held = [] -> JS.int32 (points state) ->
                  points state' = points state).
  { intros Hnone Hrange. rewrite Hpoints. subst result. rewrite Hnone.
    cbn [List.length]. change (Nat.iter 0 _ ?x) with x.
    unfold JS.toInt32. rewrite trunc_inject_Z. now apply wrap32_int32. }
  split; [reflexivity|].
  split; [exact (releaseMultiplier_rounded state)|].
  split; [reflexivity|].
  split.
  { intros note t Hheld Ht. unfold releaseNote. now rewrite Ht, Hheld. }
  split; [exact (releaseNote_not_held c)|].
  split; [exact Hpoints|].
  split.
  { intros Hrange. rewrite Hpoints. now apply wrap32_int32. }
  split.
  { intros Hn Hrange Hm. rewrite Hpoints. unfold JS.int32 in Hrange.
    subst result.
    rewrite (toInt32_comp _ _ (iter_sub_one (releaseMultiplier state)
                                 (points state) (List.length held)
                                 (releaseMultiplier_one state Hn)
                                 ltac:(lia) ltac:(lia))).
    unfold JS.toInt32. now rewrite trunc_inject_Z. }
  split.
  { intros Hnone. subst state'. cbn [execute ReleaseButton_execute activeNotes].
    apply map_unchanged. intros note Hin. apply releaseNote_not_held.
    now apply (proj1 (filter_nil_forall (heldTail c) (activeNotes state)) Hnone). }
  split; [exact Hsame|].
  intros Hnone Hreach. apply Hsame; [exact Hnone|].
  exact (proj1 (reachable_score state Hreach)).
Qed.

Lemma release_penalty_witness :
  let state := run defaultState heldPlay in
  activeNotes (execute (ReleaseButton 0) state) = activeNotes state
  /\ points (execute (ReleaseButton 0) state) = points state.
Proof.
  intros state.
  destruct (release_penalty state 0)
    as (_ & _ & _ & _ & _ & _ & _ & _ & Hb & Hp & _).
  split.
  - apply Hb. vm_compute. reflexivity.
  - apply Hp; [vm_compute; reflexivity|].
    split; vm_compute; [discriminate | reflexivity].
Defined.

(** ** C7: a wrong press *)

(** C7, counterexample: a press on the empty board of the first state is a
    wrong press.  The filler it appends has volume 66, pitch 51 and
    duration 370, all three from the one number [scale(randomSeed)] (about
    0.742, times 90, 70 and 500); successive draws would give volume 40,
    pitch 10 and duration 296, from three further seeds. *)
Lemma filler_draws_use_one_seed :
  readyNotes (execute (PressButton 0) defaultState)
  = [Filler (mkIncorrect (Some "trumpet"%string) 66 51 0%Q 370%Q)]
  /\ readyNotes (execute (PressButton 0) defaultState)
     <> readyNotes defaultState ++ [Filler (incorrectNote_successive defaultState)].
Proof.
  split; [vm_compute; reflexivity|].
  vm_compute. intros H. discriminate H.
Qed.

(** A press of the column in which a released tail is still draining hits
    nothing and yet appends no filler: the test looks for a resolved note
    with a tail, inactive or not. *)
Lemma press_beside_released_tail :
  let state := run defaultState heldPlay in
  inactiveTail releasedNote = true
  /\ activeNotes state = [releasedNote]
  /\ activated (activationStatus 0 state) = false
  /\ readyNotes (execute (PressButton 0) state) = readyNotes state.
Proof. by_computation. Qed.

(** The test of [checkWrongPress], spelled out on the state before the
    press: no note of the column is hit, and no resolved note of the column
    has a tail (active or not). *)
Lemma checkWrongPress_spec (c : Z) (state : GameState) :
  checkWrongPress c state = true
  <-> (forall note, In note (activeNotes state) -> inHitWindow c note = false)
      /\ (forall note, In note (activeNotes state) ->
                       column note = c -> visible note = false -> tail note = None).
Proof.
  unfold checkWrongPress.
  destruct (activationStatus_spec c state) as [Hact _]. rewrite Hact.
  rewrite andb_true_iff, negb_involutive, !isEmpty_nil, !filter_nil_forall.
  split.
  - intros [Hmiss Hheld]. split; [exact Hmiss|].
    intros note Hin Hc Hv.
    assert (Hsame : map (pressNote c) (activeNotes state) = activeNotes state).
    { apply map_unchanged. intros x Hx. unfold pressNote. now rewrite Hmiss. }
    rewrite Hsame in Hheld. specialize (Hheld note Hin).
    rewrite Hv in Hheld. apply Z.eqb_eq in Hc. rewrite Hc in Hheld.
    apply hasTail_false. exact Hheld.
  - intros [Hmiss Hheld]. split; [exact Hmiss|].
    assert (Hsame : map (pressNote c) (activeNotes state) = activeNotes state).
    { apply map_unchanged. intros x Hx. unfold pressNote. now rewrite Hmiss. }
    rewrite Hsame. intros note Hin.
    destruct (column note =? c) eqn:Hc; [|reflexivity].
    destruct (visible note) eqn:Hv; [reflexivity|].
    apply Z.eqb_eq in Hc. cbn [negb andb].
    apply hasTail_false. now apply Hheld.
Qed.

(** C7, as the code has it: every press advances the stored seed once, by
    [hash].  A press of column [c] with no visible note of the column in the
    hit window and no resolved note with a tail in the column changes
    neither the board nor [notesPlayed], leaves a score in the 32-bit range
    (the score of any reachable state) as it is, and appends one filler to
    [readyNotes]; the instrument, volume, pitch and duration of the filler
    all come from the single number [scale(randomSeed)] of the seed before
    the press: the four draws are made from the same seed and are equal. *)
Theorem wrong_press (state : GameState) (c : Z) :
  let state' := execute (PressButton c) state in
  let x := RNG.scale (randomSeed state) in
  randomSeed state' = RNG.hash (randomSeed state)
  /\ ((forall note, In note (activeNotes state) -> inHitWindow c note = false) ->
      (forall note, In note (activeNotes state) ->
                    column note = c -> visible note = false -> tail note = None) ->
      readyNotes state'
      = readyNotes state
        ++ [Filler (mkIncorrect (sampleAt (JS.toInt32 (x * 6)%Q))
                                (JS.toInt32 (x * 90)%Q)
                                (JS.toInt32 (x * 70)%Q)
                                0%Q
                                (inject_Z (JS.toInt32 (x * 500)%Q)))]
      /\ activeNotes state' = activeNotes state
      /\ notesPlayed state' = notesPlayed state
      /\ (JS.int32 (points state) -> points state' = points state)
      /\ (reachable state -> points state' = points state)).
Proof.
  intros state' x. split; [reflexivity|].
  intros Hmiss Hheld.
  assert (Hwrong : checkWrongPress c state = true)
    by (apply checkWrongPress_spec; now split).
  destruct (activationStatus_spec c state) as [Hact Hpts].
  assert (Hnone : filter (inHitWindow c) (activeNotes state) = [])
    by now apply filter_nil_forall.
  rewrite Hnone in Hact, Hpts.
  subst state'. cbn [execute PressButton_execute readyNotes activeNotes
                     notesPlayed points].
  rewrite Hwrong, Hact. cbn [isEmpty List.length Nat.eqb negb].
  split; [reflexivity|]. split.
  - apply map_unchanged. intros note Hin. unfold pressNote. now rewrite Hmiss.
  - split; [reflexivity|].
    assert (Hsame : JS.int32 (points state) ->
                    JS.toInt32 (acc_points (activationStatus c state))
                    = points state).
    { intros Hrange.
      assert (E : (acc_points (activationStatus c state)
                   == inject_Z (points state))%Q).
      { rewrite Hpts. reflexivity. }
      rewrite (toInt32_comp _ _ E). unfold JS.toInt32.
      rewrite trunc_inject_Z. now apply wrap32_int32. }
    split; [exact Hsame|].
    intros Hreach. apply Hsame. exact (proj1 (reachable_score state Hreach)).
Qed.

Lemma wrong_press_witness :
  let x := RNG.scale (randomSeed defaultState) in
  readyNotes (execute (PressButton 0) defaultState)
  = readyNotes defaultState
    ++ [Filler (mkIncorrect (sampleAt (JS.toInt32 (x * 6)%Q))
                            (JS.toInt32 (x * 90)%Q)
                            (JS.toInt32 (x * 70)%Q)
                            0%Q
                            (inject_Z (JS.toInt32 (x * 500)%Q)))]
  /\ activeNotes (execute (PressButton 0) defaultState) = activeNotes defaultState
  /\ notesPlayed (execute (PressButton 0) defaultState) = notesPlayed defaultState
  /\ (JS.int32 (points defaultState) ->
      points (execute (PressButton 0) defaultState) = points defaultState)
  /\ (reachable defaultState ->
      points (execute (PressButton 0) defaultState) = points defaultState).
Proof.
  apply (proj2 (wrong_press defaultState 0)).
  - intros note [].
  - intros note [].
Defined.

(** ** C9: the generator *)


(** At the seeds of the counterexample the double sum
    [multiplier * seed + increment] is what [JS.round53] gives, and at the
    seed 3847589 of the first state it is exact. *)
Lemma round53_agrees_with_binary64 :
  double_sum 2147483647
  = Some (JS.round53 (JS.round53 (RNG.multiplier * 2147483647) + RNG.increment))
  /\ double_sum 1593167226
     = Some (JS.round53 (JS.round53 (RNG.multiplier * 1593167226) + RNG.increment))
  /\ double_sum 3847589 = Some (RNG.multiplier * 3847589 + RNG.increment).
Proof. by_computation. Qed.

(** In doubles too [scale] reaches 1 at 2147483647, and the filler of the
    first state is made of the numbers the exact arithmetic gives. *)
Lemma scale_agrees_with_binary64 :
  PrimFloat.eqb (scale_double 2147483647) (double_of 1) = true
  /\ double_trunc (PrimFloat.mul (scale_double 1593167226) (double_of 6))
     = Some (JS.toInt32 (RNG.scale 1593167226 * 6)%Q)
  /\ double_trunc (PrimFloat.mul (scale_double 1593167226) (double_of 90))
     = Some (JS.toInt32 (RNG.scale 1593167226 * 90)%Q)
  /\ double_trunc (PrimFloat.mul (scale_double 1593167226) (double_of 70))
     = Some (JS.toInt32 (RNG.scale 1593167226 * 70)%Q)
  /\ double_trunc (PrimFloat.mul (scale_double 1593167226) (double_of 500))
     = Some (JS.toInt32 (RNG.scale 1593167226 * 500)%Q).
Proof. by_computation. Qed.

(** An integer below 2^53 in magnitude is a double. *)
Lemma round53_exact (x : Z) : Z.abs x < 2 ^ 53 -> JS.round53 x = x.
Proof.
  intros H. unfold JS.round53.
  assert (E : Z.log2 (Z.abs x) - 52 <= 0).
  { destruct (Z.eq_dec (Z.abs x) 0) as [E0 | E0].
    - rewrite E0. simpl. lia.
    - assert (Hpos : 0 < Z.abs x) by lia.
      pose proof (proj1 (Z.log2_lt_pow2 (Z.abs x) 53 Hpos) H). lia. }
  apply Z.leb_le in E. now rewrite E.
Qed.

Lemma round53_nonneg (x : Z) : 0 <= x -> 0 <= JS.round53 x.
Proof.
  intros H. unfold JS.round53.
  destruct (Z.log2 (Z.abs x) - 52 <=? 0) eqn:E; [exact H|].
  apply Z.leb_gt in E.
  assert (Hpow : 0 < 2 ^ (Z.log2 (Z.abs x) - 52))
    by (apply Z.pow_pos_nonneg; lia).
  assert (Hq : 0 <= Z.abs x / 2 ^ (Z.log2 (Z.abs x) - 52))
    by (apply Z.div_pos; lia).
  apply Z.mul_nonneg_nonneg; [lia|].
  apply Z.mul_nonneg_nonneg; [|lia].
  destruct (_ || _); lia.
Qed.

(** The hash of a seed that is not negative is in the range of [%]. *)
Lemma hash_range (seed : Z) : 0 <= seed -> 0 <= RNG.hash seed < 2 ^ 31.
Proof.
  intros H. unfold RNG.hash, RNG.multiplier, RNG.increment, RNG.modulus.
  change (2 ^ 31) with 2147483648.
  apply Z.rem_bound_pos; [|lia].
  apply round53_nonneg.
  assert (0 <= JS.round53 (1103515245 * seed)) by (apply round53_nonneg; lia).
  lia.
Qed.

Lemma lcg_never_top (s : Z) :
  0 <= s <= 8162278 -> (1103515245 * s + 12345) mod 2147483648 <> 2147483647.
Proof.
  intros Hs H.
  pose proof (Z.div_mod (1103515245 * s + 12345) 2147483648 ltac:(lia)) as E.
  rewrite H in E. lia.
Qed.

(** A rounded integer of 2^53 or more is even, and not below 2^53. *)
Lemma round53_large (x : Z) :
  2 ^ 53 <= x -> exists y, JS.round53 x = 2 * y /\ 2 ^ 53 <= JS.round53 x.
Proof.
  intros H. change (2 ^ 53) with 9007199254740992 in *.
  unfold JS.round53.
  rewrite (Z.abs_eq x) by lia.
  assert (Hlog : 53 <= Z.log2 x).
  { apply Z.log2_le_pow2; [lia|]. exact H. }
  destruct (Z.log2 x - 52 <=? 0) eqn:E; [apply Z.leb_le in E; lia|].
  set (e := Z.log2 x - 52) in *.
  assert (He : 1 <= e) by (subst e; lia).
  set (q := x / 2 ^ e).
  match goal with
  | |- context [if ?b then q + 1 else q] => set (q' := if b then q + 1 else q)
  end.
  assert (Hpow : 2 ^ e = 2 * 2 ^ (e - 1)).
  { rewrite <- Z.pow_succ_r by lia. f_equal. lia. }
  assert (Hpos : 0 < 2 ^ (e - 1)) by (apply Z.pow_pos_nonneg; lia).
  assert (Hq : 2 ^ 52 <= q).
  { subst q. apply Z.div_le_lower_bound; [lia|].
    rewrite <- Z.pow_add_r by lia.
    replace (e + 52) with (Z.log2 x) by (subst e; lia).
    apply Z.log2_spec. lia. }
  change (2 ^ 52) with 4503599627370496 in Hq.
  assert (Hq' : q <= q') by (subst q'; destruct (_ || _); lia).
  rewrite (Z.sgn_pos x) by lia. rewrite Z.mul_1_l.
  exists (q' * 2 ^ (e - 1)). split; [rewrite Hpow; ring|].
  rewrite Hpow. nia.
Qed.

(** No seed of the game hashes to 2^31 - 1: below 2^53 the congruence has
    no solution that small, and above it the rounded sum is even. *)
Lemma hash_never_top (seed : Z) : 0 <= seed -> RNG.hash seed <> 2147483647.
Proof.
  intros Hs.
  destruct (Z_le_gt_dec seed 8162278) as [Hsmall | Hlarge].
  - unfold RNG.hash, RNG.multiplier, RNG.increment, RNG.modulus.
    rewrite (round53_exact (1103515245 * seed))
      by (change (2 ^ 53) with 9007199254740992; lia).
    rewrite round53_exact by (change (2 ^ 53) with 9007199254740992; lia).
    rewrite Z.rem_mod_nonneg by lia.
    apply lcg_never_top. lia.
  - unfold RNG.hash, RNG.multiplier, RNG.increment, RNG.modulus.
    destruct (round53_large (1103515245 * seed)) as (y & Hy & Hbig).
    { change (2 ^ 53) with 9007199254740992. lia. }
    destruct (round53_large (JS.round53 (1103515245 * seed) + 12345))
      as (z & Hz & Hbig').
    { lia. }
    change (2 ^ 53) with 9007199254740992 in Hbig, Hbig'.
    rewrite Hz in *.
    rewrite Z.rem_mod_nonneg by lia.
    intros H.
    pose proof (Z.div_mod (2 * z) 2147483648 ltac:(lia)) as E.
    rewrite H in E. lia.
Qed.

Lemma scale_fraction (h : Z) : (RNG.scale h == h # 2147483647)%Q.
Proof.
  unfold RNG.scale, RNG.modulus.
  change (inject_Z (2147483648 - 1)) with (2147483647 # 1)%Q.
  unfold Qminus, Qdiv.
  unfold Qeq, Qplus, Qopp, Qmult, Qinv, inject_Z; cbn [Qnum Qden]; lia.
Qed.



(** ** C8: the schedule *)

Lemma Qeq_bool_comp (x y a b : Q) :
  (x == a)%Q -> (y == b)%Q -> Qeq_bool x y = Qeq_bool a b.
Proof.
  intros Hx Hy.
  destruct (Qeq_bool x y) eqn:E1, (Qeq_bool a b) eqn:E2; trivial.
  - apply Qeq_bool_iff in E1. rewrite Hx, Hy in E1.
    apply Qeq_bool_iff in E1. congruence.
  - apply Qeq_bool_iff in E2. rewrite <- Hx, <- Hy in E2.
    apply Qeq_bool_iff in E2. congruence.
Qed.

Lemma Qle_bool_comp (x y a b : Q) :
  (x == a)%Q -> (y == b)%Q -> Qle_bool x y = Qle_bool a b.
Proof.
  intros Hx Hy.
  destruct (Qle_bool x y) eqn:E1, (Qle_bool a b) eqn:E2; trivial.
  - apply Qle_bool_iff in E1. rewrite Hx, Hy in E1.
    apply Qle_bool_iff in E1. congruence.
  - apply Qle_bool_iff in E2. rewrite <- Hx, <- Hy in E2.
    apply Qle_bool_iff in E2. congruence.
Qed.

Lemma isArrayIndex_comp (x a : Q) : (x == a)%Q -> isArrayIndex x = isArrayIndex a.
Proof.
  intros H. unfold isArrayIndex.
  rewrite (Qred_complete x a H).
  rewrite (Qle_bool_comp 0 x 0 a (Qeq_refl 0) H).
  now rewrite (Qle_bool_comp x 4294967294 a 4294967294 H (Qeq_refl _)).
Qed.



(** *** The groups in general *)

Lemma distinct_snoc (keys : list Q) (k : Q) :
  distinct keys -> (forall k', In k' keys -> ~ (k == k')%Q) ->
  distinct (keys ++ [k]).
Proof.
  induction keys as [|a keys IH]; simpl; intros Hd Hk.
  - split; [intros k' [] | exact I].
  - destruct Hd as [Ha Hd]. split.
    + intros k' Hin. apply in_app_or in Hin. destruct Hin as [Hin | [<- | []]].
      * now apply Ha.
      * apply Hk. now left.
    + apply IH; [exact Hd|]. intros k' Hin. apply Hk. now right.
Qed.

Lemma distinct_middle (l1 l2 : list Q) (k : Q) :
  distinct (l1 ++ k :: l2) ->
  forall k', In k' (l1 ++ l2) -> ~ (k' == k)%Q.
Proof.
  induction l1 as [|a l1 IH]; simpl.
  - intros [H _]. exact H.
  - intros [Ha Hd] k' [<- | Hin].
    + intros E. apply (Ha k); [apply in_or_app; right; now left|].
      now symmetry.
    + now apply IH.
Qed.

(** What [assign] does: a new property at the end, or a new value for the
    first property with this key. *)
Lemma assign_cases (k : Q) (v : list MusicalNote) (groups : Groups) :
  (lookup k groups = None
   /\ assign k v groups = groups ++ [(k, v)]
   /\ forall e, In e groups -> ~ (k == fst e)%Q)
  \/ (exists l1 k' g l2,
        groups = l1 ++ (k', g) :: l2
        /\ (k == k')%Q
        /\ lookup k groups = Some g
        /\ assign k v groups = l1 ++ (k', v) :: l2).
Proof.
  induction groups as [|[k' g] groups IH]; simpl.
  - left. repeat split. intros e [].
  - destruct (Qeq_bool k k') eqn:E.
    + right. exists [], k', g, groups. apply Qeq_bool_iff in E. now repeat split.
    + destruct IH as [(Hl & Ha & Hn) | (l1 & k'' & g' & l2 & Hg & Hk & Hl & Ha)].
      * left. rewrite Ha. repeat split; [exact Hl|].
        intros e [<- | Hin]; [|now apply Hn].
        simpl. intros Hk. apply Qeq_bool_iff in Hk. congruence.
      * right. exists ((k', g) :: l1), k'', g', l2.
        rewrite Hg at 1. rewrite Ha. now repeat split.
Qed.

Lemma sameStart_comp (k k' : Q) (note : MusicalNote) :
  (k == k')%Q -> sameStart k note = sameStart k' note.
Proof. intros H. unfold sameStart. now apply Qeq_bool_comp. Qed.

Lemma sameStart_self (note : MusicalNote) : sameStart (startTime note) note = true.
Proof. unfold sameStart. now apply Qeq_bool_iff. Qed.

Lemma sameStart_false (k : Q) (note : MusicalNote) :
  ~ (startTime note == k)%Q -> sameStart k note = false.
Proof.
  intros H. unfold sameStart. destruct (Qeq_bool _ _) eqn:E; [|reflexivity].
  apply Qeq_bool_iff in E. contradiction.
Qed.

Lemma filter_snoc {A : Type} (p : A -> bool) (l : list A) (x : A) :
  filter p (l ++ [x]) = filter p l ++ (if p x then [x] else []).
Proof. rewrite filter_app. reflexivity. Qed.

Lemma addToGroup_grouped (notes : list MusicalNote) (groups : Groups)
      (note : MusicalNote) :
  grouped notes groups -> grouped (notes ++ [note]) (addToGroup groups note).
Proof.
  intros (Hd & Hv & Hc). unfold addToGroup.
  set (k := startTime note).
  assert (Hself : sameStart k note = true) by exact (sameStart_self note).
  destruct (assign_cases
              k (match lookup k groups with Some g => g | None => [] end ++ [note])
              groups)
    as [(Hl & Ha & Hn) | (l1 & k' & g & l2 & Hg & Hk & Hl & Ha)];
    rewrite Ha, Hl; clear Ha.
  - (* a new key *)
    assert (Hnew : filter (sameStart k) notes = []).
    { apply filter_nil_forall. intros x Hx.
      destruct (Hc x Hx) as (e & He & Hxe).
      apply sameStart_false. intros E. apply (Hn e He).
      now rewrite <- E, Hxe. }
    split; [|split].
    + rewrite map_app. apply distinct_snoc; [exact Hd|].
      intros k0 Hin. apply in_map_iff in Hin. destruct Hin as (e & <- & He).
      now apply Hn.
    + intros k0 v Hin. apply in_app_or in Hin.
      rewrite filter_snoc.
      destruct Hin as [Hin | [[= <- <-] | []]].
      * destruct (Hv k0 v Hin) as [-> Hne].
        rewrite sameStart_false by (exact (Hn (k0, _) Hin)).
        rewrite app_nil_r. now split.
      * rewrite Hnew, Hself. split; [reflexivity | discriminate].
    + intros x Hx. apply in_app_or in Hx. destruct Hx as [Hx | [<- | []]].
      * destruct (Hc x Hx) as (e & He & Hxe). exists e.
        split; [apply in_or_app; now left | exact Hxe].
      * exists (k, [] ++ [note]). split; [apply in_or_app; right; now left|].
        reflexivity.
  - (* a key that is there *)
    subst groups.
    assert (Hother : forall k0 v, In (k0, v) (l1 ++ l2) -> ~ (k0 == k')%Q).
    { intros k0 v Hin. rewrite map_app in Hd. 
      apply (distinct_middle (map fst l1) (map fst l2) k' Hd).
      rewrite <- map_app. now apply (in_map fst _ (k0, v)). }
    split; [|split].
    + rewrite map_app in *. exact Hd.
    + intros k0 v Hin. rewrite filter_snoc.
      apply in_app_or in Hin. destruct Hin as [Hin | [[= <- <-] | Hin]].
      * destruct (Hv k0 v) as [-> Hne]; [apply in_or_app; now left|].
        rewrite sameStart_false.
        -- rewrite app_nil_r. now split.
        -- fold k. rewrite Hk. intros E. apply (Hother k0 _ (in_or_app _ _ _ (or_introl Hin))).
           now symmetry.
      * destruct (Hv k' g) as [-> Hne]; [apply in_or_app; right; now left|].
        rewrite <- (sameStart_comp k k' note Hk), Hself.
        split; [reflexivity|].
        intros E. now apply app_eq_nil in E.
      * destruct (Hv k0 v) as [-> Hne]; [apply in_or_app; right; now right|].
        rewrite sameStart_false.
        -- rewrite app_nil_r. now split.
        -- fold k. rewrite Hk. intros E. apply (Hother k0 _ (in_or_app _ _ _ (or_intror Hin))).
           now symmetry.
    + intros x Hx. apply in_app_or in Hx. destruct Hx as [Hx | [<- | []]].
      * destruct (Hc x Hx) as (e & He & Hxe).
        apply in_app_or in He. destruct He as [He | [<- | He]].
        -- exists e. split; [apply in_or_app; now left | exact Hxe].
        -- exists (k', g ++ [note]). split; [apply in_or_app; right; now left|].
           exact Hxe.
        -- exists e. split; [apply in_or_app; right; now right | exact Hxe].
      * exists (k', g ++ [note]). split; [apply in_or_app; right; now left|].
        exact Hk.
Qed.

Lemma fold_addToGroup_grouped (notes : list MusicalNote) :
  grouped notes (fold_left addToGroup notes []).
Proof.
  induction notes as [|note notes IH] using rev_ind.
  - repeat split; simpl; trivial; intros; contradiction.
  - rewrite fold_left_app. simpl. now apply addToGroup_grouped.
Qed.







(** *** Sorted input: a group is a run *)

Lemma filter_all {A : Type} (p : A -> bool) (l : list A) :
  (forall x, In x l -> p x = true) -> filter p l = l.
Proof.
  induction l as [|a l IH]; simpl; intros H; [reflexivity|].
  rewrite H by now left. f_equal. apply IH. intros x Hx. apply H. now right.
Qed.


(** *** The delays in general *)

Lemma delayStep_spec (stored s : ScheduledNotes.t) (g : list MusicalNote) :
  delayStep stored g = Some s ->
  ScheduledNotes.group s = g
  /\ exists first,
       hd_error g = Some first
       /\ ScheduledNotes.startTime s = Some (startTime first)
       /\ ScheduledNotes.delay s
          = match ScheduledNotes.startTime stored with
            | None => 0%Q
            | Some before => (startTime first - before)%Q
            end.
Proof.
  unfold delayStep. destruct g as [|first rest]; [discriminate|].
  intros [= <-]. split; [reflexivity|]. exists first. now repeat split.
Qed.

(** What the scan emits: a value for each group, in order; the first delay
    is taken from the stored start time, each later one from the start time
    of the group before. *)
Lemma scanDelays_spec (groups : list (list MusicalNote)) :
  forall (stored : ScheduledNotes.t) (emitted : list ScheduledNotes.t),
    scanDelays stored groups = Some emitted ->
    map ScheduledNotes.group emitted = groups
    /\ (forall s first,
           hd_error emitted = Some s ->
           hd_error (ScheduledNotes.group s) = Some first ->
           ScheduledNotes.delay s
           = match ScheduledNotes.startTime stored with
             | None => 0%Q
             | Some before => (startTime first - before)%Q
             end)
    /\ (forall i s s' first first',
           nth_error emitted i = Some s ->
           nth_error emitted (S i) = Some s' ->
           hd_error (ScheduledNotes.group s) = Some first ->
           hd_error (ScheduledNotes.group s') = Some first' ->
           ScheduledNotes.delay s' = (startTime first' - startTime first)%Q).
Proof.
  induction groups as [|g groups IH]; intros stored emitted; simpl.
  - intros [= <-]. split; [reflexivity|].
    split; [discriminate | intros [|i]; discriminate].
  - destruct (delayStep stored g) as [s0|] eqn:Hstep; [|discriminate].
    destruct (scanDelays s0 groups) as [rest|] eqn:Hrest; [|discriminate].
    intros [= <-].
    destruct (delayStep_spec stored s0 g Hstep) as (Hg & f0 & Hf0 & Hs0 & Hd0).
    destruct (IH s0 rest Hrest) as (Hmap & Hfirst & Hnext).
    split; [simpl; now rewrite Hg, Hmap|]. split.
    + intros s first [= <-] Hhd. rewrite Hg, Hf0 in Hhd.
      injection Hhd as <-. exact Hd0.
    + intros [|i] s s' first first'; simpl.
      * intros [= <-] Hs' Hhd Hhd'. rewrite Hg, Hf0 in Hhd.
        injection Hhd as <-.
        assert (Hs'' : hd_error rest = Some s') by (destruct rest; exact Hs').
        rewrite (Hfirst s' first' Hs'' Hhd'). now rewrite Hs0.
      * apply Hnext.
Qed.

Lemma scanDelays_total (groups : list (list MusicalNote)) :
  (forall g, In g groups -> g <> []) ->
  forall stored, exists emitted, scanDelays stored groups = Some emitted.
Proof.
  induction groups as [|g groups IH]; intros Hne stored; simpl.
  - now exists [].
  - destruct g as [|first g'] eqn:Eg.
    + exfalso. now apply (Hne []); [left|].
    + simpl.
      destruct (IH (fun x Hx => Hne x (or_intror Hx))
                   (ScheduledNotes.mk
                      match ScheduledNotes.startTime stored with
                      | Some s => (startTime first - s)%Q
                      | None => 0%Q
                      end (Some (startTime first)) (first :: g')))
        as (rest & ->).
      simpl. eauto.
Qed.



(** * Further properties of the program *)

(** ** The counters along a play *)

Lemma count_cons (p : GameAction -> bool) (action : GameAction)
      (actions : list GameAction) :
  count p (action :: actions)
  = ((if p action then 1 else 0) + count p actions)%nat.
Proof. unfold count. simpl. now destruct (p action). Qed.

Lemma execute_tickCount (action : GameAction) (state : GameState) :
  tickCount (execute action state)
  = tickCount state + (if isGameTick action then 1 else 0).
Proof. destruct action; cbn; lia. Qed.

(** X1: [tickCount] counts the [GameTick] actions and nothing else: the
    board is also advanced by [EndGame] and [AddNextNote], which leave the
    counter alone. *)
Theorem tickCount_counts_GameTick (actions : list GameAction) :
  forall state : GameState,
    tickCount (run state actions)
    = tickCount state + Z.of_nat (count isGameTick actions).
Proof.
  induction actions as [|action actions IH]; intros state.
  - simpl. lia.
  - simpl run. unfold applyGameAction. rewrite IH, execute_tickCount, count_cons.
    destruct (isGameTick action); lia.
Qed.

Lemma execute_allNotesFinished (action : GameAction) (state : GameState) :
  allNotesFinished (execute action state)
  = allNotesFinished state || isEndGame action.
Proof.
  destruct action; cbn; rewrite ?orb_false_r, ?orb_true_r; reflexivity.
Qed.

(** X2: [allNotesFinished] is set by [EndGame] and cleared by nothing: after
    a play it holds exactly if it held before or the play has an [EndGame]. *)
Theorem allNotesFinished_after_run (actions : list GameAction) :
  forall state : GameState,
    allNotesFinished (run state actions)
    = allNotesFinished state || existsb isEndGame actions.
Proof.
  induction actions as [|action actions IH]; intros state; simpl.
  - now rewrite orb_false_r.
  - unfold applyGameAction. rewrite IH, execute_allNotesFinished.
    now rewrite orb_assoc.
Qed.

Lemma execute_randomSeed (action : GameAction) (state : GameState) :
  randomSeed (execute action state)
  = if advancesSeed action then RNG.hash (randomSeed state)
    else randomSeed state.
Proof. destruct action; reflexivity. Qed.

(** X3: the seed is re-hashed once by every [PressButton] and every
    [AddNextNote] and by no other action: after a play it is the seed
    before, hashed as many times as the play has such actions. *)
Theorem randomSeed_after_run (actions : list GameAction) :
  forall state : GameState,
    randomSeed (run state actions)
    = Nat.iter (count advancesSeed actions) RNG.hash (randomSeed state).
Proof.
  induction actions as [|action actions IH]; intros state.
  - reflexivity.
  - simpl run. unfold applyGameAction.
    rewrite IH, execute_randomSeed, count_cons.
    destruct (advancesSeed action); simpl Nat.add.
    + now rewrite Nat.iter_succ_r.
    + reflexivity.
Qed.

Lemma activated_iff_hit (c : Z) (state : GameState) :
  activated (activationStatus c state) = true
  <-> exists note, In note (activeNotes state) /\ inHitWindow c note = true.
Proof.
  destruct (activationStatus_spec c state) as [Hact _]. rewrite Hact.
  rewrite negb_true_iff. split.
  - intros H.
    destruct (filter (inHitWindow c) (activeNotes state)) as [|note l] eqn:E;
      [discriminate|].
    exists note. apply filter_In. rewrite E. now left.
  - intros (note & Hin & Hhit).
    destruct (filter (inHitWindow c) (activeNotes state)) as [|x l] eqn:E;
      [|reflexivity].
    assert (Hx : In note (filter (inHitWindow c) (activeNotes state)))
      by (apply filter_In; now split).
    rewrite E in Hx. contradiction.
Qed.

Lemma execute_notesPlayed (action : GameAction) (state : GameState) :
  notesPlayed (execute action state)
  = match action with
    | PressButton c =>
        if activated (activationStatus c state)
        then notesPlayed state + 1 else notesPlayed state
    | _ => notesPlayed state
    end.
Proof.
  destruct action; cbn [execute]; try reflexivity.
  - unfold GameTick_execute, advanceTick, with_tickCount. cbn [notesPlayed].
    now destruct (isEmpty _).
  - unfold EndGame_execute, advanceTick. cbn [notesPlayed].
    now destruct (isEmpty _).
  - unfold AddNextNote_execute, advanceTick. cbn [notesPlayed].
    now destruct (isEmpty _).
Qed.

(** X4: [notesPlayed] never goes down, and so the multiplier is never
    reset: a tick that lets a note drop unplayed leaves it as it is (both
    branches of the conditional in [advanceTick] are the old value).  Only a
    press changes it, by one and exactly when it hits; after a play it has
    grown by at most the number of presses. *)
Theorem notesPlayed_never_decreases (actions : list GameAction) :
  forall state : GameState,
    (forall action,
        notesPlayed (execute action state)
        = match action with
          | PressButton c =>
              if activated (activationStatus c state)
              then notesPlayed state + 1 else notesPlayed state
          | _ => notesPlayed state
          end)
    /\ notesPlayed state <= notesPlayed (run state actions)
       <= notesPlayed state + Z.of_nat (count isPress actions).
Proof.
  induction actions as [|action actions IH]; intros state;
    (split; [intros a; apply execute_notesPlayed|]).
  - simpl. lia.
  - simpl run. unfold applyGameAction.
    destruct (IH (execute action state)) as [_ Hrun].
    rewrite execute_notesPlayed in Hrun. rewrite count_cons.
    destruct action as [c|c| | |group]; cbn [isPress] in *; try lia.
    destruct (activated (activationStatus c state)); lia.
Qed.

(** ** When a note sounds *)

Lemma Qeq_bool_true (x y : Q) : (x == y)%Q -> Qeq_bool x y = true.
Proof. apply Qeq_bool_iff. Qed.

Lemma ltb_irrefl (x y : Q) : (x == y)%Q -> JS.ltb x y = false.
Proof.
  intros H. destruct (JS.ltb x y) eqn:E; [|reflexivity].
  apply ltb_true_iff in E. rewrite H in E. now apply Qlt_irrefl in E.
Qed.

(** A tick makes a note sound exactly when the note is resolved and the
    tick takes it onto the last row. *)
Lemma sound_on_landing (note : MusicalNote) :
  (forall n', sound note = Some n' ->
              visible note = false
              /\ (yPos note + GameSettings.INCREMENT == GameSettings.LAST_ROW)%Q
              /\ yPos n' = (yPos note + GameSettings.INCREMENT)%Q
              /\ id n' = id note
              /\ (tail note = None -> keep note = None)
              /\ (tail note <> None -> keep note = Some n'))
  /\ (visible note = false ->
      (yPos note + GameSettings.INCREMENT == GameSettings.LAST_ROW)%Q ->
      exists n', sound note = Some n').
Proof.
  unfold sound, keep, calcPositionForGame, updateNoteYPos. split.
  - intros n'. destruct (tail note) as [t|] eqn:Et.
    + destruct (visible note); split_ifs; note_simpl; intros [= <-];
        note_simpl; split_all; trivial;
        try (now apply Qeq_bool_iff); congruence.
    + split_ifs; note_simpl; intros [= <-]; note_simpl; split_all; trivial;
        try (now apply Qeq_bool_iff); congruence.
  - intros Hv Hy. rewrite Hv.
    rewrite (Qeq_bool_true _ _ Hy), (ltb_irrefl _ _ Hy).
    assert (Hle : Qle_bool (yPos note + GameSettings.INCREMENT)
                           GameSettings.LAST_ROW = true)
      by (apply Qle_bool_iff; rewrite Hy; apply Qle_refl).
    rewrite Hle. destruct (tail note); simpl; eauto.
Qed.

Lemma execute_readyNotes (action : GameAction) (state : GameState) :
  advancesBoard action = true ->
  readyNotes (execute action state)
  = map Sound (collect sound (activeNotes state ++ arrivals action)).
Proof.
  destruct action as [c|c| | |group]; try discriminate; intros _;
    cbn [execute arrivals]; rewrite ?app_nil_r.
  - apply (advanceTick_readyNotes state).
  - apply (advanceTick_readyNotes (with_allNotesFinished state true)).
  - unfold AddNextNote_execute. now rewrite advanceTick_readyNotes.
Qed.

Lemma in_map_Sound (n : MusicalNote) (l : list MusicalNote) :
  In (Sound n) (map Sound l) <-> In n l.
Proof.
  rewrite in_map_iff. split.
  - intros (x & [= ->] & H). exact H.
  - intros H. eauto.
Qed.

Lemma landing_iff (note : MusicalNote) :
  landing note = true
  <-> visible note = false
      /\ (yPos note + GameSettings.INCREMENT == GameSettings.LAST_ROW)%Q.
Proof.
  unfold landing. rewrite andb_true_iff, negb_true_iff, Qeq_bool_iff. tauto.
Qed.

(** What sounds is the note, moved. *)
Lemma sound_frame (note n' : MusicalNote) :
  sound note = Some n' ->
  column n' = column note
  /\ instrument n' = instrument note
  /\ volume n' = volume note
  /\ pitch n' = pitch note
  /\ startTime n' = startTime note
  /\ endTime n' = endTime note.
Proof.
  unfold sound, calcPositionForGame, updateNoteYPos.
  destruct (tail note); split_ifs; note_simpl; intros [= <-];
    now split_all.
Qed.

(** One note sounds for each landing note, in the order of the board. *)
Lemma collect_sound_landing (board : list MusicalNote) :
  Forall2 (fun ready note =>
             exists n',
               ready = Sound n'
               /\ sound note = Some n'
               /\ landing note = true)
          (map Sound (collect sound board)) (filter landing board).
Proof.
  induction board as [|note board IH]; cbn [collect filter map];
    [constructor|].
  destruct (sound note) as [n'|] eqn:Hs.
  - destruct (proj1 (sound_on_landing note) n' Hs) as (Hv & Hy & _).
    assert (Hl : landing note = true) by (apply landing_iff; now split).
    rewrite Hl. cbn [map]. constructor; [|exact IH].
    exists n'. now split_all.
  - destruct (landing note) eqn:Hl; [exfalso|exact IH].
    apply landing_iff in Hl. destruct Hl as [Hv Hy].
    destruct (proj2 (sound_on_landing note) Hv Hy) as (n' & Hn').
    congruence.
Qed.

(** X5: after an action that advances the board, [readyNotes] holds
    exactly one note for each note on the board (the arriving ones
    included) that was resolved and one step above the last row, in the
    order of the board, and nothing else: a visible note never sounds by
    itself, a resolved one sounds once, on the tick on which it lands, and
    the fillers of earlier wrong presses are gone.  What sounds is the note
    itself, one step lower.  A landing note without a tail is not kept on
    the board; one with a tail is. *)
Theorem notes_sound_on_landing (action : GameAction) (state : GameState) :
  advancesBoard action = true ->
  let board := activeNotes state ++ arrivals action in
  let state' := execute action state in
  Forall2 (fun ready note =>
             exists n',
               ready = Sound n'
               /\ id n' = id note
               /\ yPos n' = (yPos note + GameSettings.INCREMENT)%Q
               /\ column n' = column note
               /\ instrument n' = instrument note
               /\ volume n' = volume note
               /\ pitch n' = pitch note
               /\ startTime n' = startTime note
               /\ endTime n' = endTime note
               /\ (tail note = None -> keep note = None)
               /\ (tail note <> None -> keep note = Some n'))
          (readyNotes state') (filter landing board)
  /\ List.length (readyNotes state') = List.length (filter landing board)
  /\ (forall ready, In ready (readyNotes state') ->
        exists note n',
          ready = Sound n'
          /\ In note board
          /\ visible note = false
          /\ (yPos note + GameSettings.INCREMENT == GameSettings.LAST_ROW)%Q
          /\ id n' = id note
          /\ yPos n' = (yPos note + GameSettings.INCREMENT)%Q
          /\ (tail note = None -> keep note = None)
          /\ (tail note <> None -> keep note = Some n'))
  /\ (forall note,
        In note board ->
        visible note = false ->
        (yPos note + GameSettings.INCREMENT == GameSettings.LAST_ROW)%Q ->
        exists n', In (Sound n') (readyNotes state') /\ id n' = id note).
Proof.
  intros Hadv board state'. subst state'.
  rewrite (execute_readyNotes action state Hadv). fold board.
  assert (Hall : Forall2
                   (fun ready note =>
                      exists n',
                        ready = Sound n'
                        /\ id n' = id note
                        /\ yPos n' = (yPos note + GameSettings.INCREMENT)%Q
                        /\ column n' = column note
                        /\ instrument n' = instrument note
                        /\ volume n' = volume note
                        /\ pitch n' = pitch note
                        /\ startTime n' = startTime note
                        /\ endTime n' = endTime note
                        /\ (tail note = None -> keep note = None)
                        /\ (tail note <> None -> keep note = Some n'))
                   (map Sound (collect sound board)) (filter landing board)).
  { eapply Forall2_impl; [|apply collect_sound_landing].
    intros ready note (n' & -> & Hs & _).
    destruct (proj1 (sound_on_landing note) n' Hs)
      as (_ & _ & Hy' & Hid & Hgone & Hstay).
    destruct (sound_frame note n' Hs) as (H1 & H2 & H3 & H4 & H5 & H6).
    exists n'. now split_all. }
  split; [exact Hall|].
  split; [exact (Forall2_length Hall)|]. split.
  - intros ready Hin. apply in_map_iff in Hin.
    destruct Hin as (n' & <- & Hin). apply in_collect in Hin.
    destruct Hin as (note & Hnote & Hs).
    destruct (proj1 (sound_on_landing note) n' Hs)
      as (Hv & Hy & Hy' & Hid & Hgone & Hstay).
    exists note, n'. now split_all.
  - intros note Hnote Hv Hy.
    destruct (proj2 (sound_on_landing note) Hv Hy) as (n' & Hs).
    exists n'. split.
    + apply in_map_Sound, in_collect. eauto.
    + now destruct (proj1 (sound_on_landing note) n' Hs) as (_ & _ & _ & Hid & _).
Qed.

Lemma notes_sound_on_landing_witness :
  let launched := run defaultState
                      (AddNextNote [shortNote] :: repeat GameTick 320
                       ++ PressButton 0 :: repeat GameTick 28) in
  List.length (readyNotes (execute GameTick launched)) = 1%nat
  /\ exists n',
       In (Sound n') (readyNotes (execute GameTick launched)) /\ id n' = 1.
Proof.
  intros launched.
  assert (Hboard : exists note,
             In note (activeNotes launched ++ arrivals GameTick)
             /\ visible note = false
             /\ (yPos note + GameSettings.INCREMENT == GameSettings.LAST_ROW)%Q
             /\ id note = 1).
  { vm_compute. eexists. split; [left; reflexivity|]. now split_all. }
  destruct Hboard as (note & Hin & Hv & Hy & Hid).
  destruct (notes_sound_on_landing GameTick launched eq_refl)
    as (_ & Hlen & _ & Hsound).
  split.
  - rewrite Hlen. vm_compute. reflexivity.
  - rewrite <- Hid. exact (Hsound note Hin Hv Hy).
Defined.

(** ** What an action leaves of a note *)

Lemma successor_frame (action : GameAction) (note next : MusicalNote) :
  successor action note = Some next ->
  id next = id note
  /\ column next = column note
  /\ instrument next = instrument note
  /\ volume next = volume note
  /\ pitch next = pitch note
  /\ startTime next = startTime note
  /\ endTime next = endTime note
  /\ yPos next = (if advancesBoard action
                  then (yPos note + GameSettings.INCREMENT)%Q
                  else yPos note)
  /\ (visible note = false -> visible next = false).
Proof.
  destruct action as [c|c| | |group]; cbn [successor advancesBoard].
  - intros [= <-]. unfold releaseNote.
    destruct (tail note); [destruct (heldTail c note)|]; now split_all.
  - intros [= <-]. unfold pressNote.
    destruct (inHitWindow c note); now split_all.
  - unfold keep, calcPositionForGame, updateNoteYPos.
    destruct (tail note); split_ifs; note_simpl; intros [= <-];
      now split_all.
  - unfold keep, calcPositionForGame, updateNoteYPos.
    destruct (tail note); split_ifs; note_simpl; intros [= <-];
      now split_all.
  - unfold keep, calcPositionForGame, updateNoteYPos.
    destruct (tail note); split_ifs; note_simpl; intros [= <-];
      now split_all.
Qed.

(** X6: whatever the actions, a note that is still on the board has the
    [id], [column], [instrument], [volume], [pitch], [startTime] and
    [endTime] it came with; it has moved down by one [INCREMENT] for each
    action that advances the board ([GameTick], [EndGame], [AddNextNote])
    and not at all for a press or a release; and once it is resolved it is
    never visible again. *)
Theorem note_along_a_play (actions : list GameAction) :
  forall note note' : MusicalNote,
    descendant actions note = Some note' ->
    id note' = id note
    /\ column note' = column note
    /\ instrument note' = instrument note
    /\ volume note' = volume note
    /\ pitch note' = pitch note
    /\ startTime note' = startTime note
    /\ endTime note' = endTime note
    /\ (yPos note'
        == yPos note
           + inject_Z (Z.of_nat (count advancesBoard actions))
             * GameSettings.INCREMENT)%Q
    /\ (visible note = false -> visible note' = false).
Proof.
  induction actions as [|action actions IH]; intros note note'; simpl.
  - intros [= <-]. split_all; trivial.
    unfold count. simpl. change (inject_Z 0) with 0%Q. ring.
  - destruct (successor action note) as [next|] eqn:Hs; [|discriminate].
    intros Hd.
    destruct (successor_frame action note next Hs)
      as (H1 & H2 & H3 & H4 & H5 & H6 & H7 & Hy & Hv).
    destruct (IH next note' Hd)
      as (K1 & K2 & K3 & K4 & K5 & K6 & K7 & Ky & Kv).
    split_all; try congruence; [|tauto].
    rewrite Ky, Hy, count_cons.
    destruct (advancesBoard action); simpl Nat.add.
    + rewrite Nat2Z.inj_succ, <- Z.add_1_r, inject_Z_plus.
      change (inject_Z 1) with 1%Q. ring.
    + ring.
Qed.

Lemma note_along_a_play_witness :
  (yPos releasedNoteLater
   == yPos releasedNote
      + inject_Z (Z.of_nat (count advancesBoard afterRelease))
        * GameSettings.INCREMENT)%Q.
Proof.
  apply (note_along_a_play afterRelease releasedNote releasedNoteLater).
  vm_compute. reflexivity.
Defined.

(** ** A release costs only what a press has earned *)

(** The column whose release would cost this note's penalty. *)
Lemma successor_held (action : GameAction) (c : Z) (note next : MusicalNote) :
  successor action note = Some next ->
  isPress action = false ->
  heldTail c next = true -> heldTail c note = true.
Proof.
  destruct action as [c'|c'| | |group]; cbn [successor isPress];
    try discriminate; intros Hs _.
  - injection Hs as <-. unfold releaseNote, heldTail.
    destruct (tail note) as [t|] eqn:Et; rewrite ?Et; [|trivial].
    destruct (column note =? c') eqn:E1; destruct (column note =? c) eqn:E2;
      destruct (visible note) eqn:E3; destruct (truthy (inactive t)) eqn:Ei;
      cbn [andb negb]; note_simpl; rewrite ?Et, ?E2, ?E3, ?Ei; cbn [andb negb];
      trivial; discriminate.
  - revert Hs. unfold keep, calcPositionForGame, updateNoteYPos, heldTail.
    destruct (tail note) as [t|] eqn:Et;
      [destruct (visible note) eqn:Ev|];
      split_ifs; note_simpl; intros [= <-]; note_simpl;
      rewrite ?Et, ?Ev, ?andb_false_r; trivial; discriminate.
  - revert Hs. unfold keep, calcPositionForGame, updateNoteYPos, heldTail.
    destruct (tail note) as [t|] eqn:Et;
      [destruct (visible note) eqn:Ev|];
      split_ifs; note_simpl; intros [= <-]; note_simpl;
      rewrite ?Et, ?Ev, ?andb_false_r; trivial; discriminate.
  - revert Hs. unfold keep, calcPositionForGame, updateNoteYPos, heldTail.
    destruct (tail note) as [t|] eqn:Et;
      [destruct (visible note) eqn:Ev|];
      split_ifs; note_simpl; intros [= <-]; note_simpl;
      rewrite ?Et, ?Ev, ?andb_false_r; trivial; discriminate.
Qed.

Lemma noteWithTail_not_held (c : Z) (note : MusicalNote) :
  heldTail c (noteWithTail note) = false.
Proof.
  unfold noteWithTail, heldTail.
  destruct (visible note) eqn:Ev; cbn [andb]; [|reflexivity].
  destruct (JS.ltb 1000 (JS.round64 (endTime note - startTime note)));
    note_simpl; [|reflexivity].
  rewrite Ev. now rewrite andb_false_r.
Qed.

Lemma release_points_unchanged (c : Z) (state : GameState) :
  filter (heldTail c) (activeNotes state) = [] ->
  JS.int32 (points state) ->
  points (execute (ReleaseButton c) state) = points state.
Proof.
  intros Hnone Hrange. cbn [execute ReleaseButton_execute points].
  rewrite releasePoints_spec, Hnone. cbn [List.length].
  change (Nat.iter 0 _ ?x) with x.
  unfold JS.toInt32. rewrite trunc_inject_Z. now apply wrap32_int32.
Qed.

Lemma execute_none_held (action : GameAction) (state : GameState) :
  isPress action = false ->
  (forall note c, In note (activeNotes state) -> heldTail c note = false) ->
  (forall note c, In note (activeNotes (execute action state)) ->
                  heldTail c note = false)
  /\ (JS.int32 (points state) -> points (execute action state) = points state).
Proof.
  intros Hpress Hnone. split.
  - intros next c. rewrite execute_activeNotes, in_collect.
    intros (note & Hin & Hs).
    destruct (heldTail c next) eqn:E; [|reflexivity].
    rewrite <- (successor_held action c note next Hs Hpress E).
    apply in_app_or in Hin. destruct Hin as [Hin | Hin]; [now apply Hnone|].
    destruct action; simpl in Hin; try contradiction.
    apply in_map_iff in Hin. destruct Hin as (raw & <- & _).
    apply noteWithTail_not_held.
  - intros Hrange. destruct action as [c|c| | |group];
      try discriminate; try reflexivity.
    apply release_points_unchanged; [|exact Hrange].
    apply filter_nil_forall. intros note Hin. now apply Hnone.
Qed.

(** X7: a release takes points only for notes that a press has resolved.
    A tick resolves an unplayed long note with its tail already inactive,
    and an arriving note with a tail is visible, so in a play without a
    press, from a state with no held tail and a score in the 32-bit range,
    the score and the count of played notes stay as they are, whatever is
    released. *)
Theorem no_penalty_without_press (actions : list GameAction) :
  forall state : GameState,
    Forall (fun action => isPress action = false) actions ->
    (forall note c, In note (activeNotes state) -> heldTail c note = false) ->
    JS.int32 (points state) ->
    points (run state actions) = points state
    /\ notesPlayed (run state actions) = notesPlayed state.
Proof.
  induction actions as [|action actions IH]; intros state Hall Hnone Hrange.
  - now split.
  - inversion Hall as [|a l Hpress Hrest]; subst. simpl run.
    unfold applyGameAction.
    destruct (execute_none_held action state Hpress Hnone) as [Hnone' Hpts].
    specialize (Hpts Hrange).
    destruct (IH (execute action state) Hrest Hnone') as [Hp Hn].
    { now rewrite Hpts. }
    rewrite Hp, Hn, Hpts, execute_notesPlayed.
    split; [reflexivity|]. destruct action; try reflexivity. discriminate.
Qed.

Lemma no_penalty_without_press_witness :
  let actions := AddNextNote [longNote] :: repeat GameTick 351
                 ++ [ReleaseButton 0; GameTick; ReleaseButton 0; EndGame] in
  points (run defaultState actions) = points defaultState
  /\ notesPlayed (run defaultState actions) = notesPlayed defaultState.
Proof.
  intros actions.
  apply (no_penalty_without_press actions defaultState).
  - unfold actions. constructor; [reflexivity|].
    apply Forall_app. split.
    + apply Forall_forall. intros a Ha. apply repeat_spec in Ha. now subst.
    + repeat (constructor; [reflexivity|]). constructor.
  - intros note c [].
  - unfold JS.int32. simpl. lia.
Defined.

(** ** The same key twice *)

Lemma inHitWindow_pressNote (c : Z) (note : MusicalNote) :
  inHitWindow c (pressNote c note) = false.
Proof.
  unfold pressNote. destruct (inHitWindow c note) eqn:E; [|exact E].
  unfold inHitWindow. note_simpl. apply andb_false_r.
Qed.

Lemma heldTail_releaseNote (c : Z) (note : MusicalNote) :
  heldTail c (releaseNote c note) = false.
Proof.
  unfold releaseNote.
  destruct (tail note) as [t|] eqn:Et.
  - destruct (heldTail c note) eqn:E; [|exact E].
    unfold heldTail. note_simpl. apply andb_false_r.
  - unfold heldTail. now rewrite Et.
Qed.

(** X8: a second press of the same column, with no tick in between, hits
    nothing: the first press has made every note it could hit invisible.
    The board, the count of played notes and the score are as the first
    press left them, in every state. *)
Theorem second_press_hits_nothing (state : GameState) (c : Z) :
  let once := execute (PressButton c) state in
  let twice := execute (PressButton c) once in
  activated (activationStatus c once) = false
  /\ activeNotes twice = activeNotes once
  /\ notesPlayed twice = notesPlayed once
  /\ points twice = points once.
Proof.
  intros once twice.
  assert (Hmiss : forall note, In note (activeNotes once) ->
                               inHitWindow c note = false).
  { intros note Hin. apply in_map_iff in Hin.
    destruct Hin as (before & <- & _). apply inHitWindow_pressNote. }
  assert (Hnone : filter (inHitWindow c) (activeNotes once) = [])
    by now apply filter_nil_forall.
  destruct (activationStatus_spec c once) as [Hact Hpts].
  rewrite Hnone in Hact, Hpts. simpl in Hact.
  split; [exact Hact|]. split; [|split].
  - apply map_unchanged. intros note Hin. unfold pressNote.
    now rewrite (Hmiss note Hin).
  - subst twice. cbn [execute PressButton_execute notesPlayed].
    now rewrite Hact.
  - subst twice. cbn [execute PressButton_execute points].
    assert (E : (acc_points (activationStatus c once)
                 == inject_Z (points once))%Q).
    { rewrite Hpts. reflexivity. }
    rewrite (toInt32_comp _ _ E). unfold JS.toInt32.
    rewrite trunc_inject_Z. apply wrap32_int32.
    subst once. cbn [execute PressButton_execute points].
    apply wrap32_range.
Qed.

(** X9: a second release of the same column is free: the first has marked
    every held tail of the column inactive, so the second changes neither
    the board nor the score, in every state. *)
Theorem second_release_is_free (state : GameState) (c : Z) :
  let once := execute (ReleaseButton c) state in
  let twice := execute (ReleaseButton c) once in
  activeNotes twice = activeNotes once
  /\ points twice = points once
  /\ notesPlayed twice = notesPlayed state.
Proof.
  intros once twice.
  assert (Hfree : forall note, In note (activeNotes once) ->
                               heldTail c note = false).
  { intros note Hin. apply in_map_iff in Hin.
    destruct Hin as (before & <- & _). apply heldTail_releaseNote. }
  split; [|split; [|reflexivity]].
  - apply map_unchanged. intros note Hin. apply releaseNote_not_held.
    now apply Hfree.
  - apply release_points_unchanged.
    + now apply filter_nil_forall.
    + subst once. cbn [execute ReleaseButton_execute points].
      apply wrap32_range.
Qed.

(** ** The two schedulers *)

Lemma concat_Permutation {A : Type} (l1 l2 : list (list A)) :
  Permutation l1 l2 -> Permutation (List.concat l1) (List.concat l2).
Proof.
  induction 1; simpl.
  - constructor.
  - now apply Permutation_app_head.
  - rewrite !app_assoc. apply Permutation_app_tail, Permutation_app_comm.
  - etransitivity; eassumption.
Qed.

Lemma insertByKey_Permutation (e : Q * list MusicalNote) (l : Groups) :
  Permutation (insertByKey e l) (e :: l).
Proof.
  induction l as [|a l IH]; simpl; [reflexivity|].
  destruct (Qle_bool (fst e) (fst a)); [reflexivity|].
  etransitivity; [apply perm_skip, IH | apply perm_swap].
Qed.

Lemma sortByKey_Permutation (l : Groups) : Permutation (sortByKey l) l.
Proof.
  induction l as [|a l IH]; simpl; [constructor|].
  etransitivity; [apply insertByKey_Permutation | now apply perm_skip].
Qed.

Lemma filter_partition_Permutation {A : Type} (p : A -> bool) (l : list A) :
  Permutation (filter p l ++ filter (fun x => negb (p x)) l) l.
Proof.
  induction l as [|a l IH]; simpl; [constructor|].
  destruct (p a); simpl.
  - now apply perm_skip.
  - etransitivity; [symmetry; apply Permutation_middle | now apply perm_skip].
Qed.

(** [Object.values] gives the values of the record, each one once. *)
Lemma Object_values_Permutation (groups : Groups) :
  Permutation (Object_values groups) (map snd groups).
Proof.
  unfold Object_values. apply Permutation_map.
  etransitivity;
    [apply Permutation_app_tail, sortByKey_Permutation
    | apply (filter_partition_Permutation (fun e => isArrayIndex (fst e)))].
Qed.

Lemma addToGroup_concat (notes : list MusicalNote) (groups : Groups)
      (note : MusicalNote) :
  Permutation (List.concat (map snd groups)) notes ->
  Permutation (List.concat (map snd (addToGroup groups note))) (notes ++ [note]).
Proof.
  intros H. unfold addToGroup.
  destruct (assign_cases
              (startTime note)
              (match lookup (startTime note) groups with
               | Some g => g | None => [] end ++ [note])
              groups)
    as [(Hl & Ha & _) | (l1 & k' & g & l2 & Hg & _ & Hl & Ha)];
    rewrite Ha, Hl; clear Ha Hl.
  - rewrite map_app, concat_app. simpl.
    now apply Permutation_app_tail.
  - subst groups. rewrite map_app, concat_app in *. simpl in *.
    etransitivity; [|apply Permutation_app_tail, H].
    rewrite <- !app_assoc. apply Permutation_app_head, Permutation_app_head.
    apply Permutation_app_comm.
Qed.

Lemma fold_addToGroup_concat (notes : list MusicalNote) :
  Permutation (List.concat (map snd (fold_left addToGroup notes []))) notes.
Proof.
  induction notes as [|note notes IH] using rev_ind; [constructor|].
  rewrite fold_left_app. simpl. now apply addToGroup_concat.
Qed.

(** X10: neither scheduler loses a note or plays one twice: the groups of
    [scheduleNotes] and those of [scheduleNotes$], put end to end, are the
    input up to order, and the two make the same groups, up to the order of
    the groups. *)
Theorem schedulers_keep_every_note (notes : list MusicalNote) :
  Permutation (List.concat (scheduleNotes notes)) notes
  /\ Permutation (List.concat (scheduleNotes_stream notes)) notes
  /\ Permutation (scheduleNotes notes) (scheduleNotes_stream notes).
Proof.
  unfold scheduleNotes, scheduleNotes_stream.
  split; [|split].
  - etransitivity;
      [apply concat_Permutation, Object_values_Permutation
      | apply fold_addToGroup_concat].
  - apply fold_addToGroup_concat.
  - apply Object_values_Permutation.
Qed.

(** *** Chronological input *)

Lemma chronological_app (l1 l2 : list MusicalNote) :
  chronological (l1 ++ l2) ->
  chronological l1 /\ chronological l2
  /\ forall a b, In a l1 -> In b l2 -> (startTime a <= startTime b)%Q.
Proof.
  induction l1 as [|x l1 IH]; simpl.
  - intros H. repeat split; trivial; contradiction.
  - intros [Hl Hr]. destruct (IH Hr) as (H1 & H2 & H3).
    split; [split; [|exact H1]|split; [exact H2|]].
    + intros later Hin. apply Hl, in_or_app. now left.
    + intros a b [<-|Ha] Hb; [apply Hl, in_or_app; now right | now apply H3].
Qed.

Lemma ascending_snoc (keys : list Q) (k : Q) :
  ascending keys -> (forall k', In k' keys -> (k' < k)%Q) ->
  ascending (keys ++ [k]).
Proof.
  induction keys as [|x keys IH]; simpl.
  - intros _ _. split; [intros k' []|exact I].
  - intros [Hx Hrest] Hlt. split.
    + intros k' Hin. apply in_app_or in Hin. destruct Hin as [Hin|[<-|[]]].
      * now apply Hx.
      * apply Hlt. now left.
    + apply IH; [exact Hrest|]. intros k' Hin. apply Hlt. now right.
Qed.

Lemma ascending_after (l1 l2 : list Q) (k k' : Q) :
  ascending (l1 ++ k :: l2) -> In k' l2 -> (k < k')%Q.
Proof.
  induction l1 as [|x l1 IH]; simpl.
  - intros [H _]. exact (H k').
  - intros [_ H]. now apply IH.
Qed.

Lemma ascending_nth (keys : list Q) :
  ascending keys ->
  forall i k k',
    nth_error keys i = Some k -> nth_error keys (S i) = Some k' -> (k < k')%Q.
Proof.
  induction keys as [|x keys IH]; intros Hasc [|i] k k'; simpl;
    try discriminate.
  - intros [= <-] Hk'. destruct Hasc as [H _]. apply H.
    destruct keys; [discriminate|]. simpl in Hk'. injection Hk' as <-.
    now left.
  - destruct Hasc as [_ H]. now apply IH.
Qed.

(** The key of a group is the start time of one of its notes. *)
Lemma grouped_key (notes : list MusicalNote) (groups : Groups) (k : Q)
      (v : list MusicalNote) :
  grouped notes groups -> In (k, v) groups ->
  exists note, In note notes /\ (startTime note == k)%Q.
Proof.
  intros (_ & Hv & _) Hin. destruct (Hv k v Hin) as [Hg Hne].
  destruct v as [|note v']; [contradiction|].
  assert (Hnote : In note (filter (sameStart k) notes))
    by (rewrite <- Hg; now left).
  apply filter_In in Hnote. destruct Hnote as [Hnote Hk].
  exists note. split; [exact Hnote|]. now apply Qeq_bool_iff.
Qed.

(** With chronological input the record is created in the order of the
    keys, and its values, end to end, are the input. *)
Lemma chronological_groups (notes : list MusicalNote) :
  chronological notes ->
  ascending (map fst (fold_left addToGroup notes []))
  /\ List.concat (map snd (fold_left addToGroup notes [])) = notes.
Proof.
  induction notes as [|note notes IH] using rev_ind.
  - intros _. simpl. auto.
  - intros Hc. apply chronological_app in Hc. destruct Hc as (Hc & _ & Hle).
    destruct (IH Hc) as [Hasc Hcat]. clear IH.
    rewrite fold_left_app. simpl.
    pose proof (fold_addToGroup_grouped notes) as Hgr.
    set (groups := fold_left addToGroup notes []) in *.
    assert (Hkey : forall e, In e groups -> (fst e <= startTime note)%Q).
    { intros [k v] Hin. destruct (grouped_key _ _ _ _ Hgr Hin) as (n & Hn & Hk).
      simpl. rewrite <- Hk. apply Hle; [exact Hn | now left]. }
    unfold addToGroup.
    destruct (assign_cases
                (startTime note)
                (match lookup (startTime note) groups with
                 | Some g => g | None => [] end ++ [note])
                groups)
      as [(Hl & Ha & Hn) | (l1 & k' & g & l2 & Hg & Hk & Hl & Ha)];
      rewrite Ha, Hl; clear Ha Hl.
    + rewrite !map_app, concat_app. simpl. rewrite Hcat.
      split; [|reflexivity].
      apply ascending_snoc; [exact Hasc|].
      intros k' Hin. apply in_map_iff in Hin. destruct Hin as (e & <- & He).
      destruct (Qlt_le_dec (fst e) (startTime note)) as [Hlt|Hge]; [exact Hlt|].
      exfalso. apply (Hn e He). apply Qle_antisym; [exact Hge | now apply Hkey].
    + assert (Hl2 : l2 = []).
      { destruct l2 as [|e l2']; [reflexivity|]. exfalso.
        assert (Hlt : (k' < fst e)%Q).
        { rewrite Hg, map_app in Hasc. simpl in Hasc.
          apply (ascending_after _ _ _ _ Hasc). now left. }
        assert (Hle' : (fst e <= startTime note)%Q).
        { apply Hkey. rewrite Hg. apply in_or_app. right. right. now left. }
        rewrite Hk in Hle'. exact (Qlt_not_le _ _ Hlt Hle'). }
      subst l2. rewrite Hg in Hasc, Hcat.
      rewrite !map_app, !concat_app in *. simpl in *.
      rewrite ?app_nil_r in *. split; [exact Hasc|].
      now rewrite <- Hcat, app_assoc.
Qed.

(** The first note of a group of the record starts at the key. *)
Lemma grouped_head (notes : list MusicalNote) (groups : Groups)
      (e : Q * list MusicalNote) :
  grouped notes groups -> In e groups ->
  exists first, hd_error (snd e) = Some first /\ (startTime first == fst e)%Q.
Proof.
  intros (_ & Hv & _) Hin. destruct e as [k v].
  destruct (Hv k v Hin) as [Hg Hne]. simpl.
  destruct v as [|first v']; [contradiction|].
  exists first. split; [reflexivity|].
  assert (Hfirst : In first (filter (sameStart k) notes))
    by (rewrite <- Hg; now left).
  apply filter_In in Hfirst. now apply Qeq_bool_iff.
Qed.

Lemma nth_error_map_inv {A B : Type} (f : A -> B) (l : list A) (i : nat) (b : B) :
  nth_error (map f l) i = Some b ->
  exists a, nth_error l i = Some a /\ f a = b.
Proof.
  revert i. induction l as [|x l IH]; intros [|i]; simpl; try discriminate.
  - intros [= <-]. now exists x.
  - apply IH.
Qed.

Lemma nth_error_before {A : Type} (l : list A) (i : nat) (a : A) :
  nth_error l (S i) = Some a -> exists b, nth_error l i = Some b.
Proof.
  revert i a. induction l as [|x l IH]; intros [|i] a; simpl; try discriminate.
  - intros _. now exists x.
  - apply IH.
Qed.

(** X11: on notes that come in the order of their start times, the
    scheduler the game runs changes nothing but the grouping: its groups,
    end to end, are the input.  [delayNotes$] then emits every group, the
    first with a delay of 0 and each later one with a positive delay. *)
Theorem stream_keeps_the_order (notes : list MusicalNote) :
  chronological notes ->
  List.concat (scheduleNotes_stream notes) = notes
  /\ exists emitted,
       delayNotes (scheduleNotes_stream notes) None = Some emitted
       /\ map ScheduledNotes.group emitted = scheduleNotes_stream notes
       /\ forall i s,
            nth_error emitted i = Some s ->
            match i with
            | O => ScheduledNotes.delay s = 0%Q
            | S _ => (0 < ScheduledNotes.delay s)%Q
            end.
Proof.
  intros Hc. destruct (chronological_groups notes Hc) as [Hasc Hcat].
  pose proof (fold_addToGroup_grouped notes) as Hgr.
  unfold scheduleNotes_stream.
  set (groups := fold_left addToGroup notes []) in *.
  split; [exact Hcat|].
  assert (Hne : forall g, In g (map snd groups) -> g <> []).
  { intros g Hin. apply in_map_iff in Hin. destruct Hin as ([k v] & <- & He).
    destruct Hgr as (_ & Hv & _). exact (proj2 (Hv k v He)). }
  destruct (scanDelays_total (map snd groups) Hne
                             (ScheduledNotes.mk 0%Q None []))
    as (emitted & Hem).
  exists emitted. split; [exact Hem|].
  destruct (scanDelays_spec _ _ _ Hem) as (Hmap & Hfirst & Hnext).
  split; [exact Hmap|].
  assert (Hhead : forall i s,
             nth_error emitted i = Some s ->
             exists e first,
               nth_error groups i = Some e
               /\ hd_error (ScheduledNotes.group s) = Some first
               /\ (startTime first == fst e)%Q).
  { intros i s Hs.
    apply (map_nth_error ScheduledNotes.group) in Hs. rewrite Hmap in Hs.
    apply nth_error_map_inv in Hs. destruct Hs as (e & He & Hsnd).
    destruct (grouped_head notes groups e Hgr (nth_error_In _ _ He))
      as (first & Hhd & Hk).
    exists e, first. rewrite <- Hsnd. auto. }
  intros [|i] s Hs.
  - destruct (Hhead 0%nat s Hs) as (e & first & _ & Hhd & _).
    assert (Hs' : hd_error emitted = Some s) by (destruct emitted; exact Hs).
    exact (Hfirst s first Hs' Hhd).
  - destruct (nth_error_before _ _ _ Hs) as (s0 & Hs0).
    destruct (Hhead _ _ Hs0) as (e0 & first0 & He0 & Hhd0 & Hk0).
    destruct (Hhead _ _ Hs) as (e & first & He & Hhd & Hk).
    rewrite (Hnext i s0 s first0 first Hs0 Hs Hhd0 Hhd).
    assert (Hlt : (fst e0 < fst e)%Q).
    { apply (ascending_nth _ Hasc i); now apply map_nth_error. }
    rewrite <- Hk0, <- Hk in Hlt. unfold Qminus.
    now apply (proj1 (Qlt_minus_iff _ _)).
Qed.

Lemma stream_keeps_the_order_witness :
  chronological [shortNote; shortNote2; lateNote]
  /\ List.concat (scheduleNotes_stream [shortNote; shortNote2; lateNote])
     = [shortNote; shortNote2; lateNote].
Proof.
  assert (H : chronological [shortNote; shortNote2; lateNote]).
  { simpl. repeat split; try contradiction;
      intros later Hin; simpl in Hin;
      repeat (destruct Hin as [<-|Hin]; [vm_compute; discriminate|]);
      contradiction. }
  split; [exact H|].
  exact (proj1 (stream_keeps_the_order _ H)).
Defined.

(** *** When the two schedulers agree *)

Lemma sortByKey_ascending (l : Groups) :
  ascending (map fst l) -> sortByKey l = l.
Proof.
  induction l as [|e l IH]; simpl; [reflexivity|].
  intros [Hlt Hrest]. rewrite (IH Hrest).
  destruct l as [|e' l']; [reflexivity|]. simpl.
  assert (H : Qle_bool (fst e) (fst e') = true).
  { apply Qle_bool_iff, Qlt_le_weak, Hlt. now left. }
  now rewrite H.
Qed.

(** X12: on chronological notes whose start times are all whole numbers of
    milliseconds (from 0 to 2^32 - 2) the array scheduler and the stream
    scheduler make the same groups in the same order. *)
Theorem schedulers_agree_on_whole_times (notes : list MusicalNote) :
  chronological notes ->
  (forall note, In note notes -> isArrayIndex (startTime note) = true) ->
  scheduleNotes notes = scheduleNotes_stream notes.
Proof.
  intros Hc Hidx. destruct (chronological_groups notes Hc) as [Hasc _].
  pose proof (fold_addToGroup_grouped notes) as Hgr.
  unfold scheduleNotes, scheduleNotes_stream, Object_values.
  set (groups := fold_left addToGroup notes []) in *.
  assert (Hall : forall e, In e groups -> isArrayIndex (fst e) = true).
  { intros [k v] Hin. destruct (grouped_key _ _ _ _ Hgr Hin) as (n & Hn & Hk).
    simpl. rewrite <- (isArrayIndex_comp _ _ Hk). now apply Hidx. }
  rewrite (filter_all (fun e => isArrayIndex (fst e)) groups Hall).
  assert (Hnone : filter (fun e => negb (isArrayIndex (fst e))) groups = []).
  { apply filter_nil_forall. intros e He. now rewrite (Hall e He). }
  rewrite Hnone, app_nil_r. now rewrite (sortByKey_ascending groups Hasc).
Qed.

Lemma schedulers_agree_on_whole_times_witness :
  scheduleNotes [shortNote; shortNote2; lateNote]
  = scheduleNotes_stream [shortNote; shortNote2; lateNote].
Proof.
  apply schedulers_agree_on_whole_times.
  - simpl. repeat split; try contradiction;
      intros later Hin; simpl in Hin;
      repeat (destruct Hin as [<-|Hin]; [vm_compute; discriminate|]);
      contradiction.
  - intros note Hin. simpl in Hin.
    repeat (destruct Hin as [<-|Hin]; [vm_compute; reflexivity|]).
    contradiction.
Defined.



(** ** The seed and the fillers of a game *)

(** A draw scaled to [m]: with a hash below [2^31 - 1] it is one of
    [0 .. m - 1]. *)
Lemma toInt32_scale (h m : Z) :
  0 <= h < 2147483647 -> 0 < m <= 2147483647 ->
  0 <= JS.toInt32 (RNG.scale h * inject_Z m) < m.
Proof.
  intros Hh Hm.
  assert (E : (RNG.scale h * inject_Z m == (h * m) # 2147483647)%Q).
  { rewrite scale_fraction. unfold Qeq, Qmult, inject_Z. cbn [Qnum Qden].
    now rewrite Pos.mul_1_r. }
  rewrite (toInt32_comp _ _ E). unfold JS.toInt32, JS.trunc. cbn [Qnum Qden].
  rewrite Z.quot_div_nonneg by nia.
  assert (Hq : 0 <= h * m / 2147483647 < m).
  { split; [apply Z.div_pos; nia | apply Z.div_lt_upper_bound; nia]. }
  rewrite wrap32_int32 by (unfold JS.int32; lia). exact Hq.
Qed.

Lemma sampleAt_defined (i : Z) :
  0 <= i < 6 -> exists name, sampleAt i = Some name /\ In name samples.
Proof.
  intros Hi. unfold sampleAt.
  destruct (i <? 0) eqn:E; [apply Z.ltb_lt in E; lia|].
  destruct (nth_error samples (Z.to_nat i)) as [name|] eqn:En.
  - exists name. split; [reflexivity|]. eapply nth_error_In; eassumption.
  - apply nth_error_None in En. simpl in En. lia.
Qed.

Lemma incorrectNote_playable (state : GameState) :
  0 <= randomSeed state < 2147483647 -> playable (incorrectNote state).
Proof.
  intros Hs. unfold playable, incorrectNote.
  cbn [i_instrument i_volume i_pitch i_startTime i_endTime].
  change (Z.of_nat (List.length samples)) with 6.
  change 90%Q with (inject_Z 90). change 70%Q with (inject_Z 70).
  change 500%Q with (inject_Z 500).
  split; [apply sampleAt_defined; apply toInt32_scale; lia|].
  split; [apply toInt32_scale; lia|].
  split; [apply toInt32_scale; lia|].
  split; [reflexivity|].
  eexists. split; [reflexivity | apply toInt32_scale; lia].
Qed.

Lemma hash_below_top (seed : Z) : 0 <= seed -> 0 <= RNG.hash seed < 2147483647.
Proof.
  intros H. pose proof (hash_range seed H) as Hr.
  pose proof (hash_never_top seed H) as Ht.
  change (2 ^ 31) with 2147483648 in Hr. lia.
Qed.

(** X14: in every state of a game the seed is a hash, from 0 to 2^31 - 2,
    so that [RNG.scale] of it is below 1; and every filler waiting in
    [readyNotes] names an instrument of [samples] and has a volume from 0
    to 89, a pitch from 0 to 69, and a duration of 0 to 499 ms from a start
    time of 0. *)
Theorem fillers_are_playable (state : GameState) :
  reachable state ->
  0 <= randomSeed state < 2147483647
  /\ (RNG.scale (randomSeed state) < 1)%Q
  /\ forall f, In (Filler f) (readyNotes state) -> playable f.
Proof.
  intros Hreach.
  assert (Hinv : 0 <= randomSeed state < 2147483647
                 /\ forall f, In (Filler f) (readyNotes state) -> playable f).
  { induction Hreach as [|state action _ [IHs IHf]].
    - split; [apply hash_below_top; lia | intros f []].
    - split.
      + rewrite execute_randomSeed.
        destruct (advancesSeed action); [apply hash_below_top; lia | exact IHs].
      + intros f Hin.
        destruct action as [c|c| | |group].
        * apply IHf. exact Hin.
        * cbn [execute PressButton_execute readyNotes] in Hin.
          destruct (checkWrongPress c state); [|now apply IHf].
          apply in_app_or in Hin. destruct Hin as [Hin|[[= <-]|[]]].
          -- now apply IHf.
          -- now apply incorrectNote_playable.
        * rewrite execute_readyNotes in Hin by reflexivity.
          apply in_map_iff in Hin. destruct Hin as (x & [=] & _).
        * rewrite execute_readyNotes in Hin by reflexivity.
          apply in_map_iff in Hin. destruct Hin as (x & [=] & _).
        * rewrite execute_readyNotes in Hin by reflexivity.
          apply in_map_iff in Hin. destruct Hin as (x & [=] & _). }
  destruct Hinv as [Hs Hf]. split; [exact Hs|]. split; [|exact Hf].
  rewrite scale_fraction. unfold Qlt. cbn [Qnum Qden]. lia.
Qed.

Lemma fillers_are_playable_witness :
  playable (incorrectNote defaultState).
Proof.
  destruct (fillers_are_playable (execute (PressButton 0) defaultState))
    as (_ & _ & H).
  - apply reach_step. constructor.
  - apply H. vm_compute. left. reflexivity.
Defined.

(** ** What the samplers are asked *)

Lemma executeNotes_flat_map (state : GameState) :
  executeNotes state = flat_map executeNote (readyNotes state).
Proof.
  unfold executeNotes. now destruct (readyNotes state).
Qed.

(** X15: [readyNotes] is emptied only by the actions that advance the
    board.  A release leaves it as it is and a press can only add a filler
    to it, so [executeNotes], which runs on every state, asks the samplers
    after a key event for all it asked after the state before, again, and
    after a wrong press for the filler as well; after an action that
    advances the board it asks for the notes that landed and nothing
    else. *)
Theorem executeNotes_after_transition (state : GameState) (action : GameAction) :
  executeNotes (execute action state)
  = match action with
    | ReleaseButton _ => executeNotes state
    | PressButton c =>
        executeNotes state
        ++ (if checkWrongPress c state
            then executeNote (Filler (incorrectNote state))
            else [])
    | GameTick | EndGame | AddNextNote _ =>
        flat_map executeNote
                 (map Sound (collect sound (activeNotes state ++ arrivals action)))
    end.
Proof.
  rewrite !executeNotes_flat_map.
  destruct action as [c|c| | |group].
  - reflexivity.
  - cbn [execute PressButton_execute readyNotes].
    destruct (checkWrongPress c state).
    + rewrite flat_map_app. cbn [flat_map]. now rewrite app_nil_r.
    + now rewrite app_nil_r.
  - now rewrite execute_readyNotes.
  - now rewrite execute_readyNotes.
  - now rewrite execute_readyNotes.
Qed.

Lemma muted_inactiveTail (note : MusicalNote) :
  settled note -> muted note = inactiveTail note.
Proof.
  unfold settled, muted. fold (inactiveTail note). intros H.
  destruct (inactiveTail note); [|apply andb_false_r].
  now rewrite H.
Qed.

Lemma filter_ext_in' {A : Type} (p q : A -> bool) (l : list A) :
  (forall x, In x l -> p x = q x) -> filter p l = filter q l.
Proof.
  induction l as [|a l IH]; simpl; intros H; [reflexivity|].
  rewrite (H a) by now left.
  rewrite IH by (intros x Hx; apply H; now right). reflexivity.
Qed.

(** X16: in a game [muteNotes], which runs on every state, asks for the
    release of exactly the notes on the board whose tail is inactive (the
    test of [visible] decides nothing there), and so of every note a
    [ReleaseButton] has just let go. *)
Theorem muteNotes_in_a_game (state : GameState) (c : Z) :
  reachable state ->
  muteNotes state
  = map (fun note => triggerRelease (Some (instrument note)) (pitch note))
        (filter inactiveTail (activeNotes state))
  /\ forall note,
       In note (activeNotes state) -> heldTail c note = true ->
       In (triggerRelease (Some (instrument note)) (pitch note))
          (muteNotes (execute (ReleaseButton c) state)).
Proof.
  intros Hreach. split.
  - unfold muteNotes. f_equal. apply filter_ext_in'.
    intros note Hin. apply muted_inactiveTail.
    now apply (reachable_settled state Hreach).
  - intros note Hin Hheld. unfold muteNotes.
    cbn [execute ReleaseButton_execute activeNotes].
    apply in_map_iff. exists (releaseNote c note).
    assert (Hnote : releaseNote c note
                    = match tail note with
                      | Some t => with_tail note (Some (with_inactive t (Some true)))
                      | None => note
                      end).
    { unfold releaseNote. now rewrite Hheld. }
    unfold heldTail in Hheld.
    destruct (tail note) as [t|] eqn:Et; [|discriminate].
    apply andb_true_iff in Hheld. destruct Hheld as [Hheld _].
    apply andb_true_iff in Hheld. destruct Hheld as [_ Hv].
    rewrite Hnote. split; [reflexivity|].
    apply filter_In. split; [now apply in_map_iff; exists note; rewrite Hnote|].
    unfold muted. note_simpl. now rewrite Hv.
Qed.

Lemma muteNotes_in_a_game_witness :
  In (triggerRelease (Some (instrument heldNote)) (pitch heldNote))
     (muteNotes (execute (ReleaseButton 0)
                         (run defaultState
                              (AddNextNote [longNote] :: repeat GameTick 320
                               ++ [PressButton 0; GameTick])))).
Proof.
  apply (proj2 (muteNotes_in_a_game
                  (run defaultState
                       (AddNextNote [longNote] :: repeat GameTick 320
                        ++ [PressButton 0; GameTick])) 0
                  (reachable_run _ _ reach_default))
               heldNote).
  - vm_compute. left. reflexivity.
  - vm_compute. reflexivity.
Defined.

(** ** The end of the game *)

Lemma advancing_isGameOver (action : GameAction) (state : GameState) :
  advancesBoard action = true ->
  isGameOver (execute action state) = true ->
  allNotesFinished (execute action state) = true
  /\ activeNotes (execute action state) = []
  /\ expiredNotes state = [].
Proof.
  destruct action as [c|c| | |group]; try discriminate; intros _ H.
  - apply (advanceTick_isGameOver state) in H. tauto.
  - apply (advanceTick_isGameOver (with_allNotesFinished state true)) in H.
    tauto.
  - apply (advanceTick_isGameOver
             (with_seed_and_active state (RNG.hash (randomSeed state))
                (activeNotes state ++ map noteWithTail group))) in H.
    tauto.
Qed.

Lemma reachable_isGameOver (state : GameState) :
  reachable state ->
  isGameOver state = true ->
  allNotesFinished state = true /\ activeNotes state = [].
Proof.
  induction 1 as [|state action _ IH]; [discriminate|].
  destruct (advancesBoard action) eqn:Ea.
  - intros H. destruct (advancing_isGameOver action state Ea H) as (H1 & H2 & _).
    now split.
  - destruct action as [c|c| | |group]; try discriminate;
      cbn [execute ReleaseButton_execute PressButton_execute isGameOver
           allNotesFinished activeNotes];
      intros H; destruct (IH H) as [H1 H2]; rewrite H2; now split.
Qed.

(** An action other than [AddNextNote] on a finished game with an empty
    board and no expired notes. *)
Lemma finished_step (action : GameAction) (state : GameState) :
  isAddNextNote action = false ->
  isGameOver state = true -> allNotesFinished state = true ->
  activeNotes state = [] -> expiredNotes state = [] ->
  JS.int32 (points state) ->
  isGameOver (execute action state) = true
  /\ allNotesFinished (execute action state) = true
  /\ activeNotes (execute action state) = []
  /\ expiredNotes (execute action state) = []
  /\ points (execute action state) = points state
  /\ notesPlayed (execute action state) = notesPlayed state.
Proof.
  intros Ha Hover Hfin Hact Hexp Hrange.
  assert (Hpts : JS.toInt32 (inject_Z (points state)) = points state).
  { unfold JS.toInt32. rewrite trunc_inject_Z. now apply wrap32_int32. }
  destruct action as [c|c| | |group]; try discriminate.
  - cbn [execute ReleaseButton_execute isGameOver allNotesFinished activeNotes
         expiredNotes points notesPlayed].
    unfold releasePoints. rewrite Hact. cbn [map fold_left].
    now split_all.
  - cbn [execute PressButton_execute isGameOver allNotesFinished activeNotes
         expiredNotes points notesPlayed].
    unfold activationStatus. rewrite Hact.
    cbn [map fold_left activated acc_points]. now split_all.
  - unfold execute, GameTick_execute, advanceTick, with_tickCount.
    rewrite Hact, Hexp, Hfin. cbn. now split_all.
  - unfold execute, EndGame_execute, advanceTick, with_allNotesFinished.
    cbn [activeNotes expiredNotes allNotesFinished]. rewrite Hact, Hexp.
    cbn. now split_all.
Qed.

(** X17: the game ends only after [EndGame] and with an empty board: in a
    game, [isGameOver] implies [allNotesFinished] and no active notes.  And
    the end is final for the keys and the clock: from a finished state with
    no expired notes (any state that a [GameTick] or an [EndGame] has
    finished), actions other than [AddNextNote] leave the game over, the
    board empty, and the score and the count of played notes as they
    are. *)
Theorem game_over_is_final (state : GameState) (actions : list GameAction) :
  reachable state ->
  isGameOver state = true ->
  (allNotesFinished state = true /\ activeNotes state = [])
  /\ (expiredNotes state = [] ->
      existsb isAddNextNote actions = false ->
      isGameOver (run state actions) = true
      /\ activeNotes (run state actions) = []
      /\ points (run state actions) = points state
      /\ notesPlayed (run state actions) = notesPlayed state).
Proof.
  intros Hreach Hover.
  destruct (reachable_isGameOver state Hreach Hover) as [Hfin Hact].
  split; [now split|]. intros Hexp.
  pose proof (proj1 (reachable_score state Hreach)) as Hrange.
  clear Hreach. revert state Hover Hfin Hact Hexp Hrange.
  induction actions as [|action actions IH];
    intros state Hover Hfin Hact Hexp Hrange Hno.
  - now split_all.
  - cbn [existsb] in Hno. apply orb_false_iff in Hno. destruct Hno as [Ha Hno].
    destruct (finished_step action state Ha Hover Hfin Hact Hexp Hrange)
      as (H1 & H2 & H3 & H4 & H5 & H6).
    change (run state (action :: actions))
      with (run (execute action state) actions).
    destruct (IH (execute action state) H1 H2 H3 H4) as (K1 & K2 & K3 & K4);
      [now rewrite H5 | exact Hno |].
    rewrite K3, K4, H5, H6. now split_all.
Qed.

Lemma game_over_is_final_witness :
  isGameOver (run (execute EndGame defaultState)
                  [GameTick; PressButton 0; ReleaseButton 0; EndGame]) = true.
Proof.
  destruct (game_over_is_final
              (execute EndGame defaultState)
              [GameTick; PressButton 0; ReleaseButton 0; EndGame]
              (reach_step _ _ reach_default)) as (_ & H).
  - vm_compute. reflexivity.
  - apply H; vm_compute; reflexivity.
Defined.

(** ** How long a note without a tail stays *)

Lemma keep_tailless (note : MusicalNote) :
  tail note = None ->
  keep note
  = if JS.ltb (yPos note + GameSettings.INCREMENT) GameSettings.LAST_ROW
    then Some (with_yPos note (yPos note + GameSettings.INCREMENT)%Q)
    else None.
Proof.
  intros Ht. unfold keep, calcPositionForGame, updateNoteYPos. rewrite Ht.
  destruct (JS.ltb (yPos note + GameSettings.INCREMENT) GameSettings.LAST_ROW)
    eqn:El.
  - assert (Hle : Qle_bool (yPos note + GameSettings.INCREMENT)
                           GameSettings.LAST_ROW = true).
    { apply Qle_bool_iff, Qlt_le_weak. now apply ltb_true_iff. }
    rewrite Hle. now destruct (visible note).
  - destruct (Qle_bool (yPos note + GameSettings.INCREMENT)
                       GameSettings.LAST_ROW),
      (visible note),
      (Qeq_bool (yPos note + GameSettings.INCREMENT) GameSettings.LAST_ROW);
      reflexivity.
Qed.

(** A note without a tail under [n] actions that advance the board. *)
Lemma descendant_tailless (actions : list GameAction) :
  forall note : MusicalNote,
    tail note = None ->
    (yPos note < GameSettings.LAST_ROW)%Q ->
    forallb advancesBoard actions = true ->
    let n := inject_Z (Z.of_nat (List.length actions)) in
    match descendant actions note with
    | Some note' =>
        (yPos note + n < GameSettings.LAST_ROW)%Q
        /\ (yPos note' == yPos note + n)%Q
        /\ note' = with_yPos note (yPos note')
    | None => (GameSettings.LAST_ROW <= yPos note + n)%Q
    end.
Proof.
  unfold GameSettings.LAST_ROW.
  induction actions as [|action actions IH]; intros note Ht Hy Hall.
  - cbn [descendant List.length Z.of_nat]. change (inject_Z 0) with 0%Q.
    split; [lra|]. split; [lra|]. now destruct note.
  - cbn [forallb] in Hall. apply andb_true_iff in Hall.
    destruct Hall as [Ha Hall].
    set (n := inject_Z (Z.of_nat (List.length (action :: actions)))).
    assert (Hn : (n == 1 + inject_Z (Z.of_nat (List.length actions)))%Q).
    { subst n. cbn [List.length]. rewrite Nat2Z.inj_succ. unfold Z.succ.
      rewrite inject_Z_plus. change (inject_Z 1) with 1%Q. lra. }
    clearbody n.
    assert (Hlen : (0 <= inject_Z (Z.of_nat (List.length actions)))%Q).
    { change 0%Q with (inject_Z 0). rewrite <- Zle_Qle. lia. }
    cbn [descendant].
    assert (Hs : successor action note = keep note)
      by (destruct action; try discriminate; reflexivity).
    rewrite Hs, (keep_tailless note Ht).
    unfold GameSettings.INCREMENT, GameSettings.LAST_ROW.
    destruct (JS.ltb (yPos note + 1) 350) eqn:El.
    + apply ltb_true_iff in El.
      specialize (IH (with_yPos note (yPos note + 1)%Q) Ht El Hall).
      cbn zeta in IH.
      destruct (descendant actions (with_yPos note (yPos note + 1)%Q))
        as [note'|].
      * destruct IH as (H1 & H2 & H3). cbn [yPos with_yPos] in H1, H2.
        split; [lra|]. split; [lra|]. rewrite H3 at 1. reflexivity.
      * cbn [yPos with_yPos] in IH. lra.
    + assert (Hge : ~ (yPos note + 1 < 350)%Q).
      { intros H. apply ltb_true_iff in H. congruence. }
      apply Qnot_lt_le in Hge. lra.
Qed.

(** X18: a note without a tail, above the last row, stays on the board for
    as long as the steps taken leave it above the last row, whether it was
    hit or not: under [n] actions that advance the board it is still there
    exactly if [yPos + n < LAST_ROW], and then it is the same note, [n]
    lower.  A press of its column hits it there exactly if it is visible
    and has come within [THRESHOLD] of the last row: the window is open for
    the last [THRESHOLD] steps the note is on the board. *)
Theorem tailless_note_lifetime (actions : list GameAction)
        (note : MusicalNote) :
  tail note = None ->
  (yPos note < GameSettings.LAST_ROW)%Q ->
  forallb advancesBoard actions = true ->
  let n := inject_Z (Z.of_nat (List.length actions)) in
  match descendant actions note with
  | Some note' =>
      (yPos note + n < GameSettings.LAST_ROW)%Q
      /\ (yPos note' == yPos note + n)%Q
      /\ note' = with_yPos note (yPos note')
      /\ forall c,
           inHitWindow c note' = true
           <-> ((GameSettings.LAST_ROW - GameSettings.THRESHOLD
                 <= yPos note + n)%Q
                /\ column note = c /\ visible note = true)
  | None => (GameSettings.LAST_ROW <= yPos note + n)%Q
  end.
Proof.
  intros Ht Hy Hall n.
  pose proof (descendant_tailless actions note Ht Hy Hall) as H.
  cbv zeta in H. fold n in H.
  destruct (descendant actions note) as [note'|]; [|exact H].
  destruct H as (H1 & H2 & H3).
  split; [exact H1|]. split; [exact H2|]. split; [exact H3|].
  intros c. unfold inHitWindow.
  assert (Hc : column note' = column note) by (rewrite H3; reflexivity).
  assert (Hv : visible note' = visible note) by (rewrite H3; reflexivity).
  rewrite Hc, Hv, !andb_true_iff, Qle_bool_iff, ltb_true_iff, Z.eqb_eq.
  rewrite H2. tauto.
Qed.

Lemma tailless_note_lifetime_witness :
  descendant (repeat GameTick 350) shortNote = None
  /\ inHitWindow 0 (with_yPos shortNote 310%Q) = true.
Proof.
  split.
  - pose proof (tailless_note_lifetime (repeat GameTick 350) shortNote
                  eq_refl eq_refl eq_refl) as H.
    cbv zeta in H. revert H.
    destruct (descendant (repeat GameTick 350) shortNote) as [note'|];
      [|reflexivity].
    intros (H & _). exfalso. revert H. vm_compute. discriminate.
  - pose proof (tailless_note_lifetime (repeat GameTick 310) shortNote
                  eq_refl eq_refl eq_refl) as H.
    cbv zeta in H. revert H.
    assert (E : descendant (repeat GameTick 310) shortNote
                = Some (with_yPos shortNote 310%Q))
      by (vm_compute; reflexivity).
    rewrite E. intros (_ & _ & _ & H). apply H.
    split; [vm_compute; discriminate|]. split; reflexivity.
Defined.

(** ** Every game ends *)

Lemma keep_upperEdge (note next : MusicalNote) :
  keep note = Some next ->
  upperEdge next = (upperEdge note + GameSettings.INCREMENT)%Q
  /\ yPos next = (yPos note + GameSettings.INCREMENT)%Q
  /\ ((upperEdge note + GameSettings.INCREMENT < GameSettings.LAST_ROW)%Q
      \/ (yPos note + GameSettings.INCREMENT == GameSettings.LAST_ROW)%Q).
Proof.
  unfold keep, calcPositionForGame, updateNoteYPos, upperEdge.
  destruct (tail note) as [t|] eqn:Et; split_ifs; note_simpl;
    intros [= <-]; note_simpl; rewrite ?Et;
    (split; [reflexivity|]); (split; [reflexivity|]);
    repeat match goal with
      | H : JS.ltb _ _ = true |- _ => apply ltb_true_iff in H
      | H : Qeq_bool _ _ = true |- _ => apply Qeq_bool_iff in H
      end;
    auto.
Qed.

Lemma successor_upperEdge (action : GameAction) (note next : MusicalNote) :
  successor action note = Some next ->
  let step := if advancesBoard action then GameSettings.INCREMENT else 0%Q in
  (upperEdge next == upperEdge note + step)%Q
  /\ (yPos next == yPos note + step)%Q
  /\ (advancesBoard action = true ->
      (upperEdge note + GameSettings.INCREMENT < GameSettings.LAST_ROW)%Q
      \/ (yPos note + GameSettings.INCREMENT == GameSettings.LAST_ROW)%Q).
Proof.
  destruct action as [c|c| | |group]; cbn [successor advancesBoard]; intros Hs;
    cbv zeta;
    try (destruct (keep_upperEdge note next Hs) as (H1 & H2 & H3);
         rewrite H1, H2; split; [reflexivity|]; split; [reflexivity|];
         intros _; exact H3).
  - injection Hs as <-. unfold releaseNote, upperEdge.
    destruct (tail note) as [t|] eqn:Et;
      [destruct (heldTail c note)|]; note_simpl; rewrite ?Et;
      (split; [lra|]); (split; [lra|]); discriminate.
  - injection Hs as <-. unfold pressNote, upperEdge.
    destruct (inHitWindow c note); note_simpl;
      (split; [lra|]); (split; [lra|]); discriminate.
Qed.

Lemma count_app (p : GameAction -> bool) (l1 l2 : list GameAction) :
  count p (l1 ++ l2) = (count p l1 + count p l2)%nat.
Proof. unfold count. now rewrite filter_app, length_app. Qed.

Lemma inject_nat_succ (n : nat) :
  (inject_Z (Z.of_nat (S n)) == 1 + inject_Z (Z.of_nat n))%Q.
Proof.
  rewrite Nat2Z.inj_succ. unfold Z.succ. rewrite inject_Z_plus.
  change (inject_Z 1) with 1%Q. lra.
Qed.

Lemma inject_nat_le (n m : nat) :
  (n <= m)%nat -> (inject_Z (Z.of_nat n) <= inject_Z (Z.of_nat m))%Q.
Proof. intros H. rewrite <- Zle_Qle. lia. Qed.

(** A note that is still on the board after [m] steps: the last step left
    its upper edge above the last row or put the note on the last row; and
    since a note is on the last row only once, the step before the last
    left the upper edge above the last row. *)
Lemma descendant_upperEdge (actions : list GameAction) :
  forall note note' : MusicalNote,
    descendant actions note = Some note' ->
    let m := count advancesBoard actions in
    ((1 <= m)%nat ->
     (upperEdge note + inject_Z (Z.of_nat m) < GameSettings.LAST_ROW)%Q
     \/ (yPos note + inject_Z (Z.of_nat m) == GameSettings.LAST_ROW)%Q)
    /\ ((2 <= m)%nat ->
        (upperEdge note + inject_Z (Z.of_nat m) - 1 < GameSettings.LAST_ROW)%Q).
Proof.
  unfold GameSettings.LAST_ROW.
  induction actions as [|action actions IH]; intros note note' Hd.
  - cbn. split; intros H; inversion H.
  - cbn [descendant] in Hd.
    destruct (successor action note) as [next|] eqn:Hs; [|discriminate].
    destruct (IH next note' Hd) as [IH1 IH2]. clear IH.
    destruct (successor_upperEdge action note next Hs) as (Hu & Hy & Hstep).
    cbv zeta in *. unfold GameSettings.INCREMENT, GameSettings.LAST_ROW in *.
    rewrite count_cons.
    set (r := count advancesBoard actions) in *.
    destruct (advancesBoard action) eqn:Ea.
    + specialize (Hstep eq_refl).
      change (1 + r)%nat with (S r).
      pose proof (inject_nat_succ r) as Er.
      assert (HR0 : r = 0%nat -> (inject_Z (Z.of_nat r) == 0)%Q)
        by (intros ->; reflexivity).
      assert (HR1 : r = 1%nat -> (inject_Z (Z.of_nat r) == 1)%Q)
        by (intros ->; reflexivity).
      set (M := inject_Z (Z.of_nat (S r))) in *.
      set (R := inject_Z (Z.of_nat r)) in *.
      clearbody M R. split.
      * intros _. destruct (Nat.eq_dec r 0) as [E0|E0].
        -- specialize (HR0 E0). destruct Hstep as [H|H]; [left|right]; lra.
        -- destruct (IH1 ltac:(lia)) as [H|H]; [left|right]; lra.
      * intros Hm. destruct (Nat.eq_dec r 1) as [E1|E1].
        -- specialize (HR1 E1).
           destruct (IH1 ltac:(lia)) as [H|H]; [lra|].
           destruct Hstep as [H'|H']; lra.
        -- specialize (IH2 ltac:(lia)). lra.
    + change (0 + r)%nat with r.
      split; intros Hm.
      * destruct (IH1 Hm) as [H|H]; [left|right]; lra.
      * specialize (IH2 Hm). lra.
Qed.

Lemma descendant_gone (actions : list GameAction) (note : MusicalNote) :
  (stepsLeft note <= count advancesBoard actions)%nat ->
  descendant actions note = None.
Proof.
  intros Hm. destruct (descendant actions note) as [note'|] eqn:Hd;
    [exfalso|reflexivity].
  destruct (descendant_upperEdge actions note note' Hd) as [_ H].
  cbv zeta in H. unfold stepsLeft in Hm.
  set (c := Qceiling (GameSettings.LAST_ROW - upperEdge note)) in *.
  specialize (H ltac:(lia)).
  pose proof (Qle_ceiling (GameSettings.LAST_ROW - upperEdge note)) as Hc.
  fold c in Hc.
  pose proof (inject_nat_le _ _ Hm) as Hle.
  assert (Hz : (inject_Z c + 2
                <= inject_Z (Z.of_nat (Z.to_nat c + 2)))%Q).
  { change 2%Q with (inject_Z 2). rewrite <- inject_Z_plus, <- Zle_Qle. lia. }
  lra.
Qed.

Lemma stepsLeft_le (note : MusicalNote) (notes : list MusicalNote) :
  In note notes -> (stepsLeft note <= stepsToClear notes)%nat.
Proof.
  induction notes as [|x notes IH]; [intros []|].
  cbn [stepsToClear fold_right]. fold (stepsToClear notes).
  intros [<-|Hin]; [lia|]. specialize (IH Hin). lia.
Qed.

Lemma in_run_descendant (actions : list GameAction) :
  forall (state : GameState) (note' : MusicalNote),
    existsb isAddNextNote actions = false ->
    In note' (activeNotes (run state actions)) ->
    exists note, In note (activeNotes state)
                 /\ descendant actions note = Some note'.
Proof.
  induction actions as [|action actions IH]; intros state note' Hno Hin.
  - exists note'. now split.
  - cbn [existsb] in Hno. apply orb_false_iff in Hno. destruct Hno as [Ha Hno].
    change (run state (action :: actions))
      with (run (execute action state) actions) in Hin.
    destruct (IH _ _ Hno Hin) as (next & Hnext & Hd).
    rewrite execute_activeNotes, in_collect in Hnext.
    destruct Hnext as (note & Hnote & Hs).
    assert (Harr : arrivals action = [])
      by (destruct action; try discriminate; reflexivity).
    rewrite Harr, app_nil_r in Hnote.
    exists note. split; [exact Hnote|].
    cbn [descendant]. now rewrite Hs.
Qed.

(** The board is empty once every note has had its steps. *)
Lemma board_clear (actions : list GameAction) (state : GameState) :
  existsb isAddNextNote actions = false ->
  (stepsToClear (activeNotes state) <= count advancesBoard actions)%nat ->
  activeNotes (run state actions) = [].
Proof.
  intros Hno Hm.
  destruct (activeNotes (run state actions)) as [|note' rest] eqn:E;
    [reflexivity|exfalso].
  destruct (in_run_descendant actions state note' Hno) as (note & Hin & Hd).
  { rewrite E. now left. }
  rewrite descendant_gone in Hd; [discriminate|].
  pose proof (stepsLeft_le note _ Hin). lia.
Qed.

Lemma run_snoc (state : GameState) (actions : list GameAction)
      (action : GameAction) :
  run state (actions ++ [action]) = execute action (run state actions).
Proof. unfold run. now rewrite fold_left_app. Qed.

Lemma count_le_snoc (p : GameAction -> bool) (actions : list GameAction)
      (action : GameAction) :
  (count p (actions ++ [action]) <= count p actions + 1)%nat.
Proof.
  rewrite count_app. unfold count at 2. cbn [filter].
  destruct (p action); cbn [List.length]; lia.
Qed.

Lemma expired_clear (actions : list GameAction) (state : GameState) :
  existsb isAddNextNote actions = false ->
  (stepsToClear (activeNotes state) + 1 <= count advancesBoard actions)%nat ->
  expiredNotes (run state actions) = [].
Proof.
  destruct actions as [|action actions] using rev_ind; intros Hno Hm.
  - cbn in Hm. lia.
  - rewrite existsb_app in Hno. apply orb_false_iff in Hno.
    destruct Hno as [Hno Ha]. cbn [existsb] in Ha. rewrite orb_false_r in Ha.
    pose proof (count_le_snoc advancesBoard actions action) as Hc.
    rewrite run_snoc, execute_expiredNotes.
    rewrite (board_clear actions state Hno) by lia.
    destruct action; try discriminate; reflexivity.
Qed.

Lemma advancing_isGameOver_iff (action : GameAction) (state : GameState) :
  advancesBoard action = true ->
  isGameOver (execute action state) = true
  <-> (allNotesFinished (execute action state) = true
       /\ activeNotes (execute action state) = []
       /\ readyNotes (execute action state) = []
       /\ expiredNotes state = []).
Proof.
  destruct action as [c|c| | |group]; try discriminate; intros _.
  - apply (advanceTick_isGameOver state).
  - apply (advanceTick_isGameOver (with_allNotesFinished state true)).
  - apply (advanceTick_isGameOver
             (with_seed_and_active state (RNG.hash (randomSeed state))
                (activeNotes state ++ map noteWithTail group))).
Qed.

(** X19: every game ends.  From any state whatever, once no more notes
    arrive, [allNotesFinished] is set, and the board has been advanced
    [stepsToClear + 2] times (a number read off the board: for each note,
    the distance of its upper edge to the last row), the game is over and
    the board is empty, whatever keys were pressed and released on the
    way. *)
Theorem the_game_ends (state : GameState) (actions : list GameAction) :
  existsb isAddNextNote actions = false ->
  (stepsToClear (activeNotes state) + 2 <= count advancesBoard actions)%nat ->
  allNotesFinished (run state actions) = true ->
  isGameOver (run state actions) = true
  /\ activeNotes (run state actions) = [].
Proof.
  induction actions as [|action actions IH] using rev_ind; intros Hno Hm Hfin.
  - cbn in Hm. lia.
  - rewrite existsb_app in Hno. apply orb_false_iff in Hno.
    destruct Hno as [Hno Ha]. cbn [existsb] in Ha. rewrite orb_false_r in Ha.
    pose proof (count_le_snoc advancesBoard actions action) as Hc.
    rewrite run_snoc in *.
    set (before := run state actions) in *.
    destruct (advancesBoard action) eqn:Eadv.
    + assert (Hact : activeNotes before = [])
        by (apply board_clear; [exact Hno | lia]).
      assert (Hexp : expiredNotes before = [])
        by (apply expired_clear; [exact Hno | lia]).
      assert (Harr : arrivals action = [])
        by (destruct action; try discriminate; reflexivity).
      assert (Hact' : activeNotes (execute action before) = [])
        by (rewrite execute_activeNotes, Hact, Harr; reflexivity).
      split; [|exact Hact'].
      apply advancing_isGameOver_iff; [exact Eadv|].
      split; [exact Hfin|]. split; [exact Hact'|]. split; [|exact Hexp].
      rewrite execute_readyNotes, Hact, Harr by exact Eadv. reflexivity.
    + assert (Hcount : count advancesBoard (actions ++ [action])
                       = count advancesBoard actions).
      { rewrite count_app. unfold count at 2. cbn [filter].
        rewrite Eadv. cbn [List.length]. lia. }
      rewrite Hcount in Hm.
      rewrite execute_allNotesFinished in Hfin.
      assert (Hend : isEndGame action = false)
        by (destruct action; try discriminate; reflexivity).
      rewrite Hend, orb_false_r in Hfin.
      destruct (IH Hno Hm Hfin) as [Hover Hact].
      destruct action as [c|c| | |group]; try discriminate;
        cbn [execute ReleaseButton_execute PressButton_execute isGameOver
             activeNotes];
        rewrite Hact; now split.
Qed.

Lemma the_game_ends_witness :
  isGameOver
    (run (run defaultState [AddNextNote [longNote]; GameTick; PressButton 1])
         (EndGame :: ReleaseButton 0 :: repeat GameTick 551)) = true.
Proof.
  apply (the_game_ends
           (run defaultState [AddNextNote [longNote]; GameTick; PressButton 1])
           (EndGame :: ReleaseButton 0 :: repeat GameTick 551)).
  - vm_compute. reflexivity.
  - apply Nat.leb_le. vm_compute. reflexivity.
  - vm_compute. reflexivity.
Defined.

(** ** A long note that is missed *)

Lemma descendant_yPos (actions : list GameAction) :
  forall note note' : MusicalNote,
    descendant actions note = Some note' ->
    (yPos note' == yPos note
                   + inject_Z (Z.of_nat (count advancesBoard actions)))%Q.
Proof.
  induction actions as [|action actions IH]; intros note note' Hd.
  - injection Hd as <-. unfold count. cbn [filter List.length Z.of_nat].
    change (inject_Z 0) with 0%Q. lra.
  - cbn [descendant] in Hd.
    destruct (successor action note) as [next|] eqn:Hs; [|discriminate].
    destruct (successor_upperEdge action note next Hs) as (_ & Hy & _).
    cbv zeta in Hy. rewrite (IH next note' Hd), Hy, count_cons.
    unfold GameSettings.INCREMENT.
    destruct (advancesBoard action).
    + change (1 + count advancesBoard actions)%nat
        with (S (count advancesBoard actions)).
      rewrite inject_nat_succ. lra.
    + change (0 + count advancesBoard actions)%nat
        with (count advancesBoard actions). lra.
Qed.

(** X20: a long note that reaches the last row unplayed is resolved there
    without a sound: on that step it becomes invisible and its tail
    inactive, and nothing is put into [readyNotes] for it.  From then on, as
    long as it is on the board, it never sounds, no press hits it and no
    release is charged for it. *)
Theorem missed_long_note (note next : MusicalNote) (t : TailInfo) :
  tail note = Some t ->
  visible note = true ->
  (yPos note == end_ t)%Q ->
  (yPos note + GameSettings.INCREMENT == GameSettings.LAST_ROW)%Q ->
  keep note = Some next ->
  sound note = None
  /\ forall actions next',
       descendant actions next = Some next' ->
       visible next' = false
       /\ inactiveTail next' = true
       /\ sound next' = None
       /\ forall c, heldTail c next' = false /\ inHitWindow c next' = false.
Proof.
  intros Et Ev Hend Hrow Hkeep.
  assert (Hq : Qeq_bool (end_ t + GameSettings.INCREMENT) GameSettings.LAST_ROW
               = true).
  { apply Qeq_bool_iff. rewrite <- Hend. exact Hrow. }
  assert (Hnext : sound note = None
                  /\ visible next = false /\ inactiveTail next = true
                  /\ yPos next = (yPos note + GameSettings.INCREMENT)%Q).
  { revert Hkeep.
    unfold keep, sound, inactiveTail, calcPositionForGame, updateNoteYPos.
    rewrite Et, Ev. note_simpl. rewrite Hq.
    destruct (JS.ltb (start t + GameSettings.INCREMENT) GameSettings.LAST_ROW);
      note_simpl; [|discriminate].
    intros [= <-]. note_simpl. now split_all. }
  destruct Hnext as (Hsound & Hv & Hi & Hy).
  split; [exact Hsound|].
  intros actions next' Hd.
  assert (Hset : settled next) by (intros _; exact Hv).
  destruct (descendant_step actions next next' Hd Hset) as (Hset' & Hperm & _).
  specialize (Hperm Hi).
  assert (Hv' : visible next' = false) by now apply Hset'.
  pose proof (descendant_yPos actions next next' Hd) as Hy'.
  assert (Hm : (0 <= inject_Z (Z.of_nat (count advancesBoard actions)))%Q).
  { change 0%Q with (inject_Z 0). rewrite <- Zle_Qle. lia. }
  destruct (proj1 (inactiveTail_true next') Hperm) as (t' & Et' & Ei').
  split; [exact Hv'|]. split; [exact Hperm|]. split.
  - unfold sound, calcPositionForGame, updateNoteYPos.
    rewrite Et', Hv'. note_simpl.
    assert (Hne : Qeq_bool (yPos next' + GameSettings.INCREMENT)
                           GameSettings.LAST_ROW = false).
    { destruct (Qeq_bool (yPos next' + GameSettings.INCREMENT)
                         GameSettings.LAST_ROW) eqn:E; [|reflexivity].
      apply Qeq_bool_iff in E. rewrite Hy', Hy in E.
      unfold GameSettings.INCREMENT, GameSettings.LAST_ROW in *. lra. }
    rewrite Hne.
    now destruct (JS.ltb (start t' + GameSettings.INCREMENT)
                         GameSettings.LAST_ROW).
  - intros c. split.
    + unfold heldTail. rewrite Et', Ei'. cbn [truthy negb]. apply andb_false_r.
    + unfold inHitWindow. rewrite Hv'. apply andb_false_r.
Qed.

Lemma missed_long_note_witness : sound unplayedNote = None.
Proof.
  refine (proj1 (missed_long_note
                   unplayedNote
                   (match keep unplayedNote with
                    | Some n => n
                    | None => unplayedNote
                    end)
                   (match tail unplayedNote with
                    | Some t => t
                    | None => mkTail 0 0 None
                    end)
                   _ _ _ _ _)); vm_compute; reflexivity.
Defined.

(** ** The column of a pitch *)



(** ** A tail that is held *)

Lemma successor_stays_held (action : GameAction) (c : Z)
      (note next : MusicalNote) :
  isReleaseOf c action = false ->
  heldTail c note = true ->
  successor action note = Some next ->
  heldTail c next = true.
Proof.
  intros Ha Hheld Hs. unfold heldTail in Hheld.
  destruct (tail note) as [t|] eqn:Et; [|discriminate].
  apply andb_true_iff in Hheld. destruct Hheld as [Hheld Hi].
  apply andb_true_iff in Hheld. destruct Hheld as [Hc Hv].
  apply negb_true_iff in Hv.
  destruct action as [c'|c'| | |group]; cbn [successor isReleaseOf] in *.
  - injection Hs as <-. unfold releaseNote, heldTail. rewrite Et.
    assert (Hcol : (column note =? c') = false).
    { apply Z.eqb_eq in Hc. apply Z.eqb_neq. apply Z.eqb_neq in Ha. lia. }
    rewrite Hcol. cbn [andb]. rewrite Et, Hc, Hv, Hi. reflexivity.
  - injection Hs as <-. unfold pressNote, inHitWindow. rewrite Hv.
    rewrite andb_false_r. unfold heldTail. rewrite Et, Hc, Hv, Hi. reflexivity.
  - revert Hs. unfold keep, calcPositionForGame, updateNoteYPos, heldTail.
    rewrite Et, Hv. split_ifs; note_simpl; intros [= <-]; note_simpl;
      rewrite Hc, Hv, Hi; reflexivity.
  - revert Hs. unfold keep, calcPositionForGame, updateNoteYPos, heldTail.
    rewrite Et, Hv. split_ifs; note_simpl; intros [= <-]; note_simpl;
      rewrite Hc, Hv, Hi; reflexivity.
  - revert Hs. unfold keep, calcPositionForGame, updateNoteYPos, heldTail.
    rewrite Et, Hv. split_ifs; note_simpl; intros [= <-]; note_simpl;
      rewrite Hc, Hv, Hi; reflexivity.
Qed.

Lemma heldTail_not_muted (c : Z) (note : MusicalNote) :
  heldTail c note = true -> muted note = false.
Proof.
  unfold heldTail, muted. destruct (tail note) as [t|]; [|discriminate].
  intros H. apply andb_true_iff in H. destruct H as [_ H].
  apply negb_true_iff in H. rewrite H. apply andb_false_r.
Qed.

(** X22: a tail that is held stays held until its column is released: as
    long as the note is on the board and no [ReleaseButton] of its column
    comes, whatever else is pressed or released, the note is not muted, and
    a release of the column is charged for it. *)
Theorem held_tail_stays_held (actions : list GameAction) (c : Z) :
  forall note note' : MusicalNote,
    heldTail c note = true ->
    existsb (isReleaseOf c) actions = false ->
    descendant actions note = Some note' ->
    heldTail c note' = true
    /\ muted note' = false
    /\ inactiveTail (releaseNote c note') = true.
Proof.
  induction actions as [|action actions IH]; intros note note' Hheld Hno Hd.
  - injection Hd as <-. split; [exact Hheld|].
    split; [now apply (heldTail_not_muted c)|].
    unfold releaseNote, inactiveTail. rewrite Hheld.
    unfold heldTail in Hheld.
    destruct (tail note) as [t|]; [reflexivity | discriminate].
  - cbn [existsb] in Hno. apply orb_false_iff in Hno. destruct Hno as [Ha Hno].
    cbn [descendant] in Hd.
    destruct (successor action note) as [next|] eqn:Hs; [|discriminate].
    apply (IH next note'); [|exact Hno|exact Hd].
    exact (successor_stays_held action c note next Ha Hheld Hs).
Qed.

Lemma held_tail_stays_held_witness :
  heldTail 0
           (match descendant [GameTick; PressButton 0; ReleaseButton 1; GameTick]
                             heldNote with
            | Some note' => note'
            | None => heldNote
            end) = true.
Proof.
  apply (held_tail_stays_held
           [GameTick; PressButton 0; ReleaseButton 1; GameTick] 0 heldNote).
  - reflexivity.
  - reflexivity.
  - vm_compute. reflexivity.
Defined.
